(** * The matrix kernel and the database orchestrator of the face-recognition
      system: a shallow embedding of [matrix.c], [database.c], [identity.cpp]
      and [test_matrix.c], with the properties the specification states and
      further properties of the code.

    Conventions of the embedding.
    - A C [int] is a [Z]; the index arithmetic of the sources is carried out
      on [Z] and the 32-bit range only matters where an [int] is written to
      or read from a stream ([int_range]).
    - [precision_t] and the [elem] macro are declared in [matrix.h], which is
      not among the sources: the scalar type is a parameter ([Precision]),
      with IEEE-754 doubles and the real numbers as instances, and [elem]
      follows the column-major addressing [i + j * rows].
    - A buffer obtained from [malloc] is a list of cells, each uninitialised
      ([None]) or holding a value; [calloc] gives cells that hold zero.
    - A run either returns ([Ok]), is stopped by a failed [assert] ([Abort])
      or has no defined behaviour ([Undefined]: an access outside a buffer, a
      read of an uninitialised cell, a NULL dereference).
    - A function that updates its argument in place returns the new value of
      that argument. *)

From Stdlib Require Import ZArith List Lia Bool Reals Lra Floats.
From Stdlib Require Import Strings.Byte.
From stdpp Require Import base list.
Import ListNotations.

Open Scope Z_scope.

(** ** Outcomes of a run *)

Inductive outcome (A : Type) : Type :=
| Ok (a : A)
| Abort
| Undefined.

Arguments Ok {A} a.
Arguments Abort {A}.
Arguments Undefined {A}.

Definition bind {A B : Type} (m : outcome A) (k : A -> outcome B) : outcome B :=
  match m with
  | Ok a => k a
  | Abort => Abort
  | Undefined => Undefined
  end.

Notation "'let*' x ':=' m 'in' k" := (bind m (fun x => k))
  (at level 10, x pattern, m at level 100, k at level 200).

(** [assert(c)] of <assert.h>. *)
Definition assert (c : bool) : outcome unit := if c then Ok tt else Abort.

(** [for ( i = lo; i < hi; i++ ) body], the loop state threaded through. *)
Fixpoint for_from {St : Type} (body : Z -> St -> outcome St) (i : Z) (n : nat) (s : St)
  : outcome St :=
  match n with
  | O => Ok s
  | S n' => let* s' := body i s in for_from body (i + 1) n' s'
  end.

Definition for_loop {St : Type} (lo hi : Z) (body : Z -> St -> outcome St) (s : St)
  : outcome St :=
  for_from body lo (Z.to_nat (hi - lo)) s.

(** The sum [f 0 + f 1 + ... + f (n-1)] accumulated from zero in index order,
    as the accumulation loops of the sources compute it. *)
Fixpoint big_sum {T : Type} (zero : T) (add : T -> T -> T) (f : Z -> T) (n : nat) : T :=
  match n with
  | O => zero
  | S n' => add (big_sum zero add f n') (f (Z.of_nat n'))
  end.

(** ** The scalar type

    [precision_t] is a typedef of [matrix.h], which is not among the sources.
    The library only uses the arithmetic below on it; the integer constants of
    the sources ([0], [1], [-1], [M->cols - 1]) reach it through the implicit
    conversion from [int], [p_of_int]. *)

Class Precision (T : Type) : Type := {
  p_of_int : Z -> T;
  p_add : T -> T -> T;
  p_sub : T -> T -> T;
  p_mul : T -> T -> T;
  p_div : T -> T -> T;
  p_opp : T -> T;
  p_sqrt : T -> T;
  p_eqb : T -> T -> bool;
  p_ltb : T -> T -> bool
}.

(** IEEE-754 binary64, the [double] of the C sources. An [int] converts
    exactly. *)
Definition float_of_int (z : Z) : float :=
  if z <? 0 then PrimFloat.opp (PrimFloat.of_uint63 (Uint63.of_Z (- z)))
  else PrimFloat.of_uint63 (Uint63.of_Z z).

#[export] Instance double_precision : Precision float := {|
  p_of_int := float_of_int;
  p_add := PrimFloat.add;
  p_sub := PrimFloat.sub;
  p_mul := PrimFloat.mul;
  p_div := PrimFloat.div;
  p_opp := PrimFloat.opp;
  p_sqrt := PrimFloat.sqrt;
  p_eqb := PrimFloat.eqb;
  p_ltb := PrimFloat.ltb
|}.

(** Exact arithmetic: the real numbers. *)
#[export] Instance real_precision : Precision R := {|
  p_of_int := IZR;
  p_add := Rplus;
  p_sub := Rminus;
  p_mul := Rmult;
  p_div := Rdiv;
  p_opp := Ropp;
  p_sqrt := R_sqrt.sqrt;
  p_eqb := fun x y => if Req_dec_T x y then true else false;
  p_ltb := fun x y => if Rlt_dec x y then true else false
|}.

(** The conversions from [precision_t] to an integer type, [(int) x] and
    [(unsigned char) x]: the value is truncated toward zero, and the
    conversion has no defined behaviour when the truncated value is not one of
    the type. [p_trunc] is the truncation, [None] where there is no integer
    part (an infinity, a NaN). *)
Class Truncation (T : Type) : Type := {
  p_trunc : T -> option Z
}.

Definition float_trunc (x : float) : option Z :=
  match Prim2SF x with
  | S754_zero _ => Some 0
  | S754_finite s m e =>
      let v := if 0 <=? e then Z.pos m * 2 ^ e else Z.quot (Z.pos m) (2 ^ (- e)) in
      Some (if s then - v else v)
  | _ => None
  end.

#[export] Instance double_truncation : Truncation float := {|
  p_trunc := float_trunc
|}.

#[export] Instance real_truncation : Truncation R := {|
  p_trunc := fun x => Some (if Rle_dec 0 x then Int_part x else - Int_part (- x))
|}.

Section Casts.
Context {T : Type} `{Truncation T}.

(** [(int) x]. *)
Definition cast_int (x : T) : outcome Z :=
  match p_trunc x with
  | Some z => if (- 2 ^ 31 <=? z) && (z <? 2 ^ 31) then Ok z else Undefined
  | None => Undefined
  end.

(** [(unsigned char) x]. *)
Definition cast_uchar (x : T) : outcome Z :=
  match p_trunc x with
  | Some z => if (0 <=? z) && (z <? 256) then Ok z else Undefined
  | None => Undefined
  end.

End Casts.

(** ** Matrices *)

(** [matrix_t]: the dimensions and the column-major buffer. *)
Record matrix_t (T : Type) : Type := {
  rows : Z;
  cols : Z;
  data : list (option T)
}.

Arguments rows {T} _.
Arguments cols {T} _.
Arguments data {T} _.

Section Cells.
Context {T : Type}.
Implicit Types (buf : list (option T)) (M : matrix_t T).

(** [buf[k]] read and written. *)
Definition load buf (k : Z) : outcome T :=
  if k <? 0 then Undefined
  else match buf !! Z.to_nat k with
       | Some (Some v) => Ok v
       | _ => Undefined
       end.

Definition store buf (k : Z) (v : T) : outcome (list (option T)) :=
  if (0 <=? k) && (k <? Z.of_nat (length buf))
  then Ok (<[Z.to_nat k := Some v]> buf)
  else Undefined.

(** [memcpy(dst, src + off, n * sizeof(precision_t))]. *)
Definition memcpy (dst src : list (option T)) (off n : Z) : outcome (list (option T)) :=
  if (0 <=? off) && (0 <=? n) && (off + n <=? Z.of_nat (length src))
     && (n <=? Z.of_nat (length dst))
  then Ok (take (Z.to_nat n) (drop (Z.to_nat off) src) ++ drop (Z.to_nat n) dst)
  else Undefined.

(** [memcpy(dst + doff, src + soff, n * sizeof(precision_t))], the two
    regions in different buffers or apart in the same one. *)
Definition memcpy_to (dst : list (option T)) (doff : Z) (src : list (option T)) (soff n : Z)
  : outcome (list (option T)) :=
  if (0 <=? doff) && (0 <=? soff) && (0 <=? n)
     && (soff + n <=? Z.of_nat (length src)) && (doff + n <=? Z.of_nat (length dst))
  then Ok (take (Z.to_nat doff) dst
           ++ take (Z.to_nat n) (drop (Z.to_nat soff) src)
           ++ drop (Z.to_nat (doff + n)) dst)
  else Undefined.

Definition with_data M (d : list (option T)) : matrix_t T :=
  {| rows := rows M; cols := cols M; data := d |}.

(** Modelled from the spec: the [elem] macro of [matrix.h], "element (i,j)
    addressed as [i + j*rows]". *)
Definition elem_index M (i j : Z) : Z := i + j * rows M.

(** [elem(M, i, j)] as an rvalue, and [elem(M, i, j) = v]. *)
Definition elem M (i j : Z) : outcome T := load (data M) (elem_index M i j).

Definition set_elem M (i j : Z) (v : T) : outcome (matrix_t T) :=
  let* d := store (data M) (elem_index M i j) v in Ok (with_data M d).

(** [m_initialize]: the buffer comes from [malloc]. *)
Definition m_initialize (nrows ncols : Z) : matrix_t T :=
  {| rows := nrows; cols := ncols; data := replicate (Z.to_nat (nrows * ncols)) None |}.

(** [m_copy_columns]. *)
Definition m_copy_columns M (begin end_ : Z) : outcome (matrix_t T) :=
  let* _ := assert ((0 <=? begin) && (begin <? end_) && (end_ <=? cols M)) in
  let C := m_initialize (rows M) (end_ - begin) in
  let* d := memcpy (data C) (data M) (elem_index M 0 begin) (rows C * cols C) in
  Ok (with_data C d).

(** [m_copy]. *)
Definition m_copy M : outcome (matrix_t T) := m_copy_columns M 0 (cols M).

(** [m_initialize_data] of the test suite: a matrix filled from a C array
    [data[rows][cols]], given as the list of its rows. *)
Definition m_initialize_data (nrows ncols : Z) (values : list (list T))
  : outcome (matrix_t T) :=
  let M := m_initialize nrows ncols in
  for_loop 0 (rows M) (fun i M =>
    for_loop 0 (cols M) (fun j M =>
      match values !! Z.to_nat i with
      | Some row => match row !! Z.to_nat j with
                    | Some x => set_elem M i j x
                    | None => Undefined
                    end
      | None => Undefined
      end) M) M.

End Cells.

(** ** Well-formed matrices *)

Section Shapes.
Context {T : Type}.
Implicit Types (M : matrix_t T).

(** The shape [r x c] with a buffer of [r * c] cells. *)
Definition shaped (r c : Z) M : Prop :=
  rows M = r /\ cols M = c /\ Z.of_nat (length (data M)) = r * c.

Definition in_range (r c : Z) (k : Z * Z) : Prop :=
  0 <= fst k < r /\ 0 <= snd k < c.

(** Every cell of the matrix holds a value. *)
Definition initialised M : Prop :=
  forall i j, 0 <= i < rows M -> 0 <= j < cols M -> exists v, elem M i j = Ok v.

(** The entries of a matrix of shape [r x c] are given by [f]. *)
Definition entries_are (r c : Z) M (f : Z -> Z -> T) : Prop :=
  forall i j, 0 <= i < r -> 0 <= j < c -> elem M i j = Ok (f i j).

(** What the constructors of the library produce once filled: positive
    dimensions, a buffer of [rows * cols] cells, each holding a value. *)
Definition wf_matrix M : Prop :=
  0 < rows M /\ 0 < cols M /\
  Z.of_nat (length (data M)) = rows M * cols M /\
  Forall is_Some (data M).

End Shapes.

(** ** The linear-algebra kernel: what both revisions of [matrix.c] share *)

(** Modelled from the spec: [cblas_dgemm] belongs to the BLAS, outside the
    repository; its contract is [C := alpha * op(A) * op(B) + beta * C] on
    column-major buffers with leading dimensions, [op(X)] being [X] or its
    transpose, and [C] is not read when [beta] is zero. Each dot product is
    accumulated from zero in index order. *)
Inductive CBLAS_TRANSPOSE : Type := CblasNoTrans | CblasTrans.

(** Offset of the element [(r, c)] of [op(X)] in the buffer of [X]. *)
Definition op_index (trans : CBLAS_TRANSPOSE) (ld r c : Z) : Z :=
  match trans with
  | CblasNoTrans => r + c * ld
  | CblasTrans => c + r * ld
  end.

(** [image_t] is declared in [image.h], which is not among the sources; the
    fields are those [matrix.c] uses, the pixels being the [unsigned char]s of
    the buffer. The older revision has the same two functions on [ppm_t],
    under the names [m_ppm_read] and [m_ppm_write]. *)
Record image_t : Type := {
  channels : Z;
  height : Z;
  width : Z;
  pixels : list Z
}.

(** [image->pixels[k]] read and written. *)
Definition pixel_load (image : image_t) (k : Z) : outcome Z :=
  if k <? 0 then Undefined
  else match pixels image !! Z.to_nat k with
       | Some px => Ok px
       | None => Undefined
       end.

Definition pixel_store (image : image_t) (k : Z) (px : Z) : outcome image_t :=
  if (0 <=? k) && (k <? Z.of_nat (length (pixels image)))
  then Ok {| channels := channels image; height := height image; width := width image;
             pixels := <[Z.to_nat k := px]> (pixels image) |}
  else Undefined.

Section Kernel.
Context {T : Type} `{Precision T}.
Implicit Types (M A B C : matrix_t T).

Definition cblas_dgemm (TransA TransB : CBLAS_TRANSPOSE) (m n k : Z)
    (alpha : T) (a : list (option T)) (lda : Z) (b : list (option T)) (ldb : Z)
    (beta : T) (c : list (option T)) (ldc : Z) : outcome (list (option T)) :=
  for_loop 0 n (fun j c =>
    for_loop 0 m (fun i c =>
      let* dot := for_loop 0 k (fun l acc =>
                    let* x := (let* u := load a (op_index TransA lda i l) in
                               let* w := load b (op_index TransB ldb l j) in
                               Ok (p_mul u w)) in
                    Ok (p_add acc x)) (p_of_int 0) in
      let* v := (if p_eqb beta (p_of_int 0) then Ok (p_mul alpha dot)
                 else let* old := load c (i + j * ldc) in
                      Ok (p_add (p_mul alpha dot) (p_mul beta old))) in
      store c (i + j * ldc) v) c) c.

(** [m_zeros]: the buffer comes from [calloc]. *)
Definition m_zeros (nrows ncols : Z) : matrix_t T :=
  {| rows := nrows; cols := ncols;
     data := replicate (Z.to_nat (nrows * ncols)) (Some (p_of_int 0)) |}.


(** [m_product]. *)
Definition m_product A B : outcome (matrix_t T) :=
  let* _ := assert (cols A =? rows B) in
  let C := m_zeros (rows A) (cols B) in
  let alpha := p_of_int 1 in
  let beta := p_of_int 0 in
  let* d := cblas_dgemm CblasNoTrans CblasNoTrans
              (rows A) (cols B) (cols A)
              alpha (data A) (rows A) (data B) (rows B)
              beta (data C) (rows C) in
  Ok (with_data C d).

(** [m_mean_column]. *)
Definition m_mean_column M : outcome (matrix_t T) :=
  let a := m_zeros (rows M) 1 in
  let* a := for_loop 0 (cols M) (fun i a =>
              for_loop 0 (rows M) (fun j a =>
                let* s := elem a j 0 in
                let* x := elem M j i in
                set_elem a j 0 (p_add s x)) a) a in
  for_loop 0 (rows M) (fun i a =>
    let* s := elem a i 0 in
    set_elem a i 0 (p_div s (p_of_int (cols M)))) a.

(** [m_elem_mult]. *)
Definition m_elem_mult M (c : T) : outcome (matrix_t T) :=
  for_loop 0 (rows M) (fun i M =>
    for_loop 0 (cols M) (fun j M =>
      let* x := elem M i j in
      set_elem M i j (p_mul x c)) M) M.

(** [m_dist_L2]. *)
Definition m_dist_L2 A (i : Z) B (j : Z) : outcome T :=
  let* _ := assert (rows A =? rows B) in
  let dist := p_of_int 0 in
  for_loop 0 (rows A) (fun k dist =>
    let* x := (let* u := elem A k i in
               let* w := elem B k j in
               let diff := p_sub u w in
               Ok (p_mul diff diff)) in
    Ok (p_add dist x)) dist.

(** [m_dist_L1]. *)
Definition m_dist_L1 A (i : Z) B (j : Z) : outcome T :=
  let* d := m_dist_L2 A i B j in Ok (p_sqrt d).

(** [m_transpose]. *)
Definition m_transpose M : outcome (matrix_t T) :=
  let Tr := m_initialize (cols M) (rows M) in
  for_loop 0 (rows Tr) (fun i Tr =>
    for_loop 0 (cols Tr) (fun j Tr =>
      let* x := elem M j i in
      set_elem Tr i j x) Tr) Tr.

(** [m_add]. *)
Definition m_add A B : outcome (matrix_t T) :=
  let* _ := assert ((rows A =? rows B) && (cols A =? cols B)) in
  for_loop 0 (rows A) (fun i A =>
    for_loop 0 (cols A) (fun j A =>
      let* x := elem A i j in
      let* y := elem B i j in
      set_elem A i j (p_add x y)) A) A.

(** [m_subtract]. *)
Definition m_subtract A B : outcome (matrix_t T) :=
  let* _ := assert ((rows A =? rows B) && (cols A =? cols B)) in
  for_loop 0 (rows A) (fun i A =>
    for_loop 0 (cols A) (fun j A =>
      let* x := elem A i j in
      let* y := elem B i j in
      set_elem A i j (p_sub x y)) A) A.

(** [m_image_read] ([m_ppm_read] in the older revision). *)
Definition m_image_read M (col : Z) (image : image_t) : outcome (matrix_t T) :=
  let* _ := assert (rows M =? channels image * height image * width image) in
  for_loop 0 (rows M) (fun i M =>
    let* px := pixel_load image i in
    set_elem M i col (p_of_int px)) M.

(** The value [cblas_dgemm] leaves in a cell that held [old], [dot] being
    the dot product for that cell. *)
Definition gemm_value (alpha beta dot old : T) : T :=
  if p_eqb beta (p_of_int 0) then p_mul alpha dot
  else p_add (p_mul alpha dot) (p_mul beta old).

(** Sums of scalars, accumulated from zero in index order. *)
Definition p_sum (f : Z -> T) (n : Z) : T :=
  big_sum (p_of_int 0) p_add f (Z.to_nat n).

End Kernel.

(** ** [matrix.c], the revision for the CPU only *)

Module MatrixCpu.
Section Defs.
Context {T : Type} `{Precision T}.
Implicit Types (M A B C : matrix_t T).

(** [m_subtract_columns]. *)
Definition m_subtract_columns M (a : matrix_t T) : outcome (matrix_t T) :=
  for_loop 0 (cols M) (fun i M =>
    for_loop 0 (rows M) (fun j M =>
      let* x := elem M j i in
      let* y := elem a j 0 in
      set_elem M j i (p_sub x y)) M) M.

(** [m_covariance]. *)
Definition m_covariance M : outcome (matrix_t T) :=
  let* A := m_copy M in
  let* mean := m_mean_column A in
  let* A := m_subtract_columns A mean in
  let C := m_zeros (rows A) (rows A) in
  let* d := cblas_dgemm CblasNoTrans CblasTrans
              (rows A) (rows A) (cols A)
              (p_of_int 1) (data A) (rows A) (data A) (rows A)
              (p_of_int 0) (data C) (rows C) in
  let C := with_data C d in
  let c := if cols M >? 1 then p_of_int (cols M - 1) else p_of_int 1 in
  m_elem_mult C (p_div (p_of_int 1) c).

(** [m_dist_COS]. *)
Definition m_dist_COS A (i : Z) B (j : Z) : outcome T :=
  let* _ := assert (rows A =? rows B) in
  let* x_dot_y := for_loop 0 (rows A) (fun k x_dot_y =>
                    let* x := (let* u := elem A k i in
                               let* w := elem B k j in
                               Ok (p_mul u w)) in
                    Ok (p_add x_dot_y x)) (p_of_int 0) in
  let* (abs_x, abs_y) :=
    for_loop 0 (rows A) (fun k '(abs_x, abs_y) =>
      let* u := elem A k i in
      let* w := elem B k j in
      Ok (p_add abs_x (p_mul u u), p_add abs_y (p_mul w w)))
      (p_of_int 0, p_of_int 0) in
  let abs_x := p_sqrt abs_x in
  let abs_y := p_sqrt abs_y in
  Ok (p_div (p_opp x_dot_y) (p_mul abs_x abs_y)).

(** [m_reshape]. The divisions are C's, truncating; their divisors are not
    zero in any iteration that runs, the element counts being equal. *)
Definition m_reshape M (newNumRows newNumCols : Z) : outcome (matrix_t T) :=
  let* _ := assert (rows M * cols M =? newNumRows * newNumCols) in
  let R := m_initialize newNumRows newNumCols in
  for_loop 0 (newNumRows * newNumCols) (fun i R =>
    let r1 := Z.quot i newNumCols in
    let c1 := Z.rem i newNumCols in
    let r2 := Z.quot i (cols M) in
    let c2 := Z.rem i (cols M) in
    let* x := elem M r2 c2 in
    set_elem R r1 c1 x) R.

(** [m_flipCols]. *)
Definition m_flipCols M : outcome (matrix_t T) :=
  for_loop 0 (rows M) (fun i M =>
    for_loop 0 (Z.quot (cols M) 2) (fun j M =>
      let* temp := elem M i j in
      let* x := elem M i (cols M - j - 1) in
      let* M := set_elem M i j x in
      set_elem M i (cols M - j - 1) temp) M) M.

(** [m_normalize]. *)
Definition m_normalize M : outcome (matrix_t T) :=
  let* min := elem M 0 0 in
  let max := min in
  let* (min, max) :=
    for_loop 0 (rows M) (fun i '(min, max) =>
      for_loop 0 (cols M) (fun j '(min, max) =>
        let* val := elem M i j in
        let min := if p_ltb val min then val else min in
        let max := if p_ltb max val then val else max in
        Ok (min, max)) (min, max)) (min, max) in
  for_loop 0 (rows M) (fun i M =>
    for_loop 0 (cols M) (fun j M =>
      let* x := elem M i j in
      set_elem M i j (p_div (p_sub x min) (p_sub max min))) M) M.

(** [m_sumCols]. *)
Definition m_sumCols M : outcome (matrix_t T) :=
  let R := m_initialize 1 (cols M) in
  for_loop 0 (cols M) (fun j R =>
    let val := p_of_int 0 in
    let* val := for_loop 0 (rows M) (fun i val =>
                  let* x := elem M i j in
                  Ok (p_add val x)) val in
    set_elem R 0 j val) R.

(** [m_sumRows]. *)
Definition m_sumRows M : outcome (matrix_t T) :=
  let R := m_initialize (rows M) 1 in
  for_loop 0 (rows M) (fun i R =>
    let val := p_of_int 0 in
    let* val := for_loop 0 (cols M) (fun j val =>
                  let* x := elem M i j in
                  Ok (p_add val x)) val in
    set_elem R i 0 val) R.

(** [m_findNonZeros]. *)
Definition m_findNonZeros M : outcome (matrix_t T) :=
  let R := m_zeros (rows M * cols M) 1 in
  let count := 0 in
  let* (R, count) :=
    for_loop 0 (rows M) (fun i '(R, count) =>
      for_loop 0 (cols M) (fun j '(R, count) =>
        let* val := elem M i j in
        if negb (p_eqb val (p_of_int 0))
        then let* R := set_elem R count 0 (p_of_int (i + 1)) in
             Ok (R, count + 1)
        else Ok (R, count)) (R, count)) (R, count) in
  Ok R.

End Defs.

Section Conversions.
Context {T : Type} `{Precision T} `{Truncation T}.
Implicit Types (M V : matrix_t T).

(** [m_elem_truncate]. *)
Definition m_elem_truncate M : outcome (matrix_t T) :=
  for_loop 0 (rows M) (fun i M =>
    for_loop 0 (cols M) (fun j M =>
      let* x := elem M i j in
      let* z := cast_int x in
      set_elem M i j (p_of_int z)) M) M.

(** [m_reorder_columns]; [row] is an [int], assigned from a [precision_t]. *)
Definition m_reorder_columns M V : outcome (matrix_t T) :=
  let* _ := assert ((cols M =? cols V) && (rows V =? 1)) in
  let R := m_initialize (rows M) (cols M) in
  for_loop 0 (cols R) (fun j R =>
    let* x := elem V 1 j in
    let* row := cast_int x in
    for_loop 0 (rows R) (fun i R =>
      let* y := elem M row j in
      set_elem R i j y) R) R.

End Conversions.
End MatrixCpu.

(** ** [matrix.c], the revision with the CPU and GPU backends

    The GPU paths are selected at build time ([__NVCC__]); the embedding is
    that of the CPU build, where the device transfers are empty. *)

Module MatrixDual.
Section Defs.
Context {T : Type} `{Precision T}.
Implicit Types (M A B C : matrix_t T).

(** [m_mean_row]. *)
Definition m_mean_row M : outcome (matrix_t T) :=
  let a := m_zeros 1 (cols M) in
  let* a := for_loop 0 (rows M) (fun i a =>
              for_loop 0 (cols M) (fun j a =>
                let* s := elem a 0 j in
                let* x := elem M i j in
                set_elem a 0 j (p_add s x)) a) a in
  for_loop 0 (cols M) (fun i a =>
    let* s := elem a 0 i in
    set_elem a 0 i (p_div s (p_of_int (rows M)))) a.

(** [m_subtract_columns]. *)
Definition m_subtract_columns M (a : matrix_t T) : outcome (matrix_t T) :=
  let* _ := assert ((rows M =? rows a) && (cols a =? 1)) in
  for_loop 0 (cols M) (fun i M =>
    for_loop 0 (rows M) (fun j M =>
      let* x := elem M j i in
      let* y := elem a j 0 in
      set_elem M j i (p_sub x y)) M) M.

(** [m_subtract_rows]. *)
Definition m_subtract_rows M (a : matrix_t T) : outcome (matrix_t T) :=
  let* _ := assert ((cols M =? cols a) && (rows a =? 1)) in
  for_loop 0 (rows M) (fun i M =>
    for_loop 0 (cols M) (fun j M =>
      let* x := elem M i j in
      let* y := elem a 0 j in
      set_elem M i j (p_sub x y)) M) M.

(** [m_covariance]. *)
Definition m_covariance M : outcome (matrix_t T) :=
  let* A := m_copy M in
  let* mu := m_mean_row A in
  let* A := m_subtract_rows A mu in
  let C := m_zeros (cols A) (cols A) in
  let alpha := p_of_int 1 in
  let beta := p_of_int 0 in
  let* d := cblas_dgemm CblasTrans CblasNoTrans
              (cols A) (cols A) (rows A)
              alpha (data A) (rows A) (data A) (rows A)
              beta (data C) (rows C) in
  let C := with_data C d in
  let c := if rows M >? 1 then p_of_int (rows M - 1) else p_of_int 1 in
  m_elem_mult C (p_div (p_of_int 1) c).

(** [m_dist_COS]. *)
Definition m_dist_COS A (i : Z) B (j : Z) : outcome T :=
  let* _ := assert (rows A =? rows B) in
  let* x_dot_y := for_loop 0 (rows A) (fun k x_dot_y =>
                    let* x := (let* u := elem A k i in
                               let* w := elem B k j in
                               Ok (p_mul u w)) in
                    Ok (p_add x_dot_y x)) (p_of_int 0) in
  let* (abs_x, abs_y) :=
    for_loop 0 (rows A) (fun k '(abs_x, abs_y) =>
      let* u := elem A k i in
      let* w := elem B k j in
      Ok (p_add abs_x (p_mul u u), p_add abs_y (p_mul w w)))
      (p_of_int 0, p_of_int 0) in
  Ok (p_div (p_opp x_dot_y) (p_sqrt (p_mul abs_x abs_y))).



(** [m_assign_column]. The source of the copy is [B->data], the top of the
    buffer of [B]; [j] only enters the assertion. *)
Definition m_assign_column A (i : Z) B (j : Z) : outcome (matrix_t T) :=
  let* _ := assert (rows A =? rows B) in
  let* _ := assert ((0 <=? i) && (i <? cols A)) in
  let* _ := assert ((0 <=? j) && (j <? cols B)) in
  let* d := memcpy_to (data A) (elem_index A 0 i) (data B) 0 (rows B) in
  Ok (with_data A d).

(** [m_assign_row]. *)
Definition m_assign_row A (i : Z) B (j : Z) : outcome (matrix_t T) :=
  let* _ := assert (cols A =? cols B) in
  let* _ := assert ((0 <=? i) && (i <? rows A)) in
  let* _ := assert ((0 <=? j) && (j <? rows B)) in
  for_loop 0 (cols A) (fun k A =>
    let* x := elem B j k in
    set_elem A i k x) A.

(** [m_elem_apply]; [elem_func_t], declared in [matrix.h], is taken to be a
    function from [precision_t] to [precision_t] without effects. *)
Definition m_elem_apply M (f : T -> T) : outcome (matrix_t T) :=
  for_loop 0 (rows M) (fun i M =>
    for_loop 0 (cols M) (fun j M =>
      let* x := elem M i j in
      set_elem M i j (f x)) M) M.

(** [m_shuffle_columns]. [rand] of <stdlib.h> is a parameter: [rand k] is
    what its call number [k] returns, and the number of calls made so far is
    threaded through. *)
Definition m_shuffle_columns (rand : nat -> Z) (calls : nat) M
  : outcome (matrix_t T * nat) :=
  let temp := replicate (Z.to_nat (rows M)) None in
  let* (M, temp, calls) :=
    for_loop 0 (cols M - 1) (fun i '(M, temp, calls) =>
      let j := Z.rem (rand calls) (cols M - i) + i in
      let calls := S calls in
      if negb (i =? j)
      then let* temp := memcpy_to temp 0 (data M) (elem_index M 0 i) (rows M) in
           let* d := memcpy_to (data M) (elem_index M 0 i)
                               (data M) (elem_index M 0 j) (rows M) in
           let M := with_data M d in
           let* d := memcpy_to (data M) (elem_index M 0 j) temp 0 (rows M) in
           Ok (with_data M d, temp, calls)
      else Ok (M, temp, calls)) (M, temp, calls) in
  Ok (M, calls).

End Defs.

Section Conversions.
Context {T : Type} `{Truncation T}.
Implicit Types (M : matrix_t T).

(** [m_image_write] ([m_ppm_write] in the older revision). *)
Definition m_image_write M (col : Z) (image : image_t) : outcome image_t :=
  let* _ := assert (rows M =? channels image * height image * width image) in
  for_loop 0 (rows M) (fun i image =>
    let* x := elem M i col in
    let* px := cast_uchar x in
    pixel_store image i px) image.

End Conversions.
End MatrixDual.



(** ** Binary serialisation *)

(** A stream is the sequence of its bytes: what has been written so far for an
    output stream, what is left to read for an input stream. *)
Definition stream : Type := list byte.

(** The bytes of an [int]: 32 bits, two's complement, least significant byte
    first (the byte order the specification fixes for the binary format). *)
Definition byte_of_Z (z : Z) : byte :=
  match Byte.of_N (Z.to_N (z mod 256)) with
  | Some b => b
  | None => Byte.x00
  end.

Definition Z_of_byte (b : byte) : Z := Z.of_N (Byte.to_N b).

Definition int_range (z : Z) : Prop := - 2 ^ 31 <= z < 2 ^ 31.

Definition int_to_bytes (z : Z) : list byte :=
  [byte_of_Z z; byte_of_Z (z / 2 ^ 8); byte_of_Z (z / 2 ^ 16); byte_of_Z (z / 2 ^ 24)].

Definition int_of_bytes (bs : list byte) : Z :=
  let u := fold_right (fun b acc => Z_of_byte b + 256 * acc) 0 bs in
  if u <? 2 ^ 31 then u else u - 2 ^ 32.

(** [fwrite(&x, sizeof(int), 1, stream)]. *)
Definition fwrite_int (s : stream) (x : Z) : stream := s ++ int_to_bytes x.

(** [fread(&x, sizeof(int), 1, stream)]. The sources do not look at what
    [fread] returns: after a short read [x] is indeterminate and its use has
    no defined behaviour. *)
Definition fread_int (s : stream) : outcome (Z * stream) :=
  if (4 <=? length s)%nat then Ok (int_of_bytes (take 4 s), drop 4 s) else Undefined.

(** The object representation of a [precision_t]: [sizeof(precision_t)] bytes
    that determine the value. *)
Class ObjRep (T : Type) : Type := {
  sizeof : nat;
  to_bytes : T -> list byte;
  of_bytes : list byte -> T
}.

Class ObjRepLaws (T : Type) `{ObjRep T} : Prop := {
  to_bytes_length : forall x : T, length (to_bytes x) = sizeof;
  of_to_bytes : forall x : T, of_bytes (to_bytes x) = x
}.

(** A [double] as the eight bytes that hold it. *)
Record binary64 : Type := {
  b0 : byte; b1 : byte; b2 : byte; b3 : byte;
  b4 : byte; b5 : byte; b6 : byte; b7 : byte
}.

#[export] Instance binary64_rep : ObjRep binary64 := {|
  sizeof := 8;
  to_bytes := fun x => [b0 x; b1 x; b2 x; b3 x; b4 x; b5 x; b6 x; b7 x];
  of_bytes := fun bs =>
    match bs with
    | [c0; c1; c2; c3; c4; c5; c6; c7] =>
        {| b0 := c0; b1 := c1; b2 := c2; b3 := c3; b4 := c4; b5 := c5; b6 := c6; b7 := c7 |}
    | _ => {| b0 := x00; b1 := x00; b2 := x00; b3 := x00;
              b4 := x00; b5 := x00; b6 := x00; b7 := x00 |}
    end
|}.

Section Serialisation.
Context {T : Type} `{ObjRep T}.
Implicit Types (M : matrix_t T) (s : stream).

(** The bytes of the first cells of a buffer; a cell that was never written
    has no determinate bytes. *)
Fixpoint cells_to_bytes (cells : list (option T)) : outcome (list byte) :=
  match cells with
  | [] => Ok []
  | Some v :: rest => let* bs := cells_to_bytes rest in Ok (to_bytes v ++ bs)
  | None :: _ => Undefined
  end.

(** [fwrite(buf, sizeof(precision_t), count, stream)]. *)
Definition fwrite_data s (buf : list (option T)) (count : Z) : outcome stream :=
  if (0 <=? count) && (count <=? Z.of_nat (length buf))
  then let* bs := cells_to_bytes (take (Z.to_nat count) buf) in Ok (s ++ bs)
  else Undefined.

(** The items [fread] gets out of a stream: whole items, as many as asked for
    while the stream lasts. *)
Fixpoint fread_items (n : nat) s : list T * stream :=
  match n with
  | O => ([], s)
  | S n' =>
      if (sizeof <=? length s)%nat
      then let '(vs, s') := fread_items n' (drop sizeof s) in
           (of_bytes (take sizeof s) :: vs, s')
      else ([], [])
  end.

(** [fread(buf, sizeof(precision_t), count, stream)]: the items read go to the
    first cells of the buffer, the others keep what they held. *)
Definition fread_data (buf : list (option T)) (count : Z) s
  : outcome (list (option T) * stream) :=
  if (0 <=? count) && (count <=? Z.of_nat (length buf))
  then let '(vs, s') := fread_items (Z.to_nat count) s in
       Ok ((Some <$> vs) ++ drop (length vs) buf, s')
  else Undefined.

(** [m_fwrite]. *)
Definition m_fwrite s M : outcome stream :=
  let s := fwrite_int s (rows M) in
  let s := fwrite_int s (cols M) in
  fwrite_data s (data M) (rows M * cols M).

(** [m_fread]. *)
Definition m_fread s : outcome (matrix_t T * stream) :=
  let* (nrows, s) := fread_int s in
  let* (ncols, s) := fread_int s in
  let M := m_initialize nrows ncols in
  let* (d, s) := fread_data (data M) (rows M * cols M) s in
  Ok (with_data M d, s).

(** The bytes [m_fwrite] produces for a matrix. *)
Definition matrix_bytes M : list byte :=
  int_to_bytes (rows M) ++ int_to_bytes (cols M) ++
  concat (map (fun cell => match cell with Some v => to_bytes v | None => [] end) (data M)).

(** A well-formed matrix whose dimensions are values of the type [int]. *)
Definition storable M : Prop :=
  wf_matrix M /\ int_range (rows M) /\ int_range (cols M).

End Serialisation.

(** ** [database.c] *)

Module Database.

(** [image_entry_t] and [database_t] are declared in [database.h], which is
    not among the sources; the fields are those [database.c] uses. A matrix
    pointer is [None] when it is NULL. *)
Record image_entry_t : Type := {
  ent_class : Z;
  name : list byte
}.

Record database_t (T : Type) : Type := {
  pca : Z;
  lda : Z;
  ica : Z;
  num_images : Z;
  num_classes : Z;
  num_dimensions : Z;
  entries : list image_entry_t;
  mean_face : option (matrix_t T);
  W_pca_tr : option (matrix_t T);
  P_pca : option (matrix_t T);
  W_lda_tr : option (matrix_t T);
  P_lda : option (matrix_t T);
  W_ica_tr : option (matrix_t T);
  P_ica : option (matrix_t T)
}.

Arguments pca {T} _.
Arguments lda {T} _.
Arguments ica {T} _.
Arguments num_images {T} _.
Arguments num_classes {T} _.
Arguments num_dimensions {T} _.
Arguments entries {T} _.
Arguments mean_face {T} _.
Arguments W_pca_tr {T} _.
Arguments P_pca {T} _.
Arguments W_lda_tr {T} _.
Arguments P_lda {T} _.
Arguments W_ica_tr {T} _.
Arguments P_ica {T} _.

(** An [int] used as a condition. *)
Definition truth (flag : Z) : bool := negb (flag =? 0).

Section Defs.
Context {T : Type}.
Implicit Types (db : database_t T) (M : matrix_t T).

(** [*p] for a matrix pointer. *)
Definition deref (p : option (matrix_t T)) : outcome (matrix_t T) :=
  match p with
  | Some M => Ok M
  | None => Undefined
  end.

(** [db_construct]: the structure comes from [calloc]. *)
Definition db_construct (pca lda ica : Z) : database_t T := {|
  pca := pca; lda := lda; ica := ica;
  num_images := 0; num_classes := 0; num_dimensions := 0;
  entries := [];
  mean_face := None;
  W_pca_tr := None; P_pca := None;
  W_lda_tr := None; P_lda := None;
  W_ica_tr := None; P_ica := None
|}.

(** Assignments to the fields of [*db]. *)
Definition set_mean_face db (m : option (matrix_t T)) : database_t T := {|
  pca := pca db; lda := lda db; ica := ica db;
  num_images := num_images db; num_classes := num_classes db;
  num_dimensions := num_dimensions db; entries := entries db;
  mean_face := m;
  W_pca_tr := W_pca_tr db; P_pca := P_pca db;
  W_lda_tr := W_lda_tr db; P_lda := P_lda db;
  W_ica_tr := W_ica_tr db; P_ica := P_ica db
|}.

Definition set_pca db (w p : option (matrix_t T)) : database_t T := {|
  pca := pca db; lda := lda db; ica := ica db;
  num_images := num_images db; num_classes := num_classes db;
  num_dimensions := num_dimensions db; entries := entries db;
  mean_face := mean_face db;
  W_pca_tr := w; P_pca := p;
  W_lda_tr := W_lda_tr db; P_lda := P_lda db;
  W_ica_tr := W_ica_tr db; P_ica := P_ica db
|}.

Definition set_lda db (w p : option (matrix_t T)) : database_t T := {|
  pca := pca db; lda := lda db; ica := ica db;
  num_images := num_images db; num_classes := num_classes db;
  num_dimensions := num_dimensions db; entries := entries db;
  mean_face := mean_face db;
  W_pca_tr := W_pca_tr db; P_pca := P_pca db;
  W_lda_tr := w; P_lda := p;
  W_ica_tr := W_ica_tr db; P_ica := P_ica db
|}.

Definition set_ica db (w p : option (matrix_t T)) : database_t T := {|
  pca := pca db; lda := lda db; ica := ica db;
  num_images := num_images db; num_classes := num_classes db;
  num_dimensions := num_dimensions db; entries := entries db;
  mean_face := mean_face db;
  W_pca_tr := W_pca_tr db; P_pca := P_pca db;
  W_lda_tr := W_lda_tr db; P_lda := P_lda db;
  W_ica_tr := w; P_ica := p
|}.

Definition set_counts db (images dimensions : Z) : database_t T := {|
  pca := pca db; lda := lda db; ica := ica db;
  num_images := images; num_classes := num_classes db;
  num_dimensions := dimensions; entries := entries db;
  mean_face := mean_face db;
  W_pca_tr := W_pca_tr db; P_pca := P_pca db;
  W_lda_tr := W_lda_tr db; P_lda := P_lda db;
  W_ica_tr := W_ica_tr db; P_ica := P_ica db
|}.

Definition set_entries db (es : list image_entry_t) : database_t T := {|
  pca := pca db; lda := lda db; ica := ica db;
  num_images := num_images db; num_classes := num_classes db;
  num_dimensions := num_dimensions db; entries := es;
  mean_face := mean_face db;
  W_pca_tr := W_pca_tr db; P_pca := P_pca db;
  W_lda_tr := W_lda_tr db; P_lda := P_lda db;
  W_ica_tr := W_ica_tr db; P_ica := P_ica db
|}.

End Defs.

(** *** Saving and loading

    The formatted text of the manifest goes through [fprintf] and [fscanf] of
    the C library, which are parameters here: [fprintf_entry e] is what
    [fprintf(tset, "%d %s\n", e.ent_class, e.name)] writes, and [fscanf_entry]
    is what [fscanf(tset, "%d %s", ...)] converts: the class and the bytes of
    the name that go into the entry, whether the input matched or not, and
    what is left of the stream. Where the name is stored is [db_load]'s own
    affair: a block of 64 bytes. The two files are given by their contents;
    [fopen] is taken to succeed. *)

Section SaveLoad.
Context {T : Type} `{ObjRep T}.
Variable fprintf_entry : image_entry_t -> list byte.
Variable fscanf_entry : stream -> image_entry_t * stream.
Implicit Types (db : database_t T) (M : matrix_t T).

(** [m_fwrite(tdata, W); m_fwrite(tdata, P);] *)
Definition fwrite_pair (tdata : stream) (w p : option (matrix_t T)) : outcome stream :=
  let* W := deref w in
  let* tdata := m_fwrite tdata W in
  let* P := deref p in
  m_fwrite tdata P.

(** [W = m_fread(tdata); P = m_fread(tdata);] *)
Definition fread_pair (tdata : stream) : outcome (matrix_t T * matrix_t T * stream) :=
  let* (W, tdata) := m_fread tdata in
  let* (P, tdata) := m_fread tdata in
  Ok (W, P, tdata).

(** [db_save]: the contents of the manifest and of the data file. *)
Definition db_save db : outcome (stream * stream) :=
  let* tset := for_loop 0 (num_images db) (fun i tset =>
                 match entries db !! Z.to_nat i with
                 | Some e => Ok (tset ++ fprintf_entry e)
                 | None => Undefined
                 end) [] in
  let tdata := [] in
  let* m := deref (mean_face db) in
  let* tdata := m_fwrite tdata m in
  let* tdata := (if truth (pca db) || truth (lda db) || truth (ica db)
                 then fwrite_pair tdata (W_pca_tr db) (P_pca db)
                 else Ok tdata) in
  let* tdata := (if truth (lda db)
                 then fwrite_pair tdata (W_lda_tr db) (P_lda db)
                 else Ok tdata) in
  let* tdata := (if truth (ica db)
                 then fwrite_pair tdata (W_ica_tr db) (P_ica db)
                 else Ok tdata) in
  Ok (tset, tdata).

(** [db_load]. Every name is read by [%s], which has no field width, into
    [malloc(64 * sizeof(char))]: its bytes and the zero byte after them fit
    the block when there are at most 63 of them, and are written past its end
    otherwise. *)
Definition db_load db (tset tdata : stream) : outcome (database_t T) :=
  let* (m, tdata) := m_fread tdata in
  let db := set_mean_face db (Some m) in
  let* (db, tdata) := (if truth (pca db) || truth (lda db) || truth (ica db)
                       then let* (W, P, tdata) := fread_pair tdata in
                            Ok (set_pca db (Some W) (Some P), tdata)
                       else Ok (db, tdata)) in
  let* (db, tdata) := (if truth (lda db)
                       then let* (W, P, tdata) := fread_pair tdata in
                            Ok (set_lda db (Some W) (Some P), tdata)
                       else Ok (db, tdata)) in
  let* (db, tdata) := (if truth (ica db)
                       then let* (W, P, tdata) := fread_pair tdata in
                            Ok (set_ica db (Some W) (Some P), tdata)
                       else Ok (db, tdata)) in
  let* P := deref (P_pca db) in
  let* m := deref (mean_face db) in
  let db := set_counts db (cols P) (rows m) in
  let* (es, tset) := for_loop 0 (num_images db) (fun i '(es, tset) =>
                       let '(e, tset) := fscanf_entry tset in
                       if Z.of_nat (length (name e)) + 1 <=? 64
                       then Ok (es ++ [e], tset)
                       else Undefined) ([], tset) in
  Ok (set_entries db es).

End SaveLoad.

(** *** The Trained state

    What [db_train] leaves and [db_save] relies on: the entries array holds
    [num_images] entries, the mean face is there, and so are the transposed
    basis and the training projection of PCA when any algorithm is enabled
    and those of LDA and ICA when they are, all of them matrices that can be
    stored. *)

Section Trained.
Context {T : Type}.
Implicit Types (db : database_t T).

Definition enabled_any db : bool := truth (pca db) || truth (lda db) || truth (ica db).

Definition holds_storable (p : option (matrix_t T)) : Prop :=
  exists M, p = Some M /\ storable M.

Definition trained db : Prop :=
  0 <= num_images db <= Z.of_nat (length (entries db)) /\
  holds_storable (mean_face db) /\
  (enabled_any db = true -> holds_storable (W_pca_tr db) /\ holds_storable (P_pca db)) /\
  (truth (lda db) = true -> holds_storable (W_lda_tr db) /\ holds_storable (P_lda db)) /\
  (truth (ica db) = true -> holds_storable (W_ica_tr db) /\ holds_storable (P_ica db)).

(** The matrices of the data file in the order of the format: the mean face,
    then basis and projection of PCA, of LDA, of ICA, for those that are
    stored. *)
Definition stored_matrices db : list (option (matrix_t T)) :=
  [mean_face db]
  ++ (if enabled_any db then [W_pca_tr db; P_pca db] else [])
  ++ (if truth (lda db) then [W_lda_tr db; P_lda db] else [])
  ++ (if truth (ica db) then [W_ica_tr db; P_ica db] else []).

End Trained.

(** The bytes of the data file that holds the matrices [ms] one after the
    other. *)
Definition data_file_bytes {T : Type} `{ObjRep T} (ms : list (option (matrix_t T)))
  : list byte :=
  concat (map (fun p => match p with Some M => matrix_bytes M | None => [] end) ms).

(** *** The manifest

    [db_save] writes the first [num_images] entries of the array, one line
    each. An entry reads back when [fscanf] converts what [fprintf] wrote for
    it into the same class and name, and goes on from what it leaves of the
    line as it does from what follows the line: so do the functions of the C
    library for a name that is not empty and holds no white space, the
    newline that is left being skipped by the next [%d]. After [db_train]
    there is one entry for every column of the projection of PCA. *)

Section Manifest.
Context {T : Type}.
Variable fprintf_entry : image_entry_t -> list byte.
Variable fscanf_entry : stream -> image_entry_t * stream.
Implicit Types (db : database_t T).

Definition saved_entries db : list image_entry_t :=
  take (Z.to_nat (num_images db)) (entries db).

Definition manifest_bytes (es : list image_entry_t) : list byte :=
  concat (map fprintf_entry es).

Definition reads_back (e : image_entry_t) : Prop :=
  forall rest : stream, exists left : stream,
    fscanf_entry (fprintf_entry e ++ rest) = (e, left) /\
    fscanf_entry left = fscanf_entry rest.

Definition entry_per_image db : Prop :=
  exists P, P_pca db = Some P /\ num_images db = cols P.

End Manifest.

(** *** Recognition *)

(** [dist_func_t]. *)
Definition dist_func_t (T : Type) : Type :=
  matrix_t T -> Z -> matrix_t T -> Z -> outcome T.

Section Recognition.
Context {T : Type} `{Precision T}.
Implicit Types (P P_test : matrix_t T).

(** [nearest_neighbor]. *)
Definition nearest_neighbor P P_test (dist_func : dist_func_t T) : outcome Z :=
  let min_index := -1 in
  let min_dist := p_of_int (-1) in
  let* (min_index, min_dist) :=
    for_loop 0 (cols P) (fun j '(min_index, min_dist) =>
      let* dist := dist_func P_test 0 P j in
      if p_eqb min_dist (p_of_int (-1)) || p_ltb dist min_dist
      then Ok (j, dist)
      else Ok (min_index, min_dist)) (min_index, min_dist) in
  Ok min_index.

(** The body of the scan of [nearest_neighbor], on its own. *)
Definition scan_step P P_test (d : dist_func_t T) (j : Z) (st : Z * T) : outcome (Z * T) :=
  let '(min_index, min_dist) := st in
  let* dist := d P_test 0 P j in
  if p_eqb min_dist (p_of_int (-1)) || p_ltb dist min_dist
  then Ok (j, dist)
  else Ok (min_index, min_dist).

(** The table of [db_recognize]: for each algorithm its flag, its transposed
    basis, its training projection and its distance function. *)
Definition algorithms (db : database_t T)
  : list (Z * option (matrix_t T) * option (matrix_t T) * dist_func_t T) :=
  [ (pca db, W_pca_tr db, P_pca db, m_dist_L2);
    (lda db, W_lda_tr db, P_lda db, m_dist_L2);
    (ica db, W_ica_tr db, P_ica db, MatrixDual.m_dist_COS) ].

End Recognition.

(** *** Images

    [image_read] belongs to [image.c], [get_directory] and [is_same_class] to
    the directory utilities, all outside the sources. [image_read name] is
    the image that [image_read(image, name)] leaves in [image]; the test
    images that [get_directory] finds are given by their names;
    [is_same_class] is a test on two names. What [db_recognize] prints is
    left out, and its result is the count of matches of each enabled
    algorithm, which the last lines print. *)

(** [rec_params_t], but for the name, which is only printed. *)
Record rec_params_t (T : Type) : Type := {
  enabled : Z;
  W_tr : option (matrix_t T);
  P : option (matrix_t T);
  dist_func : dist_func_t T;
  rec_index : Z;
  num_correct : Z
}.

Arguments enabled {T} _.
Arguments W_tr {T} _.
Arguments P {T} _.
Arguments dist_func {T} _.
Arguments rec_index {T} _.
Arguments num_correct {T} _.

(** A loop over the elements of an array, each iteration updating its own. *)
Fixpoint for_each {A : Type} (f : A -> outcome A) (l : list A) : outcome (list A) :=
  match l with
  | [] => Ok []
  | a :: l' => let* a' := f a in let* l'' := for_each f l' in Ok (a' :: l'')
  end.

Section Images.
Context {T : Type} `{Precision T}.
Variable image_read : list byte -> image_t.
Variable is_same_class : list byte -> list byte -> bool.
Implicit Types (db : database_t T).

(** [entries[i]]. *)
Definition entry_at (entries : list image_entry_t) (i : Z) : outcome image_entry_t :=
  if i <? 0 then Undefined
  else match entries !! Z.to_nat i with
       | Some e => Ok e
       | None => Undefined
       end.


(** The table of [db_recognize] as it is initialised. *)
Definition rec_table db : list (rec_params_t T) :=
  map (fun '(flag, W, Pm, d) =>
         {| enabled := flag; W_tr := W; P := Pm; dist_func := d;
            rec_index := 0; num_correct := 0 |})
      (algorithms db).

(** The two inner loops of [db_recognize], at one algorithm. *)
Definition recognize_one (T_i : matrix_t T) (params : rec_params_t T)
  : outcome (rec_params_t T) :=
  if truth (enabled params)
  then let* W := deref (W_tr params) in
       let* P_test := m_product W T_i in
       let* Pm := deref (P params) in
       let* r := nearest_neighbor Pm P_test (dist_func params) in
       Ok {| enabled := enabled params; W_tr := W_tr params; P := P params;
             dist_func := dist_func params;
             rec_index := r; num_correct := num_correct params |}
  else Ok params.

Definition count_one db (image_name : list byte) (params : rec_params_t T)
  : outcome (rec_params_t T) :=
  if truth (enabled params)
  then let* e := entry_at (entries db) (rec_index params) in
       let rec_name := name e in
       if is_same_class rec_name image_name
       then Ok {| enabled := enabled params; W_tr := W_tr params; P := P params;
                  dist_func := dist_func params;
                  rec_index := rec_index params;
                  num_correct := num_correct params + 1 |}
       else Ok params
  else Ok params.

(** [db_recognize]. *)
Definition db_recognize db (image_names : list (list byte)) : outcome (list Z) :=
  let algorithms := rec_table db in
  let num_test_images := Z.of_nat (length image_names) in
  let T_i := m_initialize (num_dimensions db) 1 in
  let* (algorithms, T_i) :=
    for_loop 0 num_test_images (fun i '(algorithms, T_i) =>
      let* image_name := match image_names !! Z.to_nat i with
                         | Some n => Ok n
                         | None => Undefined
                         end in
      let image := image_read image_name in
      let* T_i := m_image_read T_i 0 image in
      let* mean := deref (mean_face db) in
      let* T_i := m_subtract T_i mean in
      let* algorithms := for_each (recognize_one T_i) algorithms in
      let* algorithms := for_each (count_one db image_name) algorithms in
      Ok (algorithms, T_i)) (algorithms, T_i) in
  Ok (map num_correct (List.filter (fun params => truth (enabled params)) algorithms)).

End Images.

(** *** What recognition relies on *)

Section Recognizable.
Context {T : Type} `{Precision T}.
Implicit Types (db : database_t T).

(** A distance function that returns on the columns of well-formed matrices
    with the same number of rows. *)
Definition dist_total (d : dist_func_t T) : Prop :=
  forall (P_test Pm : matrix_t T) (j : Z),
    wf_matrix P_test -> wf_matrix Pm -> rows P_test = rows Pm -> 0 <= j < cols Pm ->
    exists v, d P_test 0 Pm j = Ok v.

(** The transposed basis [W] and the projection [Pm] of an algorithm fit a
    database of [n] images of [d] pixels: [W] takes an image of [d] pixels to
    the space the [n] columns of [Pm] lie in. *)
Definition fits (d n : Z) (W Pm : option (matrix_t T)) : Prop :=
  exists Wv Pv, W = Some Wv /\ Pm = Some Pv /\
    wf_matrix Wv /\ wf_matrix Pv /\
    cols Wv = d /\ rows Pv = rows Wv /\ cols Pv = n.

(** A database that [db_recognize] can be run on: at least one image, the
    entries of all of them, the mean face a column of [num_dimensions]
    elements, and for each enabled algorithm a basis and a projection that
    fit. *)
Definition recognizable db : Prop :=
  1 <= num_images db <= Z.of_nat (length (entries db)) /\
  (exists m, mean_face db = Some m /\ wf_matrix m /\
             rows m = num_dimensions db /\ cols m = 1) /\
  (truth (pca db) = true ->
     fits (num_dimensions db) (num_images db) (W_pca_tr db) (P_pca db)) /\
  (truth (lda db) = true ->
     fits (num_dimensions db) (num_images db) (W_lda_tr db) (P_lda db)) /\
  (truth (ica db) = true ->
     fits (num_dimensions db) (num_images db) (W_ica_tr db) (P_ica db)).

(** A row of the table of [db_recognize] after [i] test images: if enabled, a
    basis and a projection that fit and a distance that returns; the index
    of the last match is that of an image of the database, and the matches
    counted are at most [i]. *)
Definition params_ok db (i : Z) (params : rec_params_t T) : Prop :=
  (truth (enabled params) = true ->
     fits (num_dimensions db) (num_images db) (W_tr params) (P params) /\
     dist_total (dist_func params)) /\
  0 <= rec_index params < num_images db /\
  0 <= num_correct params <= i.

(** An image of [d] pixels. *)
Definition image_of_size (d : Z) (image : image_t) : Prop :=
  channels image * height image * width image = d /\
  Z.of_nat (length (pixels image)) = d.

End Recognizable.

End Database.

(** ** [identity.cpp] *)

(** Modelled from the spec: [identity.cpp] calls [m_copy] with a name before
    the matrix, a signature that the revisions of [matrix.c] among the sources
    do not have. The specification describes [copy] as a deep copy; the named
    call is taken to copy as [m_copy] does, the name being a label. *)
Definition m_copy_named {T : Type} (label : list byte) (M : matrix_t T)
  : outcome (matrix_t T) :=
  m_copy M.

(** ** Pointers

    Where a property speaks of a matrix being new or of another being left as
    it was, matrices are read through pointers into a heap: [malloc] returns
    an address that is not in use, and what a function does not write it does
    not touch. *)

Definition ptr : Type := nat.

(** The heap, by address; a freed block is [None]. *)
Abbreviation heap T := (list (option (matrix_t T))) (only parsing).

Section Heap.
Context {T : Type}.
Implicit Types (h : heap T).

Definition heap_get h (p : ptr) : outcome (matrix_t T) :=
  match h !! p with
  | Some (Some M) => Ok M
  | _ => Undefined
  end.

(** The address [malloc] returns, and the heap with the new block. *)
Definition heap_alloc h (M : matrix_t T) : ptr * heap T :=
  (length h, h ++ [Some M]).

(** [m_copy_columns], [m_copy] and the named [m_copy] on pointers: the matrix
    read through [M], the copy built, its block allocated. *)
Definition m_copy_columns_ptr h (M : ptr) (begin end_ : Z) : outcome (ptr * heap T) :=
  let* Mv := heap_get h M in
  let* C := m_copy_columns Mv begin end_ in
  Ok (heap_alloc h C).

Definition m_copy_ptr h (M : ptr) : outcome (ptr * heap T) :=
  let* Mv := heap_get h M in
  let* C := m_copy Mv in
  Ok (heap_alloc h C).

Definition m_copy_named_ptr (label : list byte) h (M : ptr) : outcome (ptr * heap T) :=
  let* Mv := heap_get h M in
  let* C := m_copy_named label Mv in
  Ok (heap_alloc h C).

End Heap.

Module IdentityLayer.
Section Defs.
Context {T E : Type}.
Implicit Types (h : heap T).

(** [IdentityLayer::compute]: [return NULL], the null pointer being [None].
    The element type of [y], [data_entry_t], is not declared in the sources. *)
Definition compute (X : ptr) (y : list E) (c : Z) : option ptr := None.

(** [IdentityLayer::project]: [return m_copy("P", X)], the label being the
    string "P". *)
Definition project h (X : ptr) : outcome (ptr * heap T) :=
  m_copy_named_ptr [x50] h X.

End Defs.
End IdentityLayer.

(** ** Test data of [test_matrix.c] *)

(** The matrix of the copy test, [[16,2,3,13],[5,11,10,8],[9,7,6,12],[4,14,15,1]],
    and its columns 1 and 2. *)
Definition magic4 {T : Type} `{Precision T} : list (list T) :=
  map (map p_of_int) [[16; 2; 3; 13]; [5; 11; 10; 8]; [9; 7; 6; 12]; [4; 14; 15; 1]].

Definition magic4_cols12 {T : Type} `{Precision T} : list (list T) :=
  map (map p_of_int) [[2; 3]; [11; 10]; [7; 6]; [14; 15]].


(** The query and the projection matrix that show the sentinel of
    [nearest_neighbor]: one row, the query [1], the columns [1] and [-1]. *)
Definition sentinel_query : matrix_t float :=
  {| rows := 1; cols := 1; data := [Some 1%float] |}.

Definition sentinel_projection : matrix_t float :=
  {| rows := 1; cols := 2; data := [Some 1%float; Some (-1)%float] |}.


(** ** Exact arithmetic: notions used to state the numerical properties *)

(** The entry [(i, j)] of a real matrix (zero where the cell holds nothing). *)
Definition entry (M : matrix_t R) (i j : Z) : R :=
  match elem M i j with
  | Ok v => v
  | _ => 0%R
  end.

(** [f 0 + ... + f (n-1)] over the reals. *)
Definition Rsum (f : Z -> R) (n : Z) : R := p_sum f n.

(** The mean of row [i] and the mean of column [j] of [M]. *)
Definition row_mean (M : matrix_t R) (i : Z) : R :=
  (Rsum (fun k => entry M i k) (cols M) / IZR (cols M))%R.



(** The squared distance between column 0 of [P_test] and column [k] of [P],
    over the reals. *)
Definition squared_distance (P P_test : matrix_t R) (k : Z) : R :=
  Rsum (fun t => ((entry P_test t 0 - entry P t k) * (entry P_test t 0 - entry P t k))%R)
       (rows P).

(** The indices [0, ..., n - 1]. *)
Definition indices (n : Z) : list Z := map Z.of_nat (seq 0 (Z.to_nat n)).

(** The rows, counted from 1, of the cells of [M] that do not hold zero, taken
    row by row: those of the cell [(i, j)], those of the cells before
    [(i, j)], and those of all the cells. *)
Definition nonzero_row_of {T : Type} `{Precision T} (M : matrix_t T) (i j : Z) : list Z :=
  match elem M i j with
  | Ok v => if negb (p_eqb v (p_of_int 0)) then [i + 1] else []
  | _ => []
  end.

Definition nonzero_rows_upto {T : Type} `{Precision T} (M : matrix_t T) (i j : Z) : list Z :=
  flat_map (fun a => flat_map (nonzero_row_of M a) (indices (cols M))) (indices i)
  ++ flat_map (nonzero_row_of M i) (indices j).

Definition nonzero_rows {T : Type} `{Precision T} (M : matrix_t T) : list Z :=
  nonzero_rows_upto M (rows M) 0.





(** ** Sample inputs *)

(** One row, two columns: the observations 1 and 3 of one variable when the
    columns are the observations, one observation of two variables when the
    rows are. *)
Definition two_observations : matrix_t R :=
  {| rows := 1; cols := 2; data := [Some 1%R; Some 3%R] |}.

(** A 2x2 matrix of doubles, [[1, 3], [2, 4]]. *)
Definition small_doubles : matrix_t float :=
  {| rows := 2; cols := 2; data := [Some 1%float; Some 2%float; Some 3%float; Some 4%float] |}.



(** The doubles 1.0 and -2.0 as stored, and a database trained for PCA alone
    on one image: a mean face of two pixels, a basis of one vector, one
    projected image. *)
Definition stored_one : binary64 := of_bytes [x00; x00; x00; x00; x00; x00; xf0; x3f].

Definition stored_minus_two : binary64 := of_bytes [x00; x00; x00; x00; x00; x00; x00; xc0].

Definition pca_database : Database.database_t binary64 := {|
  Database.pca := 1; Database.lda := 0; Database.ica := 0;
  Database.num_images := 1; Database.num_classes := 1; Database.num_dimensions := 2;
  Database.entries := [ {| Database.ent_class := 1; Database.name := [x61] |} ];
  Database.mean_face :=
    Some {| rows := 2; cols := 1; data := [Some stored_one; Some stored_minus_two] |};
  Database.W_pca_tr :=
    Some {| rows := 1; cols := 2; data := [Some stored_one; Some stored_one] |};
  Database.P_pca := Some {| rows := 1; cols := 1; data := [Some stored_minus_two] |};
  Database.W_lda_tr := None; Database.P_lda := None;
  Database.W_ica_tr := None; Database.P_ica := None
|}.

(** A stand-in for the formatted output and input of the manifest: the class
    as one byte, then the name, then a newline; read back up to the newline. *)
Definition print_entry (e : Database.image_entry_t) : list byte :=
  byte_of_Z (Database.ent_class e) :: Database.name e ++ [x0a].

Fixpoint scan_name (s : stream) : list byte * stream :=
  match s with
  | [] => ([], [])
  | b :: rest =>
      if Byte.eqb b x0a then ([], rest)
      else let '(n, rest') := scan_name rest in (b :: n, rest')
  end.

Definition scan_entry (s : stream) : Database.image_entry_t * stream :=
  match s with
  | [] => ({| Database.ent_class := 0; Database.name := [] |}, [])
  | b :: rest =>
      let '(n, rest') := scan_name rest in
      ({| Database.ent_class := Z_of_byte b; Database.name := n |}, rest')
  end.

(** The database [pca_database] with an image whose file name has 64 bytes. *)
Definition long_name : list byte := repeat x61 64.

Definition long_name_database : Database.database_t binary64 := {|
  Database.pca := 1; Database.lda := 0; Database.ica := 0;
  Database.num_images := 1; Database.num_classes := 1; Database.num_dimensions := 2;
  Database.entries := [ {| Database.ent_class := 1; Database.name := long_name |} ];
  Database.mean_face :=
    Some {| rows := 2; cols := 1; data := [Some stored_one; Some stored_minus_two] |};
  Database.W_pca_tr :=
    Some {| rows := 1; cols := 2; data := [Some stored_one; Some stored_one] |};
  Database.P_pca := Some {| rows := 1; cols := 1; data := [Some stored_minus_two] |};
  Database.W_lda_tr := None; Database.P_lda := None;
  Database.W_ica_tr := None; Database.P_ica := None
|}.

(** A database trained with no algorithm enabled: the mean face alone. *)
Definition bare_database : Database.database_t binary64 := {|
  Database.pca := 0; Database.lda := 0; Database.ica := 0;
  Database.num_images := 1; Database.num_classes := 1; Database.num_dimensions := 2;
  Database.entries := [ {| Database.ent_class := 1; Database.name := [x61] |} ];
  Database.mean_face :=
    Some {| rows := 2; cols := 1; data := [Some stored_one; Some stored_minus_two] |};
  Database.W_pca_tr := None; Database.P_pca := None;
  Database.W_lda_tr := None; Database.P_lda := None;
  Database.W_ica_tr := None; Database.P_ica := None
|}.

(** A database of doubles trained for PCA alone on one image of two pixels,
    and an image of two pixels. *)
Definition face_database : Database.database_t float := {|
  Database.pca := 1; Database.lda := 0; Database.ica := 0;
  Database.num_images := 1; Database.num_classes := 1; Database.num_dimensions := 2;
  Database.entries := [ {| Database.ent_class := 1; Database.name := [x61] |} ];
  Database.mean_face := Some {| rows := 2; cols := 1; data := [Some 1%float; Some 2%float] |};
  Database.W_pca_tr := Some {| rows := 1; cols := 2; data := [Some 1%float; Some 1%float] |};
  Database.P_pca := Some {| rows := 1; cols := 1; data := [Some 3%float] |};
  Database.W_lda_tr := None; Database.P_lda := None;
  Database.W_ica_tr := None; Database.P_ica := None
|}.

Definition two_pixels : image_t :=
  {| channels := 1; height := 2; width := 1; pixels := [0; 255] |}.

(** * Properties *)

(** ** Loop rules *)

Section LoopRules.
Context {St : Type}.
Implicit Types (body : Z -> St -> outcome St) (s : St).

Lemma bind_Ok {A B : Type} (a : A) (k : A -> outcome B) : bind (Ok a) k = k a.
Proof. reflexivity. Qed.

Lemma bind_Ok_inv {A B : Type} (m : outcome A) (k : A -> outcome B) (b : B) :
  bind m k = Ok b -> exists a, m = Ok a /\ k a = Ok b.
Proof. destruct m; simpl; intros H; try discriminate. eauto. Qed.

Lemma for_from_S body i n s :
  for_from body i (S n) s = let* s' := body i s in for_from body (i + 1) n s'.
Proof. reflexivity. Qed.

Lemma for_from_snoc body i n s :
  for_from body i (S n) s =
  let* s' := for_from body i n s in body (i + Z.of_nat n) s'.
Proof.
  revert i s. induction n as [|n IH]; intros i s.
  - cbn [for_from bind]. rewrite Z.add_0_r. destruct (body i s); reflexivity.
  - rewrite (for_from_S body i (S n)), (for_from_S body i n).
    destruct (body i s) as [s1| |]; cbn [bind]; [|reflexivity|reflexivity].
    rewrite IH. replace (i + 1 + Z.of_nat n) with (i + Z.of_nat (S n)) by lia.
    reflexivity.
Qed.

Lemma for_loop_nil lo hi body s : hi <= lo -> for_loop lo hi body s = Ok s.
Proof.
  intros H. unfold for_loop. replace (Z.to_nat (hi - lo)) with O by lia. reflexivity.
Qed.

Lemma for_loop_snoc lo hi body s :
  lo <= hi ->
  for_loop lo (hi + 1) body s = let* s' := for_loop lo hi body s in body hi s'.
Proof.
  intros H. unfold for_loop.
  replace (Z.to_nat (hi + 1 - lo)) with (S (Z.to_nat (hi - lo))) by lia.
  rewrite for_from_snoc. replace (lo + Z.of_nat (Z.to_nat (hi - lo))) with hi by lia.
  reflexivity.
Qed.

(** The invariant rule: an invariant that holds on entry and is re-established
    by every iteration, each of which returns, holds when the loop ends, and
    the loop returns. *)
Lemma for_loop_inv (Inv : Z -> St -> Prop) lo hi body s :
  lo <= hi ->
  Inv lo s ->
  (forall i t, lo <= i < hi -> Inv i t -> exists t', body i t = Ok t' /\ Inv (i + 1) t') ->
  exists s', for_loop lo hi body s = Ok s' /\ Inv hi s'.
Proof.
  intros Hle H0 Hstep.
  assert (Hgen : forall n : nat, lo + Z.of_nat n <= hi ->
            exists s', for_loop lo (lo + Z.of_nat n) body s = Ok s' /\
                       Inv (lo + Z.of_nat n) s').
  { induction n as [|n IH]; intros Hn.
    - rewrite Z.add_0_r. exists s. split; [apply for_loop_nil; lia | exact H0].
    - destruct IH as (s1 & E1 & I1); [lia|].
      destruct (Hstep (lo + Z.of_nat n) s1) as (s2 & E2 & I2); [lia | exact I1 |].
      exists s2. replace (lo + Z.of_nat (S n)) with (lo + Z.of_nat n + 1) by lia.
      split; [|exact I2]. rewrite for_loop_snoc by lia. rewrite E1. exact E2. }
  destruct (Hgen (Z.to_nat (hi - lo))) as (s' & E & I); [lia|].
  replace (lo + Z.of_nat (Z.to_nat (hi - lo))) with hi in * by lia. eauto.
Qed.

End LoopRules.

(** An accumulation loop whose every term is defined returns the sum of the
    terms. *)
Lemma for_loop_sum {T : Type} (zero : T) (add : T -> T -> T)
    (term : Z -> outcome T) (f : Z -> T) (n : Z) :
  0 <= n ->
  (forall k, 0 <= k < n -> term k = Ok (f k)) ->
  for_loop 0 n (fun k acc => let* x := term k in Ok (add acc x)) zero
  = Ok (big_sum zero add f (Z.to_nat n)).
Proof.
  intros Hn Hterm.
  destruct (for_loop_inv (fun i acc => acc = big_sum zero add f (Z.to_nat i)) 0 n
              (fun k acc => let* x := term k in Ok (add acc x)) zero)
    as (s' & E & I); [lia | reflexivity | | rewrite E; congruence].
  intros i t Hi ->. rewrite (Hterm i Hi). simpl. eexists; split; [reflexivity|].
  replace (Z.to_nat (i + 1)) with (S (Z.to_nat i)) by lia. simpl.
  rewrite Z2Nat.id by lia. reflexivity.
Qed.

Lemma for_loop_ext {St : Type} (lo hi : Z) (body body' : Z -> St -> outcome St) (s : St) :
  (forall i t, lo <= i < hi -> body i t = body' i t) ->
  for_loop lo hi body s = for_loop lo hi body' s.
Proof.
  unfold for_loop. intros H.
  assert (G : forall (n : nat) (i : Z) (t : St), lo <= i -> i + Z.of_nat n <= hi ->
            for_from body i n t = for_from body' i n t).
  { induction n as [|n IH]; intros i t Hi Hn; [reflexivity|].
    rewrite !for_from_S, H by lia. destruct (body' i t); cbn [bind]; [|reflexivity..].
    apply IH; lia. }
  destruct (Z_le_gt_dec lo hi).
  - apply G; lia.
  - replace (Z.to_nat (hi - lo)) with O by lia. reflexivity.
Qed.

(** ** Loops that fill or update cells

    Most loops of the matrix library visit every cell of a matrix once and
    assign it. The rules below are stated for any store with a read and a
    write ([get], [set]) over keys, so that they serve both the matrices
    (keys are pairs [(i, j)]) and raw buffers (keys are offsets). *)

Section CellLoops.
Context {St K T : Type}.
Variables (get : St -> K -> outcome T) (set : St -> K -> T -> outcome St).
Variables (ok : St -> Prop) (valid : K -> Prop).
Hypothesis set_spec : forall s k v, ok s -> valid k ->
  exists s', set s k v = Ok s' /\ ok s' /\ get s' k = Ok v /\
             (forall k', valid k' -> k' <> k -> get s' k' = get s k').

Lemma for_cells (n : Z) (key : Z -> K) (body : Z -> St -> outcome St) (v : Z -> T) (s0 : St) :
  0 <= n -> ok s0 ->
  (forall a, 0 <= a < n -> valid (key a)) ->
  (forall a a', 0 <= a < n -> 0 <= a' < n -> key a = key a' -> a = a') ->
  (forall a s, 0 <= a < n -> ok s -> get s (key a) = get s0 (key a) ->
               body a s = set s (key a) (v a)) ->
  exists s', for_loop 0 n body s0 = Ok s' /\ ok s' /\
    (forall a, 0 <= a < n -> get s' (key a) = Ok (v a)) /\
    (forall k, valid k -> (forall a, 0 <= a < n -> key a <> k) -> get s' k = get s0 k).
Proof.
  intros Hn Hok Hvalid Hinj Hbody.
  destruct (for_loop_inv (fun i s => ok s /\
              (forall a, 0 <= a < i -> get s (key a) = Ok (v a)) /\
              (forall k, valid k -> (forall a, 0 <= a < i -> key a <> k) -> get s k = get s0 k))
              0 n body s0) as (s' & E & I); [lia | | | exists s'; tauto].
  - split; [exact Hok|]. split; [intros a Ha; lia | reflexivity].
  - intros i s Hi (Ok_s & Hdone & Hrest).
    destruct (set_spec s (key i) (v i) Ok_s (Hvalid i Hi)) as (s1 & E1 & Ok1 & G1 & N1).
    exists s1. split.
    + rewrite Hbody; [exact E1 | exact Hi | exact Ok_s |].
      apply Hrest; [apply Hvalid; exact Hi|]. intros a Ha Hk. apply Hinj in Hk; lia.
    + split; [exact Ok1|]. split.
      * intros a Ha. destruct (Z.eq_dec a i) as [->|Hne]; [exact G1|].
        rewrite N1; [apply Hdone; lia | apply Hvalid; lia |].
        intros Hk. apply Hinj in Hk; lia.
      * intros k Hk Hout. rewrite N1; [apply Hrest | exact Hk |].
        -- exact Hk.
        -- intros a Ha. apply Hout. lia.
        -- intros Heq. apply (Hout i); [lia | congruence].
Qed.

Lemma for_cells2 (n m : Z) (key : Z -> Z -> K) (outer : Z -> St -> outcome St)
    (body : Z -> Z -> St -> outcome St) (v : Z -> Z -> T) (s0 : St) :
  0 <= n -> 0 <= m -> ok s0 ->
  (forall a b, 0 <= a < n -> 0 <= b < m -> valid (key a b)) ->
  (forall a b a' b', 0 <= a < n -> 0 <= b < m -> 0 <= a' < n -> 0 <= b' < m ->
       key a b = key a' b' -> a = a' /\ b = b') ->
  (forall a s, 0 <= a < n -> ok s -> outer a s = for_loop 0 m (body a) s) ->
  (forall a b s, 0 <= a < n -> 0 <= b < m -> ok s -> get s (key a b) = get s0 (key a b) ->
       body a b s = set s (key a b) (v a b)) ->
  exists s', for_loop 0 n outer s0 = Ok s' /\ ok s' /\
    (forall a b, 0 <= a < n -> 0 <= b < m -> get s' (key a b) = Ok (v a b)) /\
    (forall k, valid k -> (forall a b, 0 <= a < n -> 0 <= b < m -> key a b <> k) ->
               get s' k = get s0 k).
Proof.
  intros Hn Hm Hok Hvalid Hinj Houter Hbody.
  destruct (for_loop_inv (fun i s => ok s /\
              (forall a b, 0 <= a < i -> 0 <= b < m -> get s (key a b) = Ok (v a b)) /\
              (forall k, valid k -> (forall a b, 0 <= a < i -> 0 <= b < m -> key a b <> k) ->
                         get s k = get s0 k))
              0 n outer s0) as (s' & E & I);
    [lia | | | exists s'; tauto].
  - split; [exact Hok|]. split; [intros a b Ha; lia | reflexivity].
  - intros i s Hi (Ok_s & Hdone & Hrest).
    assert (Hfresh : forall b, 0 <= b < m -> get s (key i b) = get s0 (key i b)).
    { intros b Hb. apply Hrest; [apply Hvalid; lia|].
      intros a b' Ha Hb' Hk. apply Hinj in Hk; lia. }
    rewrite (Houter i s Hi Ok_s).
    destruct (for_cells m (key i) (body i) (v i) s) as (s1 & E1 & Ok1 & G1 & N1);
      [lia | exact Ok_s | intros; apply Hvalid; lia | | |].
    + intros b b' Hb Hb' Hk. apply Hinj in Hk; lia.
    + intros b t Hb Ok_t Ht. apply Hbody; [lia | lia | exact Ok_t |].
      rewrite Ht. apply Hfresh. exact Hb.
    + exists s1. split; [exact E1|]. split; [exact Ok1|]. split.
      * intros a b Ha Hb. destruct (Z.eq_dec a i) as [->|Hne]; [apply G1; exact Hb|].
        rewrite N1; [apply Hdone; lia | apply Hvalid; lia |].
        intros b' Hb' Hk. apply Hinj in Hk; lia.
      * intros k Hk Hout. rewrite N1; [apply Hrest | exact Hk |].
        -- exact Hk.
        -- intros a b Ha Hb. apply Hout; lia.
        -- intros b Hb. apply Hout; lia.
Qed.

End CellLoops.

(** ** Well-formed matrices and the cell laws *)

Section CellFacts.
Context {T : Type}.
Implicit Types (buf : list (option T)) (M : matrix_t T).

Lemma load_Ok buf k v :
  0 <= k -> buf !! Z.to_nat k = Some (Some v) -> load buf k = Ok v.
Proof.
  intros Hk E. unfold load. destruct (Z.ltb_spec k 0); [lia|]. rewrite E. reflexivity.
Qed.

Lemma load_Ok_inv buf k v :
  load buf k = Ok v -> 0 <= k /\ buf !! Z.to_nat k = Some (Some v).
Proof.
  unfold load. destruct (Z.ltb_spec k 0); [discriminate|].
  destruct (buf !! Z.to_nat k) as [[x|]|]; intros E; try discriminate.
  split; [lia | congruence].
Qed.

Lemma store_Ok buf k v :
  0 <= k < Z.of_nat (length buf) ->
  store buf k v = Ok (<[Z.to_nat k := Some v]> buf).
Proof.
  intros Hk. unfold store.
  destruct (Z.leb_spec 0 k); [|lia]. destruct (Z.ltb_spec k (Z.of_nat (length buf))); [|lia].
  reflexivity.
Qed.

Lemma load_insert_eq buf k v :
  0 <= k < Z.of_nat (length buf) -> load (<[Z.to_nat k := Some v]> buf) k = Ok v.
Proof.
  intros Hk. apply load_Ok; [lia|]. apply list_lookup_insert_eq. lia.
Qed.

Lemma load_insert_ne buf k k' v :
  0 <= k -> k' <> k -> load (<[Z.to_nat k := Some v]> buf) k' = load buf k'.
Proof.
  intros Hk Hne. unfold load. destruct (Z.ltb_spec k' 0); [reflexivity|].
  rewrite list_lookup_insert_ne by lia. reflexivity.
Qed.

(** A buffer of [len] cells is a store in the sense of [CellLoops]. *)
Lemma buffer_set_spec (len : Z) buf k v :
  Z.of_nat (length buf) = len -> 0 <= k < len ->
  exists buf', store buf k v = Ok buf' /\ Z.of_nat (length buf') = len /\
               load buf' k = Ok v /\
               (forall k', 0 <= k' < len -> k' <> k -> load buf' k' = load buf k').
Proof.
  intros Hlen Hk. exists (<[Z.to_nat k := Some v]> buf).
  split; [apply store_Ok; lia|]. split; [rewrite length_insert; exact Hlen|].
  split; [apply load_insert_eq; lia|]. intros k' _ Hne. apply load_insert_ne; [lia | exact Hne].
Qed.

Lemma elem_index_range (r c i j : Z) :
  0 <= i < r -> 0 <= j < c -> 0 <= i + j * r < r * c.
Proof. intros Hi Hj. nia. Qed.

Lemma elem_index_inj (r i j i' j' : Z) :
  0 <= i < r -> 0 <= i' < r -> i + j * r = i' + j' * r -> i = i' /\ j = j'.
Proof. intros Hi Hi' E. assert (j = j') by nia. subst. lia. Qed.

(** A matrix of shape [r x c] is a store over the pairs [(i, j)] in range. *)
Lemma matrix_set_spec (r c : Z) M (k : Z * Z) (v : T) :
  shaped r c M -> in_range r c k ->
  exists M', set_elem M (fst k) (snd k) v = Ok M' /\ shaped r c M' /\
             elem M' (fst k) (snd k) = Ok v /\
             (forall k', in_range r c k' -> k' <> k ->
                         elem M' (fst k') (snd k') = elem M (fst k') (snd k')).
Proof.
  intros (Hr & Hc & Hlen) [Hi Hj]. destruct k as [i j]. simpl in *.
  pose proof (elem_index_range r c i j Hi Hj) as Hidx.
  destruct (buffer_set_spec (r * c) (data M) (i + j * r) v Hlen Hidx)
    as (d & E & Hlen' & G & N).
  exists (with_data M d). unfold set_elem, elem, elem_index. rewrite Hr, E. simpl.
  split; [reflexivity|]. split; [split; [exact Hr | split; [exact Hc | exact Hlen']]|].
  rewrite Hr. split; [exact G|].
  intros [i' j'] [Hi' Hj'] Hne. simpl in *. apply N.
  - apply elem_index_range; assumption.
  - intros E'. apply elem_index_inj in E'; [|lia..]. destruct E'; congruence.
Qed.

Lemma wf_shaped M : wf_matrix M -> shaped (rows M) (cols M) M.
Proof. intros (_ & _ & Hlen & _). split; [reflexivity | split; [reflexivity | exact Hlen]]. Qed.

Lemma wf_initialised M : wf_matrix M -> initialised M.
Proof.
  intros (Hr & Hc & Hlen & Hall) i j Hi Hj.
  pose proof (elem_index_range _ _ i j Hi Hj) as Hidx.
  destruct (lookup_lt_is_Some_2 (data M) (Z.to_nat (i + j * rows M))) as [cell Hcell]; [lia|].
  rewrite Forall_lookup in Hall. destruct (Hall _ _ Hcell) as [v ->].
  exists v. unfold elem, elem_index. apply load_Ok; [lia | exact Hcell].
Qed.

(** A shape whose every cell in range holds a value has a buffer of values. *)
Lemma initialised_all M :
  0 < rows M -> Z.of_nat (length (data M)) = rows M * cols M ->
  initialised M -> Forall is_Some (data M).
Proof.
  intros Hr Hlen Hinit. apply Forall_lookup. intros n cell Hn.
  pose proof (lookup_lt_Some _ _ _ Hn) as Hlt.
  set (k := Z.of_nat n).
  assert (Hk : 0 <= k < rows M * cols M) by lia.
  assert (Hj : 0 <= k / rows M < cols M).
  { split; [apply Z.div_pos; lia|]. apply Z.div_lt_upper_bound; lia. }
  destruct (Hinit (k mod rows M) (k / rows M)) as [v Hv];
    [apply Z.mod_pos_bound; lia | exact Hj |].
  apply load_Ok_inv in Hv. destruct Hv as [_ Hv].
  unfold elem_index in Hv.
  replace (k mod rows M + k / rows M * rows M) with k in Hv
    by (rewrite (Z.div_mod k (rows M)) at 1; lia).
  unfold k in Hv. rewrite Nat2Z.id in Hv. rewrite Hn in Hv. injection Hv as ->. eauto.
Qed.

Lemma wf_intro M :
  0 < rows M -> 0 < cols M -> Z.of_nat (length (data M)) = rows M * cols M ->
  initialised M -> wf_matrix M.
Proof. intros. repeat split; auto using initialised_all. Qed.

Lemma wf_elem_fun M :
  wf_matrix M ->
  exists f : Z -> Z -> T,
    forall i j, 0 <= i < rows M -> 0 <= j < cols M -> elem M i j = Ok (f i j).
Proof.
  intros Hwf. pose proof (wf_initialised M Hwf) as Hinit.
  destruct Hwf as (Hr & Hc & _).
  destruct (Hinit 0 0) as [d Hd]; [lia | lia |].
  exists (fun i j => match elem M i j with Ok v => v | _ => d end).
  intros i j Hi Hj. destruct (Hinit i j Hi Hj) as [v ->]. reflexivity.
Qed.

Lemma shaped_initialize (r c : Z) : 0 <= r * c -> shaped r c (@m_initialize T r c).
Proof.
  intros H. split; [reflexivity|]. split; [reflexivity|].
  simpl. rewrite length_replicate. lia.
Qed.

End CellFacts.

(** The cell-loop rules at matrices. *)

Section MatrixLoops.
Context {T : Type}.
Implicit Types (M : matrix_t T).

Lemma matrix_for_cells (r c n : Z) (row col : Z -> Z)
    (body : Z -> matrix_t T -> outcome (matrix_t T)) (v : Z -> T) M0 :
  0 <= n -> shaped r c M0 ->
  (forall a, 0 <= a < n -> 0 <= row a < r /\ 0 <= col a < c) ->
  (forall a a', 0 <= a < n -> 0 <= a' < n -> row a = row a' -> col a = col a' -> a = a') ->
  (forall a M, 0 <= a < n -> shaped r c M ->
       elem M (row a) (col a) = elem M0 (row a) (col a) ->
       body a M = set_elem M (row a) (col a) (v a)) ->
  exists M', for_loop 0 n body M0 = Ok M' /\ shaped r c M' /\
    (forall a, 0 <= a < n -> elem M' (row a) (col a) = Ok (v a)) /\
    (forall i j, 0 <= i < r -> 0 <= j < c ->
       (forall a, 0 <= a < n -> ~ (row a = i /\ col a = j)) -> elem M' i j = elem M0 i j).
Proof.
  intros Hn Hsh Hrange Hinj Hbody.
  destruct (for_cells (fun M k => elem M (fst k) (snd k))
              (fun M k x => set_elem M (fst k) (snd k) x)
              (shaped r c) (in_range r c)
              (fun M k x HM Hk => matrix_set_spec r c M k x HM Hk)
              n (fun a => (row a, col a)) body v M0)
    as (M' & E & Hsh' & G & N); try assumption.
  - intros a a' Ha Ha' Hk. injection Hk. intros. apply Hinj; assumption.
  - exists M'. split; [exact E|]. split; [exact Hsh'|]. split; [exact G|].
    intros i j Hi Hj Hout. apply (N (i, j)); [split; assumption|].
    intros a Ha Hk. injection Hk. intros. apply (Hout a Ha). split; assumption.
Qed.

Lemma matrix_for_cells2 (r c n m : Z) (row col : Z -> Z -> Z)
    (outer : Z -> matrix_t T -> outcome (matrix_t T))
    (body : Z -> Z -> matrix_t T -> outcome (matrix_t T)) (v : Z -> Z -> T) M0 :
  0 <= n -> 0 <= m -> shaped r c M0 ->
  (forall a b, 0 <= a < n -> 0 <= b < m -> 0 <= row a b < r /\ 0 <= col a b < c) ->
  (forall a b a' b', 0 <= a < n -> 0 <= b < m -> 0 <= a' < n -> 0 <= b' < m ->
       row a b = row a' b' -> col a b = col a' b' -> a = a' /\ b = b') ->
  (forall a M, 0 <= a < n -> shaped r c M -> outer a M = for_loop 0 m (body a) M) ->
  (forall a b M, 0 <= a < n -> 0 <= b < m -> shaped r c M ->
       elem M (row a b) (col a b) = elem M0 (row a b) (col a b) ->
       body a b M = set_elem M (row a b) (col a b) (v a b)) ->
  exists M', for_loop 0 n outer M0 = Ok M' /\ shaped r c M' /\
    (forall a b, 0 <= a < n -> 0 <= b < m -> elem M' (row a b) (col a b) = Ok (v a b)) /\
    (forall i j, 0 <= i < r -> 0 <= j < c ->
       (forall a b, 0 <= a < n -> 0 <= b < m -> ~ (row a b = i /\ col a b = j)) ->
       elem M' i j = elem M0 i j).
Proof.
  intros Hn Hm Hsh Hrange Hinj Houter Hbody.
  destruct (for_cells2 (fun M k => elem M (fst k) (snd k))
              (fun M k x => set_elem M (fst k) (snd k) x)
              (shaped r c) (in_range r c)
              (fun M k x HM Hk => matrix_set_spec r c M k x HM Hk)
              n m (fun a b => (row a b, col a b)) outer body v M0)
    as (M' & E & Hsh' & G & N); try assumption.
  - intros a b a' b' Ha Hb Ha' Hb' Hk. injection Hk. intros. apply Hinj; assumption.
  - exists M'. split; [exact E|]. split; [exact Hsh'|]. split; [exact G|].
    intros i j Hi Hj Hout. apply (N (i, j)); [split; assumption|].
    intros a b Ha Hb Hk. injection Hk. intros. apply (Hout a b Ha Hb). split; assumption.
Qed.

End MatrixLoops.

(** ** Copies *)

Section CopyFacts.
Context {T : Type}.
Implicit Types (M C : matrix_t T) (h : heap T).

Lemma memcpy_fresh (src : list (option T)) (off n : Z) :
  0 <= off -> 0 <= n -> off + n <= Z.of_nat (length src) ->
  memcpy (replicate (Z.to_nat n) None) src off n
  = Ok (take (Z.to_nat n) (drop (Z.to_nat off) src)).
Proof.
  intros Hoff Hn Hlen. unfold memcpy. rewrite length_replicate.
  destruct (Z.leb_spec 0 off); [|lia]. destruct (Z.leb_spec 0 n); [|lia].
  destruct (Z.leb_spec (off + n) (Z.of_nat (length src))); [|lia].
  destruct (Z.leb_spec n (Z.of_nat (Z.to_nat n))); [|lia]. simpl.
  rewrite (drop_ge (replicate _ _)) by (rewrite length_replicate; lia).
  rewrite app_nil_r. reflexivity.
Qed.

Lemma m_copy_columns_Ok M (begin end_ : Z) :
  0 <= rows M -> Z.of_nat (length (data M)) = rows M * cols M ->
  0 <= begin -> begin < end_ -> end_ <= cols M ->
  m_copy_columns M begin end_
  = Ok {| rows := rows M; cols := end_ - begin;
          data := take (Z.to_nat (rows M * (end_ - begin)))
                       (drop (Z.to_nat (begin * rows M)) (data M)) |}.
Proof.
  intros Hr Hlen Hb Hbe He. unfold m_copy_columns.
  destruct (Z.leb_spec 0 begin); [|lia]. destruct (Z.ltb_spec begin end_); [|lia].
  destruct (Z.leb_spec end_ (cols M)); [|lia]. simpl.
  unfold elem_index. simpl. rewrite memcpy_fresh; [reflexivity | nia..].
Qed.

Lemma m_copy_columns_Abort M (begin end_ : Z) :
  ~ (0 <= begin /\ begin < end_ /\ end_ <= cols M) ->
  m_copy_columns M begin end_ = Abort.
Proof.
  intros Hn. unfold m_copy_columns.
  destruct (Z.leb_spec 0 begin); [|reflexivity].
  destruct (Z.ltb_spec begin end_); [|reflexivity].
  destruct (Z.leb_spec end_ (cols M)); [|reflexivity]. lia.
Qed.

Lemma m_copy_columns_elem M C (begin end_ i j : Z) :
  0 <= rows M -> Z.of_nat (length (data M)) = rows M * cols M ->
  0 <= begin -> begin < end_ -> end_ <= cols M ->
  m_copy_columns M begin end_ = Ok C ->
  0 <= i < rows M -> 0 <= j < end_ - begin ->
  elem C i j = elem M i (begin + j).
Proof.
  intros Hr Hlen Hb Hbe He E Hi Hj.
  rewrite m_copy_columns_Ok in E by assumption. injection E as <-.
  unfold elem, elem_index, load. simpl.
  destruct (Z.ltb_spec (i + j * rows M) 0); [nia|].
  destruct (Z.ltb_spec (i + (begin + j) * rows M) 0); [nia|].
  rewrite lookup_take_lt by nia. rewrite lookup_drop.
  rewrite <- Z2Nat.inj_add by nia.
  replace (begin * rows M + (i + j * rows M)) with (i + (begin + j) * rows M) by ring.
  reflexivity.
Qed.

(** A copy of all the columns is the matrix itself. *)
Lemma m_copy_Ok M :
  0 <= rows M -> 0 < cols M -> Z.of_nat (length (data M)) = rows M * cols M ->
  m_copy M = Ok M.
Proof.
  intros Hr Hc Hlen. unfold m_copy. rewrite m_copy_columns_Ok by lia.
  destruct M as [r c d]. simpl in *. f_equal. f_equal; [lia|].
  rewrite Z.mul_0_l, drop_0. apply take_ge. rewrite Z.sub_0_r. lia.
Qed.

Lemma heap_alloc_fresh h M :
  heap_get h (fst (heap_alloc h M)) = Undefined /\
  heap_get (snd (heap_alloc h M)) (fst (heap_alloc h M)) = Ok M /\
  (forall q, (q < length h)%nat -> snd (heap_alloc h M) !! q = h !! q).
Proof.
  unfold heap_alloc, heap_get. cbn [fst snd]. split; [|split].
  - rewrite lookup_ge_None_2 by lia. reflexivity.
  - rewrite lookup_app_r by lia. rewrite Nat.sub_diag. reflexivity.
  - intros q Hq. apply lookup_app_l. exact Hq.
Qed.

End CopyFacts.

(** ** Column copies (Matrix Core) *)

(** C8. [m_copy_columns(M, begin, end)] returns exactly when
    [0 <= begin < end <= M.cols]; it then returns a matrix of [M.rows] rows
    and [end - begin] columns with [C(i,j) = M(i, begin + j)], held in a block
    of its own that was not in use before, every block of the heap being left
    as it was; outside that range the assertion fails and nothing is returned.
    On the 4x4 matrix of the copy test, [m_copy] gives the same matrix and
    [m_copy_columns] with [begin = 1], [end = 3] the 4x2 matrix of columns 1
    and 2. *)
Theorem m_copy_columns_spec :
  (forall (T : Type) (M : matrix_t T) (begin end_ : Z),
     wf_matrix M ->
     ((exists C, m_copy_columns M begin end_ = Ok C)
        <-> (0 <= begin /\ begin < end_ /\ end_ <= cols M)) /\
     (~ (0 <= begin /\ begin < end_ /\ end_ <= cols M) ->
        m_copy_columns M begin end_ = Abort) /\
     (forall C, m_copy_columns M begin end_ = Ok C ->
        rows C = rows M /\ cols C = end_ - begin /\
        Z.of_nat (length (data C)) = rows C * cols C /\
        (forall i j, 0 <= i < rows M -> 0 <= j < end_ - begin ->
                     elem C i j = elem M i (begin + j)) /\
        (forall (h : heap T) (p : ptr), heap_get h p = Ok M ->
           exists q, m_copy_columns_ptr h p begin end_ = Ok (q, h ++ [Some C]) /\
                     heap_get h q = Undefined /\
                     heap_get (h ++ [Some C]) q = Ok C /\
                     (forall p', (p' < length h)%nat -> (h ++ [Some C]) !! p' = h !! p'))))
  /\
  (forall (T : Type) (prec : Precision T),
     exists A C2 : matrix_t T,
       m_initialize_data 4 4 magic4 = Ok A /\
       m_copy A = Ok A /\
       m_copy_columns A 1 3 = Ok C2 /\
       m_initialize_data 4 2 magic4_cols12 = Ok C2).
Proof.
  split.
  - intros T M begin end_ (Hr & Hc & Hlen & Hall).
    assert (Hiff : (exists C, m_copy_columns M begin end_ = Ok C)
                   <-> (0 <= begin /\ begin < end_ /\ end_ <= cols M)).
    { split.
      - intros [C E].
        destruct (Z_le_dec 0 begin); [|rewrite m_copy_columns_Abort in E by lia; discriminate].
        destruct (Z_lt_dec begin end_); [|rewrite m_copy_columns_Abort in E by lia; discriminate].
        destruct (Z_le_dec end_ (cols M));
          [|rewrite m_copy_columns_Abort in E by lia; discriminate].
        lia.
      - intros (Hb & Hbe & He). eexists. apply m_copy_columns_Ok; lia. }
    split; [exact Hiff|]. split; [apply m_copy_columns_Abort|].
    intros C E. assert (Hcond : 0 <= begin /\ begin < end_ /\ end_ <= cols M)
      by (apply Hiff; eauto).
    destruct Hcond as (Hb & Hbe & He).
    pose proof (m_copy_columns_elem M C begin end_) as Helem.
    pose proof E as E'. rewrite m_copy_columns_Ok in E' by lia. injection E' as HC.
    split; [rewrite <- HC; reflexivity|]. split; [rewrite <- HC; reflexivity|].
    split.
    { rewrite <- HC. simpl. rewrite length_take, length_drop. nia. }
    split; [intros i j Hi Hj; apply Helem; assumption || lia|].
    intros h p Hp. exists (length h). unfold m_copy_columns_ptr. rewrite Hp. cbn [bind].
    rewrite E. cbn [bind]. split; [reflexivity|].
    destruct (heap_alloc_fresh h C) as (F1 & F2 & F3). exact (conj F1 (conj F2 F3)).
  - intros T prec. eexists. eexists.
    split; [vm_compute; reflexivity|]. split; [vm_compute; reflexivity|].
    split; vm_compute; reflexivity.
Qed.

(** The copy test evaluated on doubles. *)
Lemma m_copy_columns_spec_witness :
  wf_matrix {| rows := 2; cols := 3;
               data := map (fun z => Some (float_of_int z)) [1; 2; 3; 4; 5; 6] |} /\
  ((exists C, m_copy_columns
                {| rows := 2; cols := 3;
                   data := map (fun z => Some (float_of_int z)) [1; 2; 3; 4; 5; 6] |} 1 3 = Ok C)
   <-> (0 <= 1 /\ 1 < 3 /\ 3 <= 3)).
Proof.
  assert (W : wf_matrix {| rows := 2; cols := 3;
               data := map (fun z => Some (float_of_int z)) [1; 2; 3; 4; 5; 6] |}).
  { split; [reflexivity|]. split; [reflexivity|]. split; [reflexivity|].
    simpl. repeat constructor; eexists; reflexivity. }
  split; [exact W|].
  exact (proj1 (proj1 m_copy_columns_spec float _ 1 3 W)).
Defined.

(** ** The identity feature layer *)

(** C9. [IdentityLayer::compute] returns the null pointer whatever it is
    given, and [IdentityLayer::project(X)] returns a block that was not in
    use before and holds a matrix equal to [X], rows, columns and every cell;
    [X] and every other block are left as they were. *)
Theorem identity_layer_spec :
  (forall (E : Type) (X : ptr) (y : list E) (c : Z), IdentityLayer.compute X y c = None) /\
  (forall (T : Type) (h : heap T) (X : ptr) (Xv : matrix_t T),
     heap_get h X = Ok Xv -> wf_matrix Xv ->
     exists (q : ptr) (h' : heap T),
       IdentityLayer.project h X = Ok (q, h') /\
       heap_get h q = Undefined /\
       heap_get h' q = Ok Xv /\
       heap_get h' X = Ok Xv /\
       (forall p', (p' < length h)%nat -> h' !! p' = h !! p')).
Proof.
  split; [reflexivity|].
  intros T h X Xv HX (Hr & Hc & Hlen & _).
  exists (length h), (h ++ [Some Xv]).
  unfold IdentityLayer.project, m_copy_named_ptr, m_copy_named.
  rewrite HX. cbn [bind]. rewrite m_copy_Ok by lia. cbn [bind].
  destruct (heap_alloc_fresh h Xv) as (F1 & F2 & F3).
  split; [reflexivity|]. split; [exact F1|]. split; [exact F2|]. split; [|exact F3].
  unfold heap_get in *. destruct (h !! X) as [[m|]|] eqn:E; try discriminate.
  rewrite (lookup_app_l_Some _ _ _ _ E). exact HX.
Qed.

(** A one-block heap projected through the identity layer. *)
Lemma identity_layer_spec_witness :
  exists (q : ptr) (h' : heap float),
    IdentityLayer.project
      [Some {| rows := 1; cols := 2; data := [Some 1%float; Some 2%float] |}] 0%nat
    = Ok (q, h') /\
    heap_get [Some {| rows := 1; cols := 2; data := [Some 1%float; Some 2%float] |}] q
    = Undefined /\
    heap_get h' q = Ok {| rows := 1; cols := 2; data := [Some 1%float; Some 2%float] |} /\
    heap_get h' 0%nat = Ok {| rows := 1; cols := 2; data := [Some 1%float; Some 2%float] |} /\
    (forall p', (p' < 1)%nat ->
       h' !! p' = [Some {| rows := 1; cols := 2; data := [Some 1%float; Some 2%float] |}] !! p').
Proof.
  apply (proj2 identity_layer_spec float
           [Some {| rows := 1; cols := 2; data := [Some 1%float; Some 2%float] |}] 0%nat).
  - reflexivity.
  - split; [reflexivity|]. split; [reflexivity|]. split; [reflexivity|].
    repeat constructor; eexists; reflexivity.
Defined.

(** ** Reshape *)

Section ReshapeFacts.
Context {T : Type}.
Implicit Types (M R : matrix_t T).

Lemma row_major_range (nr nc a : Z) :
  0 < nc -> 0 <= a < nr * nc -> 0 <= a / nc < nr /\ 0 <= a mod nc < nc.
Proof.
  intros Hc Ha. split; [|apply Z.mod_pos_bound; lia].
  split; [apply Z.div_pos; lia|]. apply Z.div_lt_upper_bound; lia.
Qed.

Lemma row_major_inj (nc a a' : Z) :
  0 < nc -> a / nc = a' / nc -> a mod nc = a' mod nc -> a = a'.
Proof.
  intros Hc Hq Hm. rewrite (Z.div_mod a nc), (Z.div_mod a' nc) by lia. congruence.
Qed.

Lemma m_reshape_Ok M (newNumRows newNumCols : Z) :
  wf_matrix M -> 0 <= newNumRows -> 0 <= newNumCols ->
  rows M * cols M = newNumRows * newNumCols ->
  exists R, MatrixCpu.m_reshape M newNumRows newNumCols = Ok R /\
    shaped newNumRows newNumCols R /\
    forall i, 0 <= i < newNumRows * newNumCols ->
      exists v, elem R (i / newNumCols) (i mod newNumCols) = Ok v /\
                elem M (i / cols M) (i mod cols M) = Ok v.
Proof.
  intros Hwf Hnr0 Hnc0 Hsize.
  destruct (wf_elem_fun M Hwf) as [f Hf]. destruct Hwf as (Hr & Hc & Hlen & _).
  assert (Hnr : 0 < newNumRows) by nia. assert (Hnc : 0 < newNumCols) by nia.
  unfold MatrixCpu.m_reshape.
  destruct (Z.eqb_spec (rows M * cols M) (newNumRows * newNumCols)); [|contradiction].
  cbn [assert bind].
  destruct (matrix_for_cells newNumRows newNumCols (newNumRows * newNumCols)
              (fun a => a / newNumCols) (fun a => a mod newNumCols)
              (fun i R =>
                 let* x := elem M (Z.quot i (cols M)) (Z.rem i (cols M)) in
                 set_elem R (Z.quot i newNumCols) (Z.rem i newNumCols) x)
              (fun a => f (a / cols M) (a mod cols M))
              (m_initialize newNumRows newNumCols))
    as (R & E & Hsh & G & _).
  - nia.
  - apply shaped_initialize. nia.
  - intros a Ha. apply row_major_range; lia.
  - intros a a' _ _. apply row_major_inj. lia.
  - intros a R' Ha _ _.
    rewrite !Z.quot_div_nonneg, !Z.rem_mod_nonneg by lia.
    rewrite Hf; [reflexivity | |].
    + apply (row_major_range (rows M) (cols M)); lia.
    + apply Z.mod_pos_bound; lia.
  - exists R. split; [exact E|]. split; [exact Hsh|].
    intros i Hi. exists (f (i / cols M) (i mod cols M)). split; [apply G; exact Hi|].
    apply Hf; [apply (row_major_range (rows M) (cols M)); lia | apply Z.mod_pos_bound; lia].
Qed.

End ReshapeFacts.

(** C5. When the element counts agree and the new dimensions are not
    negative, [m_reshape(M, newRows, newCols)] returns a [newRows x newCols]
    matrix whose element at row-major position [i], that is
    [R(i div newCols, i mod newCols)], is the element of [M] at row-major
    position [i], that is [M(i div M.cols, i mod M.cols)], for every
    [0 <= i < newRows * newCols]. *)
Theorem m_reshape_spec (T : Type) (M : matrix_t T) (newRows newCols : Z) :
  wf_matrix M -> 0 <= newRows -> 0 <= newCols ->
  rows M * cols M = newRows * newCols ->
  exists R, MatrixCpu.m_reshape M newRows newCols = Ok R /\
    rows R = newRows /\ cols R = newCols /\
    Z.of_nat (length (data R)) = newRows * newCols /\
    forall i, 0 <= i < newRows * newCols ->
      exists v, elem R (i / newCols) (i mod newCols) = Ok v /\
                elem M (i / cols M) (i mod cols M) = Ok v.
Proof.
  intros Hwf Hnr Hnc Hsize.
  destruct (m_reshape_Ok M newRows newCols Hwf Hnr Hnc Hsize) as (R & E & (Hr & Hc & Hl) & G).
  exists R. auto.
Qed.

(** A 2x3 matrix of doubles reshaped to 3x2. *)
Lemma m_reshape_spec_witness :
  exists R, MatrixCpu.m_reshape
              {| rows := 2; cols := 3;
                 data := map (fun z => Some (float_of_int z)) [1; 4; 2; 5; 3; 6] |} 3 2 = Ok R /\
    rows R = 3 /\ cols R = 2 /\
    Z.of_nat (length (data R)) = 3 * 2 /\
    forall i, 0 <= i < 3 * 2 ->
      exists v, elem R (i / 2) (i mod 2) = Ok v /\
                elem {| rows := 2; cols := 3;
                        data := map (fun z => Some (float_of_int z)) [1; 4; 2; 5; 3; 6] |}
                     (i / 3) (i mod 3) = Ok v.
Proof.
  apply (m_reshape_spec float
           {| rows := 2; cols := 3;
              data := map (fun z => Some (float_of_int z)) [1; 4; 2; 5; 3; 6] |} 3 2).
  - split; [reflexivity|]. split; [reflexivity|]. split; [reflexivity|].
    simpl. repeat constructor; eexists; reflexivity.
  - lia.
  - lia.
  - reflexivity.
Defined.

(** ** Nearest neighbour *)

Section NearestNeighbor.
Context {T : Type} `{Precision T}.
Implicit Types (P P_test : matrix_t T) (d : Database.dist_func_t T).

Lemma nearest_neighbor_unfold P P_test d :
  Database.nearest_neighbor P P_test d
  = let* st := for_loop 0 (cols P) (Database.scan_step P P_test d) (-1, p_of_int (-1)) in
    Ok (fst st).
Proof.
  unfold Database.nearest_neighbor.
  assert (E : (fun (j : Z) '(min_index, min_dist) =>
                 let* dist := d P_test 0 P j in
                 if p_eqb min_dist (p_of_int (-1)) || p_ltb dist min_dist
                 then Ok (j, dist) else Ok (min_index, min_dist))
              = Database.scan_step P P_test d) by reflexivity.
  rewrite E. destruct (for_loop 0 (cols P) (Database.scan_step P P_test d) (-1, p_of_int (-1)))
    as [[mi md]| |]; reflexivity.
Qed.

Lemma nearest_neighbor_range P P_test d :
  p_eqb (p_of_int (-1)) (p_of_int (-1)) = true ->
  0 <= cols P ->
  (forall j, 0 <= j < cols P -> exists v, d P_test 0 P j = Ok v) ->
  exists r, Database.nearest_neighbor P P_test d = Ok r /\
            (r = -1 <-> cols P = 0) /\
            (1 <= cols P -> 0 <= r < cols P).
Proof.
  intros Hsent Hc Htotal. rewrite nearest_neighbor_unfold.
  destruct (for_loop_inv
              (fun j st => (j = 0 -> st = (-1, p_of_int (-1))) /\ (0 < j -> 0 <= fst st < j))
              0 (cols P) (Database.scan_step P P_test d) (-1, p_of_int (-1)))
    as ([mi md] & E & I0 & I1).
  - exact Hc.
  - split; [reflexivity | lia].
  - intros j [mi md] Hj [J0 J1]. destruct (Htotal j Hj) as [v Hv].
    unfold Database.scan_step. rewrite Hv. cbn [bind].
    destruct (Z.eq_dec j 0) as [->|Hne].
    + injection (J0 eq_refl) as -> ->. rewrite Hsent. cbn [orb].
      eexists. split; [reflexivity|]. simpl. split; lia.
    + assert (Hmi : 0 <= mi < j) by (apply J1; lia).
      destruct (p_eqb md (p_of_int (-1)) || p_ltb v md);
        (eexists; split; [reflexivity|]; simpl; split; lia).
  - rewrite E. cbn [bind fst]. exists mi. split; [reflexivity|]. simpl in *. split.
    + split.
      * intros ->. destruct (Z.eq_dec (cols P) 0); [assumption|]. lia.
      * intros H0. injection (I0 H0). auto.
    + intros H1. apply I1. lia.
Qed.

End NearestNeighbor.

(** C10. [nearest_neighbor(P, P_test, dist_func)] returns -1 exactly when [P]
    has no column, and an index in [[0, P.cols)] when [P] has at least one:
    the scan returns whenever the distance function does, the first column
    always replacing the initial -1. The comparison [-1 == -1] on
    [precision_t] is the one fact about the scalars this rests on. *)
Theorem nearest_neighbor_index (T : Type) (prec : Precision T)
    (P P_test : matrix_t T) (dist_func : Database.dist_func_t T) :
  p_eqb (p_of_int (-1)) (p_of_int (-1)) = true ->
  0 <= cols P ->
  (forall j, 0 <= j < cols P -> exists v, dist_func P_test 0 P j = Ok v) ->
  exists r, Database.nearest_neighbor P P_test dist_func = Ok r /\
            (r = -1 <-> cols P = 0) /\
            (1 <= cols P -> 0 <= r < cols P).
Proof. apply nearest_neighbor_range. Qed.

(** On doubles, with the squared distance, two columns. *)
Lemma nearest_neighbor_index_witness :
  exists r, Database.nearest_neighbor sentinel_projection sentinel_query m_dist_L2 = Ok r /\
            (r = -1 <-> cols sentinel_projection = 0) /\
            (1 <= cols sentinel_projection -> 0 <= r < cols sentinel_projection).
Proof.
  apply (nearest_neighbor_index float double_precision
           sentinel_projection sentinel_query m_dist_L2).
  - reflexivity.
  - simpl. lia.
  - intros j Hj. simpl in Hj. assert (Hcases : j = 0 \/ j = 1) by lia.
    destruct Hcases as [-> | ->]; eexists; vm_compute; reflexivity.
Defined.

(** C2 (the code departs from it). With the negated cosine, a column at
    distance exactly -1 is the closest there can be, and -1 is also the value
    [nearest_neighbor] starts its running minimum from: the next column then
    replaces it whatever its distance. Here column 0 is at distance -1 and
    column 1 at distance 1, and the scan returns 1, in both revisions of
    [m_dist_COS]. *)
Theorem nearest_neighbor_cosine_sentinel :
  MatrixDual.m_dist_COS sentinel_query 0 sentinel_projection 0 = Ok (-1)%float /\
  MatrixDual.m_dist_COS sentinel_query 0 sentinel_projection 1 = Ok 1%float /\
  MatrixCpu.m_dist_COS sentinel_query 0 sentinel_projection 0 = Ok (-1)%float /\
  MatrixCpu.m_dist_COS sentinel_query 0 sentinel_projection 1 = Ok 1%float /\
  PrimFloat.ltb (-1)%float 1%float = true /\
  Database.nearest_neighbor sentinel_projection sentinel_query MatrixDual.m_dist_COS = Ok 1 /\
  Database.nearest_neighbor sentinel_projection sentinel_query MatrixCpu.m_dist_COS = Ok 1.
Proof. repeat split; vm_compute; reflexivity. Qed.

(** ** Binary serialisation *)

Lemma Z_of_byte_of_Z (z : Z) : Z_of_byte (byte_of_Z z) = z mod 256.
Proof.
  unfold Z_of_byte, byte_of_Z.
  pose proof (Z.mod_pos_bound z 256 eq_refl) as Hm.
  destruct (Byte.of_N (Z.to_N (z mod 256))) as [b|] eqn:E.
  - apply Byte.to_of_N in E. rewrite E. lia.
  - apply Byte.of_N_None_iff in E. lia.
Qed.

Lemma int_of_to_bytes (z : Z) : int_range z -> int_of_bytes (int_to_bytes z) = z.
Proof.
  unfold int_range, int_of_bytes, int_to_bytes. intros Hz. cbn [fold_right].
  rewrite !Z_of_byte_of_Z.
  change (2 ^ 8) with 256. change (2 ^ 16) with (256 * 256).
  change (2 ^ 24) with (256 * 256 * 256).
  change (2 ^ 31) with 2147483648 in *. change (2 ^ 32) with 4294967296.
  rewrite <- !Z.div_div by lia.
  set (q1 := z / 256). set (q2 := q1 / 256). set (q3 := q2 / 256).
  pose proof (Z.div_mod z 256 ltac:(lia)) as E0. fold q1 in E0.
  pose proof (Z.div_mod q1 256 ltac:(lia)) as E1. fold q2 in E1.
  pose proof (Z.div_mod q2 256 ltac:(lia)) as E2. fold q3 in E2.
  pose proof (Z.div_mod q3 256 ltac:(lia)) as E3.
  pose proof (Z.mod_pos_bound z 256 ltac:(lia)).
  pose proof (Z.mod_pos_bound q1 256 ltac:(lia)).
  pose proof (Z.mod_pos_bound q2 256 ltac:(lia)).
  pose proof (Z.mod_pos_bound q3 256 ltac:(lia)).
  assert (Hq : q3 / 256 = 0 \/ q3 / 256 = -1) by lia.
  destruct (Z.ltb_spec
              (z mod 256 + 256 * (q1 mod 256 + 256 * (q2 mod 256 + 256 * (q3 mod 256 + 256 * 0))))
              2147483648); lia.
Qed.

Lemma int_to_bytes_length (z : Z) : length (int_to_bytes z) = 4%nat.
Proof. reflexivity. Qed.

Lemma fread_int_fwrite (z : Z) (rest : stream) :
  int_range z -> fread_int (int_to_bytes z ++ rest) = Ok (z, rest).
Proof.
  intros Hz. unfold fread_int.
  change (int_to_bytes z ++ rest)
    with (byte_of_Z z :: byte_of_Z (z / 2 ^ 8) :: byte_of_Z (z / 2 ^ 16)
            :: byte_of_Z (z / 2 ^ 24) :: rest).
  cbn [length Nat.leb take drop].
  change [byte_of_Z z; byte_of_Z (z / 2 ^ 8); byte_of_Z (z / 2 ^ 16); byte_of_Z (z / 2 ^ 24)]
    with (int_to_bytes z).
  rewrite take_0, drop_0.
  change [byte_of_Z z; byte_of_Z (z / 2 ^ 8); byte_of_Z (z / 2 ^ 16); byte_of_Z (z / 2 ^ 24)]
    with (int_to_bytes z).
  rewrite int_of_to_bytes by exact Hz. reflexivity.
Qed.

Section SerialisationFacts.
Context {T : Type} `{ObjRepLaws T}.
Implicit Types (M : matrix_t T) (s rest : stream) (vs : list T).

Lemma all_Some_values (cells : list (option T)) :
  Forall is_Some cells -> exists vs, cells = Some <$> vs.
Proof.
  induction 1 as [|c cells [v ->] _ [vs ->]]; [exists []; reflexivity|].
  exists (v :: vs). reflexivity.
Qed.

Lemma cells_to_bytes_values vs :
  cells_to_bytes (Some <$> vs) = Ok (concat (map to_bytes vs)).
Proof.
  induction vs as [|v vs IH]; [reflexivity|].
  cbn [fmap list_fmap cells_to_bytes]. change (list_fmap T (option T) Some vs) with (Some <$> vs).
  rewrite IH. reflexivity.
Qed.

Lemma fread_items_values vs rest :
  fread_items (length vs) (concat (map to_bytes vs) ++ rest) = (vs, rest).
Proof.
  induction vs as [|v vs IH]; [reflexivity|].
  cbn [length map concat fread_items]. rewrite <- app_assoc.
  pose proof (to_bytes_length v) as Hv.
  destruct (Nat.leb_spec sizeof (length (to_bytes v ++ concat (map to_bytes vs) ++ rest)))
    as [_|Hlt]; [|rewrite length_app in Hlt; lia].
  rewrite <- Hv at 1. rewrite drop_app_length. rewrite IH.
  rewrite <- Hv. rewrite take_app_length. rewrite of_to_bytes. reflexivity.
Qed.

Lemma matrix_bytes_values (r c : Z) vs :
  matrix_bytes {| rows := r; cols := c; data := Some <$> vs |}
  = int_to_bytes r ++ int_to_bytes c ++ concat (map to_bytes vs).
Proof.
  unfold matrix_bytes. cbn [rows cols data]. do 3 f_equal.
  induction vs as [|v vs IH]; [reflexivity|]. cbn. f_equal. exact IH.
Qed.

Lemma m_fwrite_Ok s M : wf_matrix M -> m_fwrite s M = Ok (s ++ matrix_bytes M).
Proof.
  intros (Hr & Hc & Hlen & Hall). destruct (all_Some_values _ Hall) as [vs Hvs].
  destruct M as [r c d]. cbn [rows cols data] in *. subst d.
  rewrite matrix_bytes_values. unfold m_fwrite, fwrite_data, fwrite_int. cbn [rows cols data].
  destruct (Z.leb_spec 0 (r * c)); [|lia].
  destruct (Z.leb_spec (r * c) (Z.of_nat (length (Some <$> vs)))); [|lia]. cbn [andb].
  rewrite take_ge by lia. rewrite cells_to_bytes_values. cbn [bind].
  rewrite <- !app_assoc. reflexivity.
Qed.

Lemma m_fread_Ok M rest : storable M -> m_fread (matrix_bytes M ++ rest) = Ok (M, rest).
Proof.
  intros ((Hr & Hc & Hlen & Hall) & Hir & Hic). destruct (all_Some_values _ Hall) as [vs Hvs].
  destruct M as [r c d]. cbn [rows cols data] in *. subst d.
  rewrite matrix_bytes_values. rewrite length_fmap in Hlen.
  unfold m_fread. rewrite <- !app_assoc.
  rewrite fread_int_fwrite by exact Hir. cbn [bind].
  rewrite fread_int_fwrite by exact Hic. cbn [bind].
  unfold fread_data, m_initialize. cbn [rows cols data]. rewrite length_replicate.
  destruct (Z.leb_spec 0 (r * c)); [|lia].
  destruct (Z.leb_spec (r * c) (Z.of_nat (Z.to_nat (r * c)))); [|lia]. cbn [andb].
  replace (Z.to_nat (r * c)) with (length vs) by lia.
  rewrite fread_items_values. cbn [bind].
  rewrite drop_ge by (rewrite length_replicate; lia). rewrite app_nil_r. reflexivity.
Qed.

End SerialisationFacts.

(** The object representation [binary64] obeys the laws. *)
#[export] Instance binary64_laws : ObjRepLaws binary64.
Proof.
  split.
  - intros x. reflexivity.
  - intros [c0 c1 c2 c3 c4 c5 c6 c7]. reflexivity.
Qed.

(** C4. Writing a matrix with [m_fwrite] and reading the bytes produced with
    [m_fread] gives the matrix back: the same rows, the same columns and every
    element, whatever follows in the stream and whatever the stream held
    before. The elements are any values with an object representation of
    fixed size that determines them, as the eight bytes of a double do. *)
Theorem m_fread_m_fwrite (T : Type) (rep : ObjRep T) (laws : ObjRepLaws T)
    (M : matrix_t T) (s rest : stream) :
  wf_matrix M -> int_range (rows M) -> int_range (cols M) ->
  exists bytes, m_fwrite s M = Ok (s ++ bytes) /\ m_fread (bytes ++ rest) = Ok (M, rest).
Proof.
  intros Hwf Hr Hc. exists (matrix_bytes M).
  split; [apply m_fwrite_Ok; exact Hwf | apply m_fread_Ok; exact (conj Hwf (conj Hr Hc))].
Qed.

(** Two stored doubles written and read back, with a byte after them. *)
Lemma m_fread_m_fwrite_witness :
  exists bytes,
    m_fwrite [] {| rows := 1; cols := 2;
                   data := [Some (of_bytes [x00; x00; x00; x00; x00; x00; xf0; x3f]);
                            Some (of_bytes [x00; x00; x00; x00; x00; x00; x00; xc0])] |}
    = Ok ([] ++ bytes) /\
    m_fread (bytes ++ [xff])
    = Ok ({| rows := 1; cols := 2;
             data := [Some (of_bytes [x00; x00; x00; x00; x00; x00; xf0; x3f] : binary64);
                      Some (of_bytes [x00; x00; x00; x00; x00; x00; x00; xc0])] |}, [xff]).
Proof.
  apply (m_fread_m_fwrite binary64 binary64_rep binary64_laws).
  - split; [reflexivity|]. split; [reflexivity|]. split; [reflexivity|].
    repeat constructor; eexists; reflexivity.
  - unfold int_range. simpl. lia.
  - unfold int_range. simpl. lia.
Defined.

(** ** Saving and loading a database *)

Section SaveLoadFacts.
Context {T : Type} `{ObjRepLaws T}.
Variable fprintf_entry : Database.image_entry_t -> list byte.
Variable fscanf_entry : stream -> Database.image_entry_t * stream.
Implicit Types (db : Database.database_t T) (M W P : matrix_t T) (s rest : stream).

Lemma fwrite_pair_Ok s W P :
  storable W -> storable P ->
  Database.fwrite_pair s (Some W) (Some P) = Ok (s ++ matrix_bytes W ++ matrix_bytes P).
Proof.
  intros [HW _] [HP _]. unfold Database.fwrite_pair. cbn [Database.deref bind].
  rewrite m_fwrite_Ok by exact HW. cbn [bind]. rewrite m_fwrite_Ok by exact HP.
  rewrite <- app_assoc. reflexivity.
Qed.

Lemma fread_pair_Ok W P rest :
  storable W -> storable P ->
  Database.fread_pair (matrix_bytes W ++ matrix_bytes P ++ rest) = Ok (W, P, rest).
Proof.
  intros HW HP. unfold Database.fread_pair.
  rewrite m_fread_Ok by exact HW. cbn [bind]. rewrite m_fread_Ok by exact HP. reflexivity.
Qed.

Lemma fread_pair_Ok_nil W P :
  storable W -> storable P ->
  Database.fread_pair (matrix_bytes W ++ matrix_bytes P) = Ok (W, P, []).
Proof.
  intros HW HP. rewrite <- (app_nil_r (matrix_bytes P)). apply fread_pair_Ok; assumption.
Qed.

Lemma manifest_written db :
  0 <= Database.num_images db <= Z.of_nat (length (Database.entries db)) ->
  exists tset,
    for_loop 0 (Database.num_images db)
      (fun i tset => match Database.entries db !! Z.to_nat i with
                     | Some e => Ok (tset ++ fprintf_entry e)
                     | None => Undefined
                     end) [] = Ok tset.
Proof.
  intros Hn.
  destruct (for_loop_inv (fun _ _ => True) 0 (Database.num_images db)
              (fun i tset => match Database.entries db !! Z.to_nat i with
                             | Some e => Ok (tset ++ fprintf_entry e)
                             | None => Undefined
                             end) []) as (tset & E & _); [lia | exact I | | eauto].
  intros i t Hi _.
  destruct (lookup_lt_is_Some_2 (Database.entries db) (Z.to_nat i)) as [e ->]; [lia|].
  eauto.
Qed.

(** The manifest that [db_save] writes. *)
Lemma manifest_contents db :
  0 <= Database.num_images db <= Z.of_nat (length (Database.entries db)) ->
  for_loop 0 (Database.num_images db)
    (fun i tset => match Database.entries db !! Z.to_nat i with
                   | Some e => Ok (tset ++ fprintf_entry e)
                   | None => Undefined
                   end) []
  = Ok (Database.manifest_bytes fprintf_entry (Database.saved_entries db)).
Proof.
  intros Hn.
  destruct (for_loop_inv
              (fun i tset => tset = Database.manifest_bytes fprintf_entry
                                      (take (Z.to_nat i) (Database.entries db)))
              0 (Database.num_images db)
              (fun i tset => match Database.entries db !! Z.to_nat i with
                             | Some e => Ok (tset ++ fprintf_entry e)
                             | None => Undefined
                             end) []) as (tset & E & ->); [lia | reflexivity | | exact E].
  intros i t Hi ->.
  destruct (lookup_lt_is_Some_2 (Database.entries db) (Z.to_nat i)) as [e Ee]; [lia|].
  rewrite Ee. eexists. split; [reflexivity|].
  replace (Z.to_nat (i + 1)) with (S (Z.to_nat i)) by lia.
  rewrite (take_S_r _ _ _ Ee). unfold Database.manifest_bytes.
  rewrite map_app, concat_app. cbn [map concat]. rewrite app_nil_r. reflexivity.
Qed.

(** Reading the manifest back, entry by entry, into blocks of 64 bytes: the
    entries come back when every name fits its block with the zero byte that
    ends it, and the loop runs past the end of a block when a name does not. *)
Lemma manifest_read (es acc : list Database.image_entry_t) (k : Z) (t rest : stream) :
  Forall (Database.reads_back fprintf_entry fscanf_entry) es ->
  fscanf_entry t = fscanf_entry (Database.manifest_bytes fprintf_entry es ++ rest) ->
  (Forall (fun e => Z.of_nat (length (Database.name e)) < 64) es ->
   exists t', for_from (fun (i : Z) '(es, tset) =>
                          let '(e, tset) := fscanf_entry tset in
                          if Z.of_nat (length (Database.name e)) + 1 <=? 64
                          then Ok (es ++ [e], tset)
                          else Undefined) k (length es) (acc, t) = Ok (acc ++ es, t')) /\
  (Exists (fun e => 64 <= Z.of_nat (length (Database.name e))) es ->
   for_from (fun (i : Z) '(es, tset) =>
               let '(e, tset) := fscanf_entry tset in
               if Z.of_nat (length (Database.name e)) + 1 <=? 64
               then Ok (es ++ [e], tset)
               else Undefined) k (length es) (acc, t) = Undefined).
Proof.
  revert acc k t. induction es as [|e es IH]; intros acc k t Hback Et.
  - split.
    + intros _. exists t. rewrite app_nil_r. reflexivity.
    + intros Hex. inversion Hex.
  - inversion Hback as [|? ? He Hes]; subst.
    unfold Database.manifest_bytes in Et. cbn [map concat] in Et.
    rewrite <- app_assoc in Et.
    destruct (He (concat (map fprintf_entry es) ++ rest)) as (left & Eleft & Enext).
    rewrite Eleft in Et.
    destruct (IH (acc ++ [e]) (k + 1) left Hes Enext) as [IHfit IHlong].
    cbn [length]. rewrite for_from_S. rewrite Et.
    destruct (Z.of_nat (length (Database.name e)) + 1 <=? 64) eqn:Efit; cbn [bind].
    + split.
      * intros Hfit. inversion Hfit as [|? ? _ Hfits]; subst.
        destruct (IHfit Hfits) as [t' Et'].
        exists t'. rewrite Et', <- app_assoc. reflexivity.
      * intros Hex. inversion Hex as [? ? Hlong|? ? Hlong]; subst; [lia|].
        exact (IHlong Hlong).
    + split; [|reflexivity].
      intros Hfit. inversion Hfit as [|? ? Hshort _]; subst. lia.
Qed.

End SaveLoadFacts.

(** Reduction of the field accesses and assignments of a database. *)
Ltac db_cbn :=
  cbn [bind Database.deref
       Database.set_mean_face Database.set_pca Database.set_lda Database.set_ica
       Database.set_counts Database.set_entries Database.db_construct
       Database.pca Database.lda Database.ica
       Database.num_images Database.num_classes Database.num_dimensions Database.entries
       Database.mean_face Database.W_pca_tr Database.P_pca
       Database.W_lda_tr Database.P_lda Database.W_ica_tr Database.P_ica].

(** What [db_save] writes for a database in the Trained state: the lines of
    the manifest, and the mean face followed by the transposed basis and the
    training projection of PCA and of each of LDA and ICA that is enabled. *)
Lemma db_save_files (T : Type) (rep : ObjRep T) (laws : ObjRepLaws T)
    (fprintf_entry : Database.image_entry_t -> list byte)
    (db : Database.database_t T) :
  Database.trained db ->
  Database.enabled_any db = true ->
  Database.db_save fprintf_entry db =
  Ok (Database.manifest_bytes fprintf_entry (Database.saved_entries db),
      Database.data_file_bytes (Database.stored_matrices db)).
Proof.
  intros (Hn & (m & Em & Hm) & Hpca & Hlda & Hica) Hany.
  destruct (Hpca Hany) as ((Wp & EWp & HWp) & (Pp & EPp & HPp)).
  pose proof Hany as Hany'. unfold Database.enabled_any in Hany'.
  unfold Database.db_save. rewrite (manifest_contents fprintf_entry db Hn). cbn [bind].
  rewrite Em, EWp, EPp. cbn [Database.deref bind].
  rewrite m_fwrite_Ok by apply Hm. cbn [bind app].
  rewrite Hany'. rewrite fwrite_pair_Ok by assumption. cbn [bind].
  assert (Hl : Database.truth (Database.lda db) = true ->
               exists Wl Pl, Database.W_lda_tr db = Some Wl /\ Database.P_lda db = Some Pl /\
                             storable Wl /\ storable Pl).
  { intros E. destruct (Hlda E) as ((Wl & EWl & HWl) & (Pl & EPl & HPl)). eauto 10. }
  assert (Hi : Database.truth (Database.ica db) = true ->
               exists Wi Pi, Database.W_ica_tr db = Some Wi /\ Database.P_ica db = Some Pi /\
                             storable Wi /\ storable Pi).
  { intros E. destruct (Hica E) as ((Wi & EWi & HWi) & (Pi & EPi & HPi)). eauto 10. }
  clear Hlda Hica Hpca.
  destruct (Database.truth (Database.lda db)) eqn:El;
    [destruct (Hl eq_refl) as (Wl & Pl & EWl & EPl & HWl & HPl); rewrite EWl, EPl|];
    (destruct (Database.truth (Database.ica db)) eqn:Ei;
     [destruct (Hi eq_refl) as (Wi & Pi & EWi & EPi & HWi & HPi); rewrite EWi, EPi|]);
    cbn [bind];
    repeat (rewrite fwrite_pair_Ok by assumption; cbn [bind]);
    unfold Database.stored_matrices, Database.data_file_bytes, Database.enabled_any;
    rewrite ?El, ?Ei, Hany', Em, EWp, EPp, ?EWl, ?EPl, ?EWi, ?EPi;
    cbn [app map concat]; rewrite ?app_nil_r, <- ?app_assoc; reflexivity.
Qed.

(** What [db_load] makes of the data file that [db_save] wrote, whatever the
    manifest: the matrices are read back into a database constructed with the
    same flags, the counts are taken from the projection of PCA and from the
    mean face, and then one entry is read for every column of that
    projection. *)
Lemma db_load_matrices (T : Type) (rep : ObjRep T) (laws : ObjRepLaws T)
    (fscanf_entry : stream -> Database.image_entry_t * stream)
    (db : Database.database_t T) (tset : stream) :
  Database.trained db ->
  Database.enabled_any db = true ->
  exists (db0 : Database.database_t T) (P m : matrix_t T),
    Database.db_load fscanf_entry
      (Database.db_construct (Database.pca db) (Database.lda db) (Database.ica db))
      tset (Database.data_file_bytes (Database.stored_matrices db))
    = (let* (es, _) := for_loop 0 (cols P)
                         (fun (i : Z) '(es, tset) =>
                            let '(e, tset) := fscanf_entry tset in
                            if Z.of_nat (length (Database.name e)) + 1 <=? 64
                            then Ok (es ++ [e], tset)
                            else Undefined) ([], tset) in
       Ok (Database.set_entries db0 es)) /\
    Database.P_pca db = Some P /\ Database.mean_face db = Some m /\
    Database.mean_face db0 = Database.mean_face db /\
    Database.W_pca_tr db0 = Database.W_pca_tr db /\
    Database.P_pca db0 = Database.P_pca db /\
    (Database.truth (Database.lda db) = true ->
       Database.W_lda_tr db0 = Database.W_lda_tr db /\
       Database.P_lda db0 = Database.P_lda db) /\
    (Database.truth (Database.ica db) = true ->
       Database.W_ica_tr db0 = Database.W_ica_tr db /\
       Database.P_ica db0 = Database.P_ica db) /\
    Database.num_images db0 = cols P /\
    Database.num_dimensions db0 = rows m.
Proof.
  intros (Hn & (m & Em & Hm) & Hpca & Hlda & Hica) Hany.
  destruct (Hpca Hany) as ((Wp & EWp & HWp) & (Pp & EPp & HPp)).
  pose proof Hany as Hany'. unfold Database.enabled_any in Hany'.
  assert (Hl : Database.truth (Database.lda db) = true ->
               exists Wl Pl, Database.W_lda_tr db = Some Wl /\ Database.P_lda db = Some Pl /\
                             storable Wl /\ storable Pl).
  { intros E. destruct (Hlda E) as ((Wl & EWl & HWl) & (Pl & EPl & HPl)). eauto 10. }
  assert (Hi : Database.truth (Database.ica db) = true ->
               exists Wi Pi, Database.W_ica_tr db = Some Wi /\ Database.P_ica db = Some Pi /\
                             storable Wi /\ storable Pi).
  { intros E. destruct (Hica E) as ((Wi & EWi & HWi) & (Pi & EPi & HPi)). eauto 10. }
  clear Hlda Hica Hpca.
  unfold Database.db_load, Database.stored_matrices, Database.data_file_bytes.
  rewrite Hany, Em, EWp, EPp. cbn [app map concat].
  rewrite <- ?app_assoc, m_fread_Ok by exact Hm. cbn [bind].
  db_cbn. rewrite Hany'. rewrite fread_pair_Ok by assumption. db_cbn.
  destruct (Database.truth (Database.lda db)) eqn:El;
    [destruct (Hl eq_refl) as (Wl & Pl & EWl & EPl & HWl & HPl); rewrite EWl, EPl|];
    (destruct (Database.truth (Database.ica db)) eqn:Ei;
     [destruct (Hi eq_refl) as (Wi & Pi & EWi & EPi & HWi & HPi); rewrite EWi, EPi|]);
    cbn [app map concat]; rewrite ?app_nil_r, <- ?app_assoc;
    do 3 (db_cbn; rewrite ?El, ?Ei;
          try first [rewrite fread_pair_Ok by assumption
                    | rewrite fread_pair_Ok_nil by assumption]);
    db_cbn;
    eexists; exists Pp, m;
    (split; [reflexivity|]);
    db_cbn;
    (split; [reflexivity|]); (split; [reflexivity|]);
    (split; [reflexivity|]); (split; [reflexivity|]); (split; [reflexivity|]);
    (split; [first [discriminate | split; reflexivity]|]);
    (split; [first [discriminate | split; reflexivity]|]);
    split; reflexivity.
Qed.

(** The number of entries that [db_save] writes. *)
Lemma saved_entries_length {T : Type} (db : Database.database_t T) :
  0 <= Database.num_images db <= Z.of_nat (length (Database.entries db)) ->
  length (Database.saved_entries db) = Z.to_nat (Database.num_images db).
Proof.
  intros Hn. unfold Database.saved_entries. rewrite length_take. lia.
Qed.

(** Saving and loading when every name fits its block: for a database in the
    Trained state with an algorithm enabled and one entry per image, whose
    entries read back from the manifest and have names of at most 63 bytes,
    [db_load] of what [db_save] wrote, into a database constructed with the
    same flags, restores the entries, the mean face and the transposed basis
    and training projection of PCA and of each of LDA and ICA that is
    enabled; [num_images] is the column count of the loaded PCA projection
    and [num_dimensions] the row count of the loaded mean face. *)
Lemma db_load_db_save (T : Type) (rep : ObjRep T) (laws : ObjRepLaws T)
    (fprintf_entry : Database.image_entry_t -> list byte)
    (fscanf_entry : stream -> Database.image_entry_t * stream)
    (db : Database.database_t T) :
  Database.trained db ->
  Database.enabled_any db = true ->
  Database.entry_per_image db ->
  Forall (Database.reads_back fprintf_entry fscanf_entry) (Database.saved_entries db) ->
  Forall (fun e => Z.of_nat (length (Database.name e)) < 64) (Database.saved_entries db) ->
  exists (tset tdata : stream) (db' : Database.database_t T),
    Database.db_save fprintf_entry db = Ok (tset, tdata) /\
    tdata = Database.data_file_bytes (Database.stored_matrices db) /\
    Database.db_load fscanf_entry
      (Database.db_construct (Database.pca db) (Database.lda db) (Database.ica db))
      tset tdata = Ok db' /\
    Database.entries db' = Database.saved_entries db /\
    Database.mean_face db' = Database.mean_face db /\
    Database.W_pca_tr db' = Database.W_pca_tr db /\
    Database.P_pca db' = Database.P_pca db /\
    (Database.truth (Database.lda db) = true ->
       Database.W_lda_tr db' = Database.W_lda_tr db /\
       Database.P_lda db' = Database.P_lda db) /\
    (Database.truth (Database.ica db) = true ->
       Database.W_ica_tr db' = Database.W_ica_tr db /\
       Database.P_ica db' = Database.P_ica db) /\
    (exists P m, Database.P_pca db' = Some P /\ Database.mean_face db' = Some m /\
                 Database.num_images db' = cols P /\
                 Database.num_dimensions db' = rows m).
Proof.
  intros Htr Hany (P & EP & Hn) Hback Hfit.
  exists (Database.manifest_bytes fprintf_entry (Database.saved_entries db)),
         (Database.data_file_bytes (Database.stored_matrices db)).
  destruct (db_load_matrices T rep laws fscanf_entry db
              (Database.manifest_bytes fprintf_entry (Database.saved_entries db)) Htr Hany)
    as (db0 & P' & m & Eload & EP' & Em & Hm & HW & HP & Hlda & Hica & Himages & Hdims).
  rewrite EP in EP'. injection EP' as <-.
  destruct (manifest_read fprintf_entry fscanf_entry (Database.saved_entries db) [] 0
              (Database.manifest_bytes fprintf_entry (Database.saved_entries db)) [] Hback)
    as [Hread _]; [rewrite app_nil_r; reflexivity|].
  destruct (Hread Hfit) as [t' Et'].
  exists (Database.set_entries db0 (Database.saved_entries db)).
  split; [apply db_save_files; assumption|]. split; [reflexivity|].
  split.
  { rewrite Eload. unfold for_loop.
    replace (Z.to_nat (cols P - 0)) with (length (Database.saved_entries db))
      by (rewrite saved_entries_length by apply Htr; lia).
    rewrite Et'. reflexivity. }
  db_cbn. repeat (split; [assumption || reflexivity|]).
  exists P, m. rewrite HP, Hm. auto.
Qed.

(** C3. [db_load] reads every name of the manifest with [%s] into a block of
    64 bytes. For a database in the Trained state with an algorithm enabled
    and one entry per image, whose entries read back from the manifest, and
    one of whose images has a name of 64 bytes or more, [db_save] writes the
    two files and [db_load] of them, into a database constructed with the
    same flags, writes past the end of the block of a name: it is undefined,
    and restores neither the matrices nor the counts. *)
Theorem db_load_name_overrun (T : Type) (rep : ObjRep T) (laws : ObjRepLaws T)
    (fprintf_entry : Database.image_entry_t -> list byte)
    (fscanf_entry : stream -> Database.image_entry_t * stream)
    (db : Database.database_t T) (i : nat) (e : Database.image_entry_t) :
  Database.trained db ->
  Database.enabled_any db = true ->
  Database.entry_per_image db ->
  Forall (Database.reads_back fprintf_entry fscanf_entry) (Database.saved_entries db) ->
  Database.saved_entries db !! i = Some e ->
  64 <= Z.of_nat (length (Database.name e)) ->
  exists tset tdata : stream,
    Database.db_save fprintf_entry db = Ok (tset, tdata) /\
    Database.db_load fscanf_entry
      (Database.db_construct (Database.pca db) (Database.lda db) (Database.ica db))
      tset tdata = Undefined.
Proof.
  intros Htr Hany (P & EP & Hn) Hback Hi Hlong.
  exists (Database.manifest_bytes fprintf_entry (Database.saved_entries db)),
         (Database.data_file_bytes (Database.stored_matrices db)).
  split; [apply db_save_files; assumption|].
  destruct (db_load_matrices T rep laws fscanf_entry db
              (Database.manifest_bytes fprintf_entry (Database.saved_entries db)) Htr Hany)
    as (db0 & P' & m & Eload & EP' & _).
  rewrite EP in EP'. injection EP' as <-.
  destruct (manifest_read fprintf_entry fscanf_entry (Database.saved_entries db) [] 0
              (Database.manifest_bytes fprintf_entry (Database.saved_entries db)) [] Hback)
    as [_ Hover]; [rewrite app_nil_r; reflexivity|].
  rewrite Eload. unfold for_loop.
  replace (Z.to_nat (cols P - 0)) with (length (Database.saved_entries db))
    by (rewrite saved_entries_length by apply Htr; lia).
  rewrite Hover; [reflexivity|].
  apply Exists_exists. exists e. split; [|exact Hlong].
  exact (list_elem_of_lookup_2 _ _ _ Hi).
Qed.

(** The Trained state of a database given by its fields, with small matrices
    whose cells are all there. *)
Ltac db_trained :=
  let S := fresh "S" in
  assert (S : forall (r c : Z) (d : list (option binary64)),
            0 < r < 10 -> 0 < c < 10 -> Z.of_nat (length d) = r * c ->
            Forall is_Some d ->
            Database.holds_storable (Some {| rows := r; cols := c; data := d |}));
  [ intros r c d Hr Hc Hlen Hall; eexists; (split; [reflexivity|]);
    (split; [split; [simpl; lia | split; [simpl; lia | split; assumption]]|]);
    unfold int_range; simpl; lia
  | split; [simpl; lia|];
    (split; [apply S; [lia | lia | reflexivity | repeat constructor; eexists; reflexivity]|]);
    (split; [intros _; split;
             (apply S; [lia | lia | reflexivity | repeat constructor; eexists; reflexivity])|]);
    split; intros E; discriminate E ].

(** The database trained for PCA alone on an image with a name of one byte,
    saved and loaded. *)
Lemma db_load_db_save_pca_database :
  exists (tset tdata : stream) (db' : Database.database_t binary64),
    Database.db_save print_entry pca_database = Ok (tset, tdata) /\
    tdata = Database.data_file_bytes (Database.stored_matrices pca_database) /\
    Database.db_load scan_entry (Database.db_construct 1 0 0) tset tdata = Ok db' /\
    Database.entries db' = Database.saved_entries pca_database /\
    Database.mean_face db' = Database.mean_face pca_database /\
    Database.W_pca_tr db' = Database.W_pca_tr pca_database /\
    Database.P_pca db' = Database.P_pca pca_database /\
    (Database.truth (Database.lda pca_database) = true ->
       Database.W_lda_tr db' = Database.W_lda_tr pca_database /\
       Database.P_lda db' = Database.P_lda pca_database) /\
    (Database.truth (Database.ica pca_database) = true ->
       Database.W_ica_tr db' = Database.W_ica_tr pca_database /\
       Database.P_ica db' = Database.P_ica pca_database) /\
    (exists P m, Database.P_pca db' = Some P /\ Database.mean_face db' = Some m /\
                 Database.num_images db' = cols P /\
                 Database.num_dimensions db' = rows m).
Proof.
  apply (db_load_db_save binary64 binary64_rep binary64_laws print_entry scan_entry
           pca_database).
  - db_trained.
  - reflexivity.
  - eexists. split; reflexivity.
  - repeat constructor. intros rest. exists rest. split; reflexivity.
  - constructor; [simpl; lia | constructor].
Defined.

(** The database trained for PCA alone on an image with a name of 64 bytes:
    saved, and then loaded past the end of the block of the name. *)
Lemma db_load_name_overrun_witness :
  exists tset tdata : stream,
    Database.db_save print_entry long_name_database = Ok (tset, tdata) /\
    Database.db_load scan_entry (Database.db_construct 1 0 0) tset tdata = Undefined.
Proof.
  apply (db_load_name_overrun binary64 binary64_rep binary64_laws print_entry scan_entry
           long_name_database 0
           {| Database.ent_class := 1; Database.name := long_name |}).
  - db_trained.
  - reflexivity.
  - eexists. split; reflexivity.
  - repeat constructor. intros rest. exists rest. split; reflexivity.
  - reflexivity.
  - simpl. lia.
Defined.

(** ** The kernel, cell by cell *)

Section KernelFacts.
Context {T : Type} `{Precision T}.
Implicit Types (M A B C : matrix_t T).


Lemma shaped_zeros (r c : Z) : 0 <= r * c -> shaped r c (m_zeros r c).
Proof.
  intros Hrc. split; [reflexivity|]. split; [reflexivity|].
  simpl. rewrite length_replicate. lia.
Qed.

Lemma entries_zeros (r c : Z) : entries_are r c (m_zeros r c) (fun _ _ => p_of_int 0).
Proof.
  intros i j Hi Hj. unfold elem, elem_index. simpl.
  apply load_Ok; [nia|]. apply lookup_replicate_2. nia.
Qed.



Lemma subtract_columns_loop (r c : Z) M (a : matrix_t T) (f : Z -> Z -> T) (g : Z -> T) :
  0 <= r -> 0 <= c -> shaped r c M -> entries_are r c M f ->
  (forall j, 0 <= j < r -> elem a j 0 = Ok (g j)) ->
  exists M',
    for_loop 0 (cols M) (fun i M =>
      for_loop 0 (rows M) (fun j M =>
        let* x := elem M j i in
        let* y := elem a j 0 in
        set_elem M j i (p_sub x y)) M) M = Ok M' /\
    shaped r c M' /\ entries_are r c M' (fun i j => p_sub (f i j) (g i)).
Proof.
  intros Hr Hc Hsh Hf Hg. destruct Hsh as (Er & Ec & Hlen). rewrite Ec.
  destruct (matrix_for_cells2 r c c r (fun a b => b) (fun a b => a)
              (fun i M => for_loop 0 (rows M) (fun j M =>
                 let* x := elem M j i in
                 let* y := elem a j 0 in
                 set_elem M j i (p_sub x y)) M)
              (fun i j M => let* x := elem M j i in
                            let* y := elem a j 0 in
                            set_elem M j i (p_sub x y))
              (fun i j => p_sub (f j i) (g j)) M)
    as (M' & E & Hsh' & G & _);
    [lia | lia | split; [exact Er | split; [exact Ec | exact Hlen]] | lia | lia | | | ].
  - intros i M1 _ (Er1 & _ & _). rewrite Er1. reflexivity.
  - intros i j M1 Hi Hj _ E1. rewrite E1, (Hf j i Hj Hi), (Hg j Hj). reflexivity.
  - exists M'. split; [exact E|]. split; [exact Hsh'|].
    intros i j Hi Hj. apply G; assumption.
Qed.


Lemma m_mean_column_spec (r c : Z) M (f : Z -> Z -> T) :
  0 <= r -> 0 <= c -> shaped r c M -> entries_are r c M f ->
  exists a, m_mean_column M = Ok a /\ shaped r 1 a /\
    forall j, 0 <= j < r ->
      elem a j 0 = Ok (p_div (p_sum (fun i => f j i) c) (p_of_int c)).
Proof.
  intros Hr Hc (Er & Ec & Hlen) Hf. unfold m_mean_column. rewrite Er, Ec.
  destruct (for_loop_inv
              (fun i a => shaped r 1 a /\
                 forall j, 0 <= j < r ->
                   elem a j 0 = Ok (big_sum (p_of_int 0) p_add (fun i' => f j i') (Z.to_nat i)))
              0 c
              (fun i a => for_loop 0 r (fun j a =>
                 let* s := elem a j 0 in
                 let* x := elem M j i in
                 set_elem a j 0 (p_add s x)) a)
              (m_zeros r 1)) as (a1 & E1 & Hsh1 & Hsum).
  - exact Hc.
  - split; [apply shaped_zeros; lia|]. intros j Hj. apply entries_zeros; lia.
  - intros i a Hi (Hsha & Ha).
    destruct (matrix_for_cells r 1 r (fun b => b) (fun _ => 0)
                (fun j a => let* s := elem a j 0 in
                            let* x := elem M j i in
                            set_elem a j 0 (p_add s x))
                (fun j => p_add (big_sum (p_of_int 0) p_add (fun i' => f j i') (Z.to_nat i))
                                (f j i)) a)
      as (a' & E' & Hsh' & G & _); [lia | exact Hsha | lia | lia | |].
    + intros j a2 Hj _ E2. rewrite E2, (Ha j Hj), (Hf j i Hj Hi). reflexivity.
    + exists a'. split; [exact E'|]. split; [exact Hsh'|].
      intros j Hj. rewrite (G j Hj).
      replace (Z.to_nat (i + 1)) with (S (Z.to_nat i)) by lia.
      cbn [big_sum]. rewrite Z2Nat.id by lia. reflexivity.
  - rewrite E1. cbn [bind].
    destruct (matrix_for_cells r 1 r (fun b => b) (fun _ => 0)
                (fun i a => let* s := elem a i 0 in
                            set_elem a i 0 (p_div s (p_of_int c)))
                (fun j => p_div (p_sum (fun i => f j i) c) (p_of_int c)) a1)
      as (a' & E' & Hsh' & G & _); [lia | exact Hsh1 | lia | lia | |].
    + intros j a2 Hj _ E2. rewrite E2, (Hsum j Hj). reflexivity.
    + exists a'. split; [exact E'|]. split; [exact Hsh'|]. exact G.
Qed.


(** [cblas_dgemm] on buffers whose cells are known. *)
Lemma cblas_dgemm_spec (TransA TransB : CBLAS_TRANSPOSE) (m n k : Z) (alpha beta : T)
    (a b c : list (option T)) (lda ldb : Z) (fa fb fc : Z -> Z -> T) :
  0 <= m -> 0 <= n -> 0 <= k ->
  Z.of_nat (length c) = m * n ->
  (forall i l, 0 <= i < m -> 0 <= l < k -> load a (op_index TransA lda i l) = Ok (fa i l)) ->
  (forall l j, 0 <= l < k -> 0 <= j < n -> load b (op_index TransB ldb l j) = Ok (fb l j)) ->
  (forall i j, 0 <= i < m -> 0 <= j < n -> load c (i + j * m) = Ok (fc i j)) ->
  exists c', cblas_dgemm TransA TransB m n k alpha a lda b ldb beta c m = Ok c' /\
    Z.of_nat (length c') = m * n /\
    forall i j, 0 <= i < m -> 0 <= j < n ->
      load c' (i + j * m)
      = Ok (gemm_value alpha beta (p_sum (fun l => p_mul (fa i l) (fb l j)) k) (fc i j)).
Proof.
  intros Hm Hn Hk Hlen Ha Hb Hc. unfold cblas_dgemm.
  destruct (for_cells2 (fun (buf : list (option T)) (key : Z) => load buf key)
              (fun buf key x => store buf key x)
              (fun buf => Z.of_nat (length buf) = m * n)
              (fun key => 0 <= key < m * n)
              (fun buf key x Hbuf Hkey => buffer_set_spec (m * n) buf key x Hbuf Hkey)
              n m (fun j i => i + j * m)
              (fun j c => for_loop 0 m (fun i c =>
                 let* dot := for_loop 0 k (fun l acc =>
                               let* x := (let* u := load a (op_index TransA lda i l) in
                                          let* w := load b (op_index TransB ldb l j) in
                                          Ok (p_mul u w)) in
                               Ok (p_add acc x)) (p_of_int 0) in
                 let* v := (if p_eqb beta (p_of_int 0) then Ok (p_mul alpha dot)
                            else let* old := load c (i + j * m) in
                                 Ok (p_add (p_mul alpha dot) (p_mul beta old))) in
                 store c (i + j * m) v) c)
              (fun j i c =>
                 let* dot := for_loop 0 k (fun l acc =>
                               let* x := (let* u := load a (op_index TransA lda i l) in
                                          let* w := load b (op_index TransB ldb l j) in
                                          Ok (p_mul u w)) in
                               Ok (p_add acc x)) (p_of_int 0) in
                 let* v := (if p_eqb beta (p_of_int 0) then Ok (p_mul alpha dot)
                            else let* old := load c (i + j * m) in
                                 Ok (p_add (p_mul alpha dot) (p_mul beta old))) in
                 store c (i + j * m) v)
              (fun j i => gemm_value alpha beta
                            (p_sum (fun l => p_mul (fa i l) (fb l j)) k) (fc i j))
              c)
    as (c' & E & Hlen' & G & _).
  - exact Hn.
  - exact Hm.
  - exact Hlen.
  - intros j i Hj Hi. nia.
  - intros j i j' i' Hj Hi Hj' Hi' Hk'.
    destruct (elem_index_inj m i j i' j' Hi Hi' Hk'). auto.
  - reflexivity.
  - intros j i c1 Hj Hi _ E1.
    rewrite (for_loop_sum (p_of_int 0) p_add _ (fun l => p_mul (fa i l) (fb l j)) k Hk).
    + cbn [bind]. unfold gemm_value. destruct (p_eqb beta (p_of_int 0)); [reflexivity|].
      rewrite E1, (Hc i j Hi Hj). reflexivity.
    + intros l Hl. rewrite (Ha i l Hi Hl), (Hb l j Hl Hj). reflexivity.
  - exists c'. split; [exact E|]. split; [exact Hlen'|].
    intros i j Hi Hj. apply (G j i Hj Hi).
Qed.

Lemma m_product_spec (ra ca cb : Z) A B (fa fb : Z -> Z -> T) :
  0 <= ra -> 0 <= ca -> 0 <= cb ->
  shaped ra ca A -> shaped ca cb B ->
  entries_are ra ca A fa -> entries_are ca cb B fb ->
  exists C, m_product A B = Ok C /\ shaped ra cb C /\
    entries_are ra cb C
      (fun i j => gemm_value (p_of_int 1) (p_of_int 0)
                    (p_sum (fun l => p_mul (fa i l) (fb l j)) ca) (p_of_int 0)).
Proof.
  intros Hra Hca Hcb (ErA & EcA & HlenA) (ErB & EcB & HlenB) HfA HfB.
  unfold m_product. rewrite ErA, EcA, ErB, EcB.
  destruct (Z.eqb_spec ca ca); [|contradiction]. cbn [assert bind].
  cbn [rows cols data m_zeros].
  destruct (cblas_dgemm_spec CblasNoTrans CblasNoTrans ra cb ca (p_of_int 1) (p_of_int 0)
              (data A) (data B) (replicate (Z.to_nat (ra * cb)) (Some (p_of_int 0)))
              ra ca fa fb (fun _ _ => p_of_int 0))
    as (d & E & Hlen & G); [lia | lia | lia | | | | |].
  - rewrite length_replicate. nia.
  - intros i l Hi Hl. rewrite <- (HfA i l Hi Hl).
    unfold elem, elem_index, op_index. rewrite ErA. reflexivity.
  - intros l j Hl Hj. rewrite <- (HfB l j Hl Hj).
    unfold elem, elem_index, op_index. rewrite ErB. reflexivity.
  - intros i j Hi Hj. apply load_Ok; [nia|]. apply lookup_replicate_2. nia.
  - rewrite E. cbn [bind]. eexists. split; [reflexivity|].
    split; [split; [reflexivity | split; [reflexivity | exact Hlen]]|].
    intros i j Hi Hj. unfold elem, elem_index. cbn [with_data rows data]. apply G; assumption.
Qed.




End KernelFacts.

(** ** Sums of reals *)

Section RealSums.
Local Open Scope R_scope.

Lemma Rsum_0 (f : Z -> R) : Rsum f 0 = 0.
Proof. reflexivity. Qed.

Lemma Rsum_S (f : Z -> R) (n : Z) : (0 <= n)%Z -> Rsum f (n + 1) = Rsum f n + f n.
Proof.
  intros Hn. unfold Rsum, p_sum. replace (Z.to_nat (n + 1)) with (S (Z.to_nat n)) by lia.
  cbn [big_sum]. rewrite Z2Nat.id by lia. reflexivity.
Qed.

(** Induction on the upper bound of a sum. *)
Lemma Rsum_ind (P : Z -> Prop) :
  P 0%Z -> (forall n, (0 <= n)%Z -> P n -> P (n + 1)%Z) -> forall n, (0 <= n)%Z -> P n.
Proof. intros H0 HS n Hn. apply (natlike_ind P); [exact H0 | exact HS | exact Hn]. Qed.

Lemma Rsum_ext (f g : Z -> R) (n : Z) :
  (forall k, (0 <= k < n)%Z -> f k = g k) -> Rsum f n = Rsum g n.
Proof.
  destruct (Z_le_gt_dec 0 n) as [Hn|Hn].
  - revert f g. pattern n. apply Rsum_ind; [reflexivity | | exact Hn].
    intros m Hm IH f g Hfg. rewrite !Rsum_S by lia.
    rewrite (IH f g) by (intros; apply Hfg; lia). rewrite Hfg by lia. reflexivity.
  - intros _. unfold Rsum, p_sum. replace (Z.to_nat n) with O by lia. reflexivity.
Qed.

Lemma Rsum_scal (c : R) (f : Z -> R) (n : Z) :
  (0 <= n)%Z -> Rsum (fun k => c * f k) n = c * Rsum f n.
Proof.
  intros Hn. pattern n. apply Rsum_ind; [| | exact Hn].
  - rewrite !Rsum_0. ring.
  - intros m Hm IH. rewrite !Rsum_S by lia. rewrite IH. ring.
Qed.


Lemma Rsum_plus (f g : Z -> R) (n : Z) :
  (0 <= n)%Z -> Rsum (fun k => f k + g k) n = Rsum f n + Rsum g n.
Proof.
  intros Hn. pattern n. apply Rsum_ind; [| | exact Hn].
  - rewrite !Rsum_0. ring.
  - intros m Hm IH. rewrite !Rsum_S by lia. rewrite IH. ring.
Qed.

Lemma Rsum_zero (n : Z) : (0 <= n)%Z -> Rsum (fun _ => 0) n = 0.
Proof.
  intros Hn. pattern n. apply Rsum_ind; [reflexivity | | exact Hn].
  intros m Hm IH. rewrite Rsum_S by lia. rewrite IH. ring.
Qed.

Lemma Rsum_nonneg (f : Z -> R) (n : Z) :
  (0 <= n)%Z -> (forall k, (0 <= k < n)%Z -> 0 <= f k) -> 0 <= Rsum f n.
Proof.
  intros Hn. pattern n. apply Rsum_ind; [| | exact Hn].
  - intros _. rewrite Rsum_0. lra.
  - intros m Hm IH Hf. rewrite Rsum_S by lia.
    assert (0 <= Rsum f m) by (apply IH; intros; apply Hf; lia).
    assert (0 <= f m) by (apply Hf; lia). lra.
Qed.

Lemma Rsum_swap (g : Z -> Z -> R) (n m : Z) :
  (0 <= n)%Z -> (0 <= m)%Z ->
  Rsum (fun i => Rsum (fun k => g i k) m) n = Rsum (fun k => Rsum (fun i => g i k) n) m.
Proof.
  intros Hn Hm. pattern n. apply Rsum_ind; [| | exact Hn].
  - rewrite Rsum_0. symmetry. rewrite (Rsum_ext _ (fun _ => 0)); [apply Rsum_zero; lia|].
    intros. apply Rsum_0.
  - intros p Hp IH. rewrite Rsum_S by lia. rewrite IH.
    rewrite <- Rsum_plus by lia. apply Rsum_ext. intros k Hk.
    rewrite Rsum_S by lia. reflexivity.
Qed.


(** The only value of the entry selected by an identity column. *)
Lemma Rsum_delta (f : Z -> R) (n j : Z) :
  (0 <= j < n)%Z ->
  Rsum (fun l => f l * (if (l =? j)%Z then 1 else 0)) n = f j.
Proof.
  intros Hj.
  assert (G : forall m, (0 <= m)%Z ->
            Rsum (fun l => f l * (if (l =? j)%Z then 1 else 0)) m
            = if (j <? m)%Z then f j else 0).
  { intros m Hm. pattern m. apply Rsum_ind; [| | exact Hm].
    - rewrite Rsum_0. destruct (Z.ltb_spec j 0); [lia | reflexivity].
    - intros p Hp IH. rewrite Rsum_S by lia. rewrite IH.
      destruct (Z.ltb_spec j p); destruct (Z.ltb_spec j (p + 1)); destruct (Z.eqb_spec p j);
        try lia; subst; ring. }
  rewrite G by lia. destruct (Z.ltb_spec j n); [reflexivity | lia].
Qed.

End RealSums.

(** ** Covariance in exact arithmetic *)

Section RealCovariance.
Local Open Scope R_scope.
Implicit Types (M C : matrix_t R).


Lemma wf_entry M : wf_matrix M -> entries_are (rows M) (cols M) M (entry M).
Proof.
  intros Hwf i j Hi Hj. unfold entry.
  destruct (wf_initialised M Hwf i j Hi Hj) as [v ->]. reflexivity.
Qed.











End RealCovariance.







(** ** Product with the identity *)

Section ProductIdentity.
Context {T : Type} `{Precision T}.
Implicit Types (M C : matrix_t T).



End ProductIdentity.






(** ** Further properties *)

Section FirstMinimum.
Context {T : Type} `{Precision T}.
Implicit Types (P P_test A B : matrix_t T).

Lemma m_dist_L2_spec A (i : Z) B (j : Z) (r : Z) (fa fb : Z -> T) :
  rows A = r -> rows B = r -> 0 <= r ->
  (forall k, 0 <= k < r -> elem A k i = Ok (fa k)) ->
  (forall k, 0 <= k < r -> elem B k j = Ok (fb k)) ->
  m_dist_L2 A i B j
  = Ok (p_sum (fun k => p_mul (p_sub (fa k) (fb k)) (p_sub (fa k) (fb k))) r).
Proof.
  intros ErA ErB Hr Ha Hb. unfold m_dist_L2. rewrite ErA, ErB, Z.eqb_refl.
  cbn [assert bind].
  apply (for_loop_sum (p_of_int 0) p_add _
           (fun k => p_mul (p_sub (fa k) (fb k)) (p_sub (fa k) (fb k))) r Hr).
  intros k Hk. rewrite (Ha k Hk), (Hb k Hk). reflexivity.
Qed.

(** When no distance equals the initial -1 and [<] orders the distances, the
    scan returns the first column at least distance. *)
Lemma nearest_neighbor_minimum P P_test (d : Database.dist_func_t T) (v : Z -> T) :
  p_eqb (p_of_int (-1)) (p_of_int (-1)) = true ->
  1 <= cols P ->
  (forall j, 0 <= j < cols P -> d P_test 0 P j = Ok (v j)) ->
  (forall j, 0 <= j < cols P -> p_eqb (v j) (p_of_int (-1)) = false) ->
  (forall a, p_ltb (v a) (v a) = false) ->
  (forall a b c, p_ltb (v a) (v b) = true -> p_ltb (v b) (v c) = true ->
                 p_ltb (v a) (v c) = true) ->
  (forall a b c, p_ltb (v a) (v b) = false -> p_ltb (v b) (v c) = false ->
                 p_ltb (v a) (v c) = false) ->
  exists r, Database.nearest_neighbor P P_test d = Ok r /\
            0 <= r < cols P /\
            (forall k, 0 <= k < cols P -> p_ltb (v k) (v r) = false) /\
            (forall k, 0 <= k < r -> p_ltb (v r) (v k) = true).
Proof.
  intros Hsent Hc Hd Hno Hirr Htrans Hneg. rewrite nearest_neighbor_unfold.
  destruct (for_loop_inv
              (fun j st =>
                 (j = 0 -> st = (-1, p_of_int (-1))) /\
                 (0 < j -> 0 <= fst st < j /\ snd st = v (fst st) /\
                           (forall k, 0 <= k < j -> p_ltb (v k) (v (fst st)) = false) /\
                           (forall k, 0 <= k < fst st -> p_ltb (v (fst st)) (v k) = true)))
              0 (cols P) (Database.scan_step P P_test d) (-1, p_of_int (-1)))
    as ([mi md] & E & _ & I1).
  - lia.
  - split; [reflexivity | lia].
  - intros j [mi md] Hj [J0 J1]. unfold Database.scan_step. rewrite (Hd j Hj). cbn [bind].
    destruct (Z.eq_dec j 0) as [->|Hne].
    + injection (J0 eq_refl) as -> ->. rewrite Hsent. cbn [orb].
      eexists. split; [reflexivity|]. cbn [fst snd]. split; [lia|]. intros _.
      split; [lia|]. split; [reflexivity|]. split.
      * intros k Hk. replace k with 0 by lia. apply Hirr.
      * intros k Hk. lia.
    + destruct J1 as (Hmi & Hmd & Hmin & Hfirst); [lia|]. cbn [fst snd] in *. subst md.
      rewrite (Hno mi) by lia. cbn [orb].
      destruct (p_ltb (v j) (v mi)) eqn:Hlt.
      * eexists. split; [reflexivity|]. cbn [fst snd]. split; [lia|]. intros _.
        split; [lia|]. split; [reflexivity|]. split.
        -- intros k Hk. destruct (Z.eq_dec k j) as [->|Hkj]; [apply Hirr|].
           destruct (p_ltb (v k) (v j)) eqn:Hkj'; [|reflexivity].
           rewrite <- (Hmin k) by lia. symmetry. apply (Htrans k j mi); assumption.
        -- intros k Hk. destruct (p_ltb (v j) (v k)) eqn:Hjk; [reflexivity|].
           rewrite <- Hlt. symmetry. apply (Hneg j k mi); [exact Hjk | apply Hmin; lia].
      * eexists. split; [reflexivity|]. cbn [fst snd]. split; [lia|]. intros _.
        split; [lia|]. split; [reflexivity|]. split.
        -- intros k Hk. destruct (Z.eq_dec k j) as [->|Hkj]; [exact Hlt | apply Hmin; lia].
        -- exact Hfirst.
  - rewrite E. cbn [bind fst]. destruct I1 as (Hmi & _ & Hmin & Hfirst); [lia|].
    cbn [fst snd] in *. exists mi. auto.
Qed.

End FirstMinimum.

(** With the squared-L2 distance in exact arithmetic, [nearest_neighbor]
    returns the index of the column of [P] closest to the query, the smallest
    such index when several columns are as close. *)
Theorem nearest_neighbor_L2_first_minimum (P P_test : matrix_t R) :
  wf_matrix P -> wf_matrix P_test -> rows P_test = rows P ->
  exists r, Database.nearest_neighbor P P_test m_dist_L2 = Ok r /\
            0 <= r < cols P /\
            (forall k, 0 <= k < cols P ->
               (squared_distance P P_test r <= squared_distance P P_test k)%R) /\
            (forall k, 0 <= k < r ->
               (squared_distance P P_test r < squared_distance P P_test k)%R).
Proof.
  intros HP HPt Hrows.
  pose proof (wf_entry P HP) as HfP. pose proof (wf_entry P_test HPt) as HfPt.
  destruct HP as (HrP & HcP & _). destruct HPt as (_ & HcPt & _).
  assert (Hlt : forall x y : R, p_ltb x y = true <-> (x < y)%R).
  { intros x y. cbn [p_ltb real_precision]. destruct (Rlt_dec x y); split; intros; auto;
      discriminate. }
  assert (Hnlt : forall x y : R, p_ltb x y = false <-> (y <= x)%R).
  { intros x y. cbn [p_ltb real_precision]. destruct (Rlt_dec x y); split; intros; auto;
      try discriminate; lra. }
  destruct (nearest_neighbor_minimum P P_test m_dist_L2 (squared_distance P P_test))
    as (r & E & Hr & Hmin & Hfirst).
  - cbn [p_eqb real_precision]. destruct (Req_dec_T (p_of_int (-1)) (p_of_int (-1)));
      [reflexivity | contradiction].
  - lia.
  - intros j Hj.
    rewrite (m_dist_L2_spec P_test 0 P j (rows P) (fun t => entry P_test t 0)
               (fun t => entry P t j)); [reflexivity | exact Hrows | reflexivity | lia | |].
    + intros k Hk. apply HfPt; lia.
    + intros k Hk. apply HfP; lia.
  - intros j Hj. cbn [p_eqb p_of_int real_precision].
    destruct (Req_dec_T (squared_distance P P_test j) (-1)) as [Heq|]; [|reflexivity].
    assert (0 <= squared_distance P P_test j)%R.
    { apply Rsum_nonneg; [lia|]. intros t _. apply Rle_0_sqr. }
    lra.
  - intros a. apply Hnlt. lra.
  - intros a b c Hab Hbc. apply Hlt in Hab, Hbc. apply Hlt. lra.
  - intros a b c Hab Hbc. apply Hnlt in Hab, Hbc. apply Hnlt. lra.
  - exists r. split; [exact E|]. split; [exact Hr|]. split.
    + intros k Hk. apply Hnlt. apply Hmin. exact Hk.
    + intros k Hk. apply Hlt. apply Hfirst. exact Hk.
Qed.

(** Two columns at the same distance from the query: the first is returned. *)
Lemma nearest_neighbor_L2_first_minimum_witness :
  exists r,
    Database.nearest_neighbor
      {| rows := 1; cols := 2; data := [Some 1%R; Some 1%R] |}
      {| rows := 1; cols := 1; data := [Some 0%R] |} m_dist_L2 = Ok r /\
    0 <= r < 2 /\
    (forall k, 0 <= k < 2 ->
       (squared_distance {| rows := 1; cols := 2; data := [Some 1%R; Some 1%R] |}
                         {| rows := 1; cols := 1; data := [Some 0%R] |} r
        <= squared_distance {| rows := 1; cols := 2; data := [Some 1%R; Some 1%R] |}
                            {| rows := 1; cols := 1; data := [Some 0%R] |} k)%R) /\
    (forall k, 0 <= k < r ->
       (squared_distance {| rows := 1; cols := 2; data := [Some 1%R; Some 1%R] |}
                         {| rows := 1; cols := 1; data := [Some 0%R] |} r
        < squared_distance {| rows := 1; cols := 2; data := [Some 1%R; Some 1%R] |}
                           {| rows := 1; cols := 1; data := [Some 0%R] |} k)%R).
Proof.
  apply (nearest_neighbor_L2_first_minimum
           {| rows := 1; cols := 2; data := [Some 1%R; Some 1%R] |}
           {| rows := 1; cols := 1; data := [Some 0%R] |}).
  - split; [reflexivity|]. split; [reflexivity|]. split; [reflexivity|].
    repeat constructor; eexists; reflexivity.
  - split; [reflexivity|]. split; [reflexivity|]. split; [reflexivity|].
    repeat constructor; eexists; reflexivity.
  - reflexivity.
Defined.

(** ** Matrices as values: equality and whole-matrix updates *)

Section MatrixValues.
Context {T : Type}.
Implicit Types (M : matrix_t T).

(** Two matrices of the same shape whose cells hold the same values are the
    same matrix. *)
Lemma matrix_ext (r c : Z) M1 M2 :
  0 <= r -> shaped r c M1 -> shaped r c M2 ->
  (forall i j, 0 <= i < r -> 0 <= j < c ->
     exists v, elem M1 i j = Ok v /\ elem M2 i j = Ok v) ->
  M1 = M2.
Proof.
  intros Hr0 (Er1 & Ec1 & Hl1) (Er2 & Ec2 & Hl2) Hcells.
  destruct M1 as [r1 c1 d1], M2 as [r2 c2 d2]. cbn [rows cols data] in *.
  subst r1 c1 r2 c2.
  f_equal. apply list_eq. intros n.
  destruct (Nat.lt_ge_cases n (length d1)) as [Hlt|Hge].
  - set (k := Z.of_nat n).
    assert (Hr : 0 < r).
    { destruct (Z.eq_dec r 0) as [->|]; [rewrite Z.mul_0_l in Hl1; lia | lia]. }
    assert (Hk : 0 <= k < r * c) by lia.
    assert (Hj : 0 <= k / r < c).
    { split; [apply Z.div_pos; lia|]. apply Z.div_lt_upper_bound; lia. }
    destruct (Hcells (k mod r) (k / r)) as (v & E1 & E2);
      [apply Z.mod_pos_bound; lia | exact Hj |].
    unfold elem, elem_index in E1, E2. cbn [rows data] in E1, E2.
    replace (k mod r + k / r * r) with k in E1, E2
      by (rewrite (Z.div_mod k r) at 1; lia).
    apply load_Ok_inv in E1, E2. destruct E1 as [_ E1], E2 as [_ E2].
    unfold k in E1, E2. rewrite Nat2Z.id in E1, E2. congruence.
  - rewrite (lookup_ge_None_2 d1), (lookup_ge_None_2 d2) by lia. reflexivity.
Qed.

(** A loop nest that visits the cells row by row and assigns each one. *)
Lemma rowwise_update (r c : Z) M0 (g : Z -> Z -> T)
    (body : Z -> Z -> matrix_t T -> outcome (matrix_t T)) :
  0 <= r -> 0 <= c -> shaped r c M0 ->
  (forall i j M, 0 <= i < r -> 0 <= j < c -> shaped r c M ->
     elem M i j = elem M0 i j -> body i j M = set_elem M i j (g i j)) ->
  exists M', for_loop 0 r (fun i M => for_loop 0 (cols M) (fun j M => body i j M) M) M0
             = Ok M' /\
             shaped r c M' /\ entries_are r c M' g.
Proof.
  intros Hr Hc Hsh Hbody.
  destruct (matrix_for_cells2 r c r c (fun a b => a) (fun a b => b)
              (fun i M => for_loop 0 (cols M) (fun j M => body i j M) M)
              body g M0)
    as (M' & E & Hsh' & G & _); [lia | lia | exact Hsh | lia | lia | | | ].
  - intros a M1 _ (_ & Ec1 & _). rewrite Ec1. reflexivity.
  - intros a b M1 Ha Hb Hsh1 E1. apply Hbody; assumption.
  - exists M'. split; [exact E|]. split; [exact Hsh'|]. exact G.
Qed.

Lemma wf_of_entries (r c : Z) M (f : Z -> Z -> T) :
  0 < r -> 0 < c -> shaped r c M -> entries_are r c M f -> wf_matrix M.
Proof.
  intros Hr Hc (Er & Ec & Hlen) Hf. apply wf_intro; try lia.
  intros i j Hi Hj. exists (f i j). apply Hf; lia.
Qed.

End MatrixValues.

(** ** Transposition, sums and differences, element-wise maps *)

Section WholeMatrixOps.
Context {T : Type} `{Precision T}.
Implicit Types (M A B : matrix_t T).

Lemma m_transpose_cells (r c : Z) M (f : Z -> Z -> T) :
  0 <= r -> 0 <= c -> shaped r c M -> entries_are r c M f ->
  exists Tr, m_transpose M = Ok Tr /\ shaped c r Tr /\
             entries_are c r Tr (fun i j => f j i).
Proof.
  intros Hr Hc (Er & Ec & Hlen) Hf. unfold m_transpose.
  cbn [rows cols m_initialize]. rewrite Er, Ec.
  apply (rowwise_update c r (m_initialize c r) (fun i j => f j i)
           (fun i j Tr => let* x := elem M j i in set_elem Tr i j x));
    [lia | lia | apply shaped_initialize; nia |].
  intros i j Tr Hi Hj _ _. rewrite (Hf j i Hj Hi). reflexivity.
Qed.

(** A loop nest over the cells of [A] that combines each with the cell of
    [B] at the same place. *)
Lemma cellwise_cells (op : T -> T -> T) (r c : Z) A B (fa fb : Z -> Z -> T) :
  0 <= r -> 0 <= c -> shaped r c A -> entries_are r c A fa -> entries_are r c B fb ->
  exists S,
    for_loop 0 (rows A) (fun i A =>
      for_loop 0 (cols A) (fun j A =>
        let* x := elem A i j in
        let* y := elem B i j in
        set_elem A i j (op x y)) A) A = Ok S /\
    shaped r c S /\ entries_are r c S (fun i j => op (fa i j) (fb i j)).
Proof.
  intros Hr Hc Hsh Ha Hb. pose proof Hsh as (Er & _ & _). rewrite Er.
  apply (rowwise_update r c A (fun i j => op (fa i j) (fb i j))
           (fun i j A => let* x := elem A i j in
                         let* y := elem B i j in
                         set_elem A i j (op x y)));
    [lia | lia | exact Hsh |].
  intros i j M Hi Hj _ E. rewrite E, (Ha i j Hi Hj), (Hb i j Hi Hj). reflexivity.
Qed.

Lemma m_add_cells (r c : Z) A B (fa fb : Z -> Z -> T) :
  0 <= r -> 0 <= c -> shaped r c A -> shaped r c B ->
  entries_are r c A fa -> entries_are r c B fb ->
  exists S, m_add A B = Ok S /\ shaped r c S /\
            entries_are r c S (fun i j => p_add (fa i j) (fb i j)).
Proof.
  intros Hr Hc HA HB Ha Hb. unfold m_add.
  destruct HA as (ErA & EcA & HlA), HB as (ErB & EcB & HlB).
  replace ((rows A =? rows B) && (cols A =? cols B)) with true
    by (rewrite ErA, EcA, ErB, EcB, !Z.eqb_refl; reflexivity).
  cbn [assert bind].
  apply (cellwise_cells p_add r c A B fa fb); auto. split; auto.
Qed.

Lemma m_subtract_cells (r c : Z) A B (fa fb : Z -> Z -> T) :
  0 <= r -> 0 <= c -> shaped r c A -> shaped r c B ->
  entries_are r c A fa -> entries_are r c B fb ->
  exists S, m_subtract A B = Ok S /\ shaped r c S /\
            entries_are r c S (fun i j => p_sub (fa i j) (fb i j)).
Proof.
  intros Hr Hc HA HB Ha Hb. unfold m_subtract.
  destruct HA as (ErA & EcA & HlA), HB as (ErB & EcB & HlB).
  replace ((rows A =? rows B) && (cols A =? cols B)) with true
    by (rewrite ErA, EcA, ErB, EcB, !Z.eqb_refl; reflexivity).
  cbn [assert bind].
  apply (cellwise_cells p_sub r c A B fa fb); auto. split; auto.
Qed.

Lemma m_elem_apply_cells (g : T -> T) (r c : Z) M (f : Z -> Z -> T) :
  0 <= r -> 0 <= c -> shaped r c M -> entries_are r c M f ->
  exists M', MatrixDual.m_elem_apply M g = Ok M' /\ shaped r c M' /\
             entries_are r c M' (fun i j => g (f i j)).
Proof.
  intros Hr Hc Hsh Hf. unfold MatrixDual.m_elem_apply.
  pose proof Hsh as (Er & _ & _). rewrite Er.
  apply (rowwise_update r c M (fun i j => g (f i j))
           (fun i j M => let* x := elem M i j in set_elem M i j (g x)));
    [lia | lia | exact Hsh |].
  intros i j M1 Hi Hj _ E. rewrite E, (Hf i j Hi Hj). reflexivity.
Qed.

End WholeMatrixOps.

(** [m_transpose] returns the matrix with [Tr(i,j) = M(j,i)], and the
    transpose of that matrix is [M] itself. *)
Theorem m_transpose_involutive (T : Type) (M : matrix_t T) :
  wf_matrix M ->
  exists Tr, m_transpose M = Ok Tr /\
    rows Tr = cols M /\ cols Tr = rows M /\
    (forall i j, 0 <= i < cols M -> 0 <= j < rows M -> elem Tr i j = elem M j i) /\
    m_transpose Tr = Ok M.
Proof.
  intros Hwf. destruct (wf_elem_fun M Hwf) as [f Hf].
  pose proof (wf_shaped M Hwf) as Hsh. destruct Hwf as (Hr & Hc & _).
  destruct (m_transpose_cells (rows M) (cols M) M f) as (Tr & E & HshT & HT);
    [lia | lia | exact Hsh | exact Hf |].
  destruct (m_transpose_cells (cols M) (rows M) Tr (fun i j => f j i)) as (M' & E' & Hsh' & HM');
    [lia | lia | exact HshT | exact HT |].
  exists Tr. split; [exact E|]. destruct HshT as (ErT & EcT & HlT).
  split; [exact ErT|]. split; [exact EcT|]. split.
  - intros i j Hi Hj. rewrite (HT i j Hi Hj), (Hf j i Hj Hi). reflexivity.
  - rewrite E'. f_equal. apply (matrix_ext (rows M) (cols M)); [lia | exact Hsh' | exact Hsh |].
    intros i j Hi Hj. exists (f i j). split; [apply (HM' i j Hi Hj) | apply (Hf i j Hi Hj)].
Qed.

(** [m_add] and [m_subtract] return exactly when the two matrices have the
    same shape, and are stopped by the assertion otherwise; they keep the
    shape of [A] and combine the cells place by place. *)
Theorem m_add_m_subtract_cells (T : Type) (prec : Precision T) (A B : matrix_t T) :
  wf_matrix A -> wf_matrix B ->
  (rows A = rows B /\ cols A = cols B ->
     exists S D, m_add A B = Ok S /\ m_subtract A B = Ok D /\
       rows S = rows A /\ cols S = cols A /\ rows D = rows A /\ cols D = cols A /\
       forall i j, 0 <= i < rows A -> 0 <= j < cols A ->
         exists x y, elem A i j = Ok x /\ elem B i j = Ok y /\
                     elem S i j = Ok (p_add x y) /\ elem D i j = Ok (p_sub x y)) /\
  (~ (rows A = rows B /\ cols A = cols B) ->
     m_add A B = Abort /\ m_subtract A B = Abort).
Proof.
  intros HA HB. split.
  - intros [Er Ec].
    destruct (wf_elem_fun A HA) as [fa Ha]. destruct (wf_elem_fun B HB) as [fb Hb].
    pose proof (wf_shaped A HA) as HshA. pose proof (wf_shaped B HB) as HshB.
    rewrite <- Er, <- Ec in HshB, Hb. destruct HA as (Hr & Hc & _).
    destruct (m_add_cells (rows A) (cols A) A B fa fb) as (S & ES & (ErS & EcS & _) & HS);
      [lia | lia | assumption..|].
    destruct (m_subtract_cells (rows A) (cols A) A B fa fb) as (D & ED & (ErD & EcD & _) & HD);
      [lia | lia | assumption..|].
    exists S, D. repeat (split; [assumption|]).
    intros i j Hi Hj. exists (fa i j), (fb i j). auto.
  - intros Hne. unfold m_add, m_subtract.
    destruct (Z.eqb_spec (rows A) (rows B)); destruct (Z.eqb_spec (cols A) (cols B));
      cbn [andb assert bind]; try (split; reflexivity). tauto.
Qed.

Lemma m_transpose_involutive_witness :
  exists Tr, m_transpose small_doubles = Ok Tr /\
    rows Tr = cols small_doubles /\ cols Tr = rows small_doubles /\
    (forall i j, 0 <= i < cols small_doubles -> 0 <= j < rows small_doubles ->
                 elem Tr i j = elem small_doubles j i) /\
    m_transpose Tr = Ok small_doubles.
Proof.
  apply (m_transpose_involutive float small_doubles).
  split; [reflexivity|]. split; [reflexivity|]. split; [reflexivity|].
  repeat constructor; eexists; reflexivity.
Defined.

Lemma m_add_m_subtract_cells_witness :
  (rows small_doubles = rows small_doubles /\ cols small_doubles = cols small_doubles ->
     exists S D, m_add small_doubles small_doubles = Ok S /\
       m_subtract small_doubles small_doubles = Ok D /\
       rows S = rows small_doubles /\ cols S = cols small_doubles /\
       rows D = rows small_doubles /\ cols D = cols small_doubles /\
       forall i j, 0 <= i < rows small_doubles -> 0 <= j < cols small_doubles ->
         exists x y, elem small_doubles i j = Ok x /\ elem small_doubles i j = Ok y /\
                     elem S i j = Ok (p_add x y) /\ elem D i j = Ok (p_sub x y)) /\
  (~ (rows small_doubles = rows small_doubles /\ cols small_doubles = cols small_doubles) ->
     m_add small_doubles small_doubles = Abort /\
     m_subtract small_doubles small_doubles = Abort).
Proof.
  apply (m_add_m_subtract_cells float double_precision small_doubles small_doubles).
  - split; [reflexivity|]. split; [reflexivity|]. split; [reflexivity|].
    repeat constructor; eexists; reflexivity.
  - split; [reflexivity|]. split; [reflexivity|]. split; [reflexivity|].
    repeat constructor; eexists; reflexivity.
Defined.

(** Applying [f] and then [g] to every element with [m_elem_apply] is
    applying their composition once; the shape is kept and the element at
    [(i, j)] becomes [g (f (M(i,j)))]. *)
Theorem m_elem_apply_compose (T : Type) (M : matrix_t T) (f g : T -> T) :
  wf_matrix M ->
  exists M1 M2, MatrixDual.m_elem_apply M f = Ok M1 /\
    MatrixDual.m_elem_apply M1 g = Ok M2 /\
    MatrixDual.m_elem_apply M (fun x => g (f x)) = Ok M2 /\
    rows M2 = rows M /\ cols M2 = cols M /\
    forall i j, 0 <= i < rows M -> 0 <= j < cols M ->
      exists x, elem M i j = Ok x /\ elem M2 i j = Ok (g (f x)).
Proof.
  intros Hwf. destruct (wf_elem_fun M Hwf) as [h Hh].
  pose proof (wf_shaped M Hwf) as Hsh. destruct Hwf as (Hr & Hc & _).
  destruct (m_elem_apply_cells f (rows M) (cols M) M h) as (M1 & E1 & Hsh1 & H1);
    [lia | lia | exact Hsh | exact Hh |].
  destruct (m_elem_apply_cells g (rows M) (cols M) M1 (fun i j => f (h i j)))
    as (M2 & E2 & Hsh2 & H2); [lia | lia | exact Hsh1 | exact H1 |].
  destruct (m_elem_apply_cells (fun x => g (f x)) (rows M) (cols M) M h)
    as (M3 & E3 & Hsh3 & H3); [lia | lia | exact Hsh | exact Hh |].
  exists M1, M2. split; [exact E1|]. split; [exact E2|]. split.
  - rewrite E3. f_equal. apply (matrix_ext (rows M) (cols M)); [lia | exact Hsh3 | exact Hsh2 |].
    intros i j Hi Hj. eexists. split; [apply (H3 i j Hi Hj) | apply (H2 i j Hi Hj)].
  - destruct Hsh2 as (Er2 & Ec2 & _). split; [exact Er2|]. split; [exact Ec2|].
    intros i j Hi Hj. exists (h i j). split; [apply (Hh i j Hi Hj) | apply (H2 i j Hi Hj)].
Qed.

Lemma m_elem_apply_compose_witness :
  exists M1 M2, MatrixDual.m_elem_apply small_doubles PrimFloat.sqrt = Ok M1 /\
    MatrixDual.m_elem_apply M1 PrimFloat.opp = Ok M2 /\
    MatrixDual.m_elem_apply small_doubles (fun x => PrimFloat.opp (PrimFloat.sqrt x)) = Ok M2 /\
    rows M2 = rows small_doubles /\ cols M2 = cols small_doubles /\
    forall i j, 0 <= i < rows small_doubles -> 0 <= j < cols small_doubles ->
      exists x, elem small_doubles i j = Ok x /\
                elem M2 i j = Ok (PrimFloat.opp (PrimFloat.sqrt x)).
Proof.
  apply (m_elem_apply_compose float small_doubles PrimFloat.sqrt PrimFloat.opp).
  split; [reflexivity|]. split; [reflexivity|]. split; [reflexivity|].
  repeat constructor; eexists; reflexivity.
Defined.

(** ** The algebra of the kernel in exact arithmetic *)

Section RealAlgebra.
Local Open Scope R_scope.
Implicit Types (M A B C : matrix_t R).


Lemma wf_pos M : wf_matrix M -> (0 < rows M)%Z /\ (0 < cols M)%Z.
Proof. intros (Hr & Hc & _). split; assumption. Qed.

End RealAlgebra.







(** In exact arithmetic [m_subtract] undoes [m_add]: adding [B] to [A] and
    subtracting [B] from the sum gives [A] back. *)
Theorem m_subtract_m_add (A B : matrix_t R) :
  wf_matrix A -> wf_matrix B -> rows A = rows B -> cols A = cols B ->
  exists S, m_add A B = Ok S /\ m_subtract S B = Ok A.
Proof.
  intros HA HB Er Ec. pose proof (wf_pos A HA) as [? ?].
  pose proof (wf_shaped A HA) as HshA. pose proof (wf_entry A HA) as HeA.
  pose proof (wf_shaped B HB) as HshB. pose proof (wf_entry B HB) as HeB.
  rewrite <- Er, <- Ec in HshB, HeB.
  destruct (m_add_cells (rows A) (cols A) A B _ _ ltac:(lia) ltac:(lia) HshA HshB HeA HeB)
    as (S & ES & HshS & HS).
  destruct (m_subtract_cells (rows A) (cols A) S B _ _ ltac:(lia) ltac:(lia) HshS HshB HS HeB)
    as (D & ED & HshD & HD).
  exists S. split; [exact ES|]. rewrite ED. f_equal.
  apply (matrix_ext (rows A) (cols A)); [lia | exact HshD | exact HshA |].
  intros i j Hi Hj. exists (entry A i j). split; [|apply (HeA i j Hi Hj)].
  rewrite (HD i j Hi Hj). f_equal. cbn [p_add p_sub real_precision]. ring.
Qed.

Lemma m_subtract_m_add_witness :
  exists S, m_add two_observations two_observations = Ok S /\
            m_subtract S two_observations = Ok two_observations.
Proof.
  apply (m_subtract_m_add two_observations two_observations).
  - split; [reflexivity|]. split; [reflexivity|]. split; [reflexivity|].
    repeat constructor; eexists; reflexivity.
  - split; [reflexivity|]. split; [reflexivity|]. split; [reflexivity|].
    repeat constructor; eexists; reflexivity.
  - reflexivity.
  - reflexivity.
Defined.

(** ** Reversing the columns *)

Section FlipColumns.
Context {T : Type} `{Precision T}.
Implicit Types (M : matrix_t T).

(** One row reversed in place: the cells before [j] and after [c - 1 - j]
    have been exchanged. *)
Lemma flip_row (r c i : Z) M (g : Z -> Z -> T) :
  0 <= i < r -> 0 <= c -> shaped r c M -> entries_are r c M g ->
  exists M',
    for_loop 0 (Z.quot (cols M) 2) (fun j M =>
      let* temp := elem M i j in
      let* x := elem M i (cols M - j - 1) in
      let* M := set_elem M i j x in
      set_elem M i (cols M - j - 1) temp) M = Ok M' /\
    shaped r c M' /\
    entries_are r c M' (fun a b => if a =? i then g a (c - 1 - b) else g a b).
Proof.
  intros Hi Hc Hsh Hg. pose proof Hsh as (Er & Ec & Hlen). rewrite Ec.
  rewrite Z.quot_div_nonneg by lia.
  assert (Hhalf : 0 <= c / 2) by (apply Z.div_pos; lia).
  assert (Hhalf2 : 2 * (c / 2) <= c) by (apply Z.mul_div_le; lia).
  assert (Hhalf3 : c < 2 * (c / 2) + 2).
  { pose proof (Z.mod_pos_bound c 2 eq_refl). pose proof (Z.div_mod c 2). lia. }
  destruct (for_loop_inv
              (fun j M1 => shaped r c M1 /\
                 entries_are r c M1
                   (fun a b => if (a =? i) && ((b <? j) || (c - 1 - j <? b))
                               then g a (c - 1 - b) else g a b))
              0 (c / 2)
              (fun j M =>
                 let* temp := elem M i j in
                 let* x := elem M i (cols M - j - 1) in
                 let* M := set_elem M i j x in
                 set_elem M i (cols M - j - 1) temp) M)
    as (M' & E & Hsh' & HM'); [lia | | |].
  - split; [exact Hsh|]. intros a b Ha Hb.
    replace ((b <? 0) || (c - 1 - 0 <? b)) with false
      by (destruct (Z.ltb_spec b 0); destruct (Z.ltb_spec (c - 1 - 0) b); try lia; reflexivity).
    rewrite andb_false_r. apply Hg; assumption.
  - intros j M1 Hj (Hsh1 & H1). pose proof Hsh1 as (Er1 & Ec1 & _).
    rewrite Ec1.
    rewrite (H1 i j) by lia. rewrite (H1 i (c - j - 1)) by lia. cbn [bind].
    rewrite Z.eqb_refl. cbn [andb].
    replace ((j <? j) || (c - 1 - j <? j)) with false
      by (destruct (Z.ltb_spec j j); destruct (Z.ltb_spec (c - 1 - j) j); try lia; reflexivity).
    replace ((c - j - 1 <? j) || (c - 1 - j <? c - j - 1)) with false
      by (destruct (Z.ltb_spec (c - j - 1) j); destruct (Z.ltb_spec (c - 1 - j) (c - j - 1));
          try lia; reflexivity).
    destruct (matrix_set_spec r c M1 (i, j) (g i (c - j - 1)) Hsh1)
      as (M2 & E2 & Hsh2 & G2 & N2); [split; cbn [fst snd]; lia|].
    cbn [fst snd] in E2, G2. rewrite E2. cbn [bind].
    assert (N2' : forall a b, 0 <= a < r -> 0 <= b < c -> (a, b) <> (i, j) ->
                              elem M2 a b = elem M1 a b).
    { intros a b Ha Hb Hne. apply (N2 (a, b)); [split; assumption | exact Hne]. }
    pose proof Hsh2 as (_ & Ec2 & _). rewrite Ec2.
    destruct (matrix_set_spec r c M2 (i, c - j - 1) (g i j) Hsh2)
      as (M3 & E3 & Hsh3 & G3 & N3); [split; cbn [fst snd]; lia|].
    cbn [fst snd] in E3, G3.
    assert (N3' : forall a b, 0 <= a < r -> 0 <= b < c -> (a, b) <> (i, c - j - 1) ->
                              elem M3 a b = elem M2 a b).
    { intros a b Ha Hb Hne. apply (N3 (a, b)); [split; assumption | exact Hne]. }
    exists M3. split; [exact E3|]. split; [exact Hsh3|].
    intros a b Ha Hb.
    destruct (Z.eq_dec a i) as [->|Hai].
    + rewrite Z.eqb_refl. cbn [andb].
      destruct (Z.eq_dec b (c - j - 1)) as [->|Hb1].
      * rewrite G3.
        replace ((c - j - 1 <? j + 1) || (c - 1 - (j + 1) <? c - j - 1)) with true
          by (destruct (Z.ltb_spec (c - j - 1) (j + 1));
              destruct (Z.ltb_spec (c - 1 - (j + 1)) (c - j - 1)); try lia; reflexivity).
        f_equal. f_equal. lia.
      * rewrite (N3' i b) by (lia || congruence).
        destruct (Z.eq_dec b j) as [->|Hb2].
        -- rewrite G2.
           replace ((j <? j + 1) || (c - 1 - (j + 1) <? j)) with true
             by (destruct (Z.ltb_spec j (j + 1)); [reflexivity | lia]).
           f_equal. f_equal. lia.
        -- rewrite (N2' i b) by (lia || congruence).
           rewrite (H1 i b) by lia. rewrite Z.eqb_refl. cbn [andb].
           replace ((b <? j + 1) || (c - 1 - (j + 1) <? b))
             with ((b <? j) || (c - 1 - j <? b)); [reflexivity|].
           destruct (Z.ltb_spec b j); destruct (Z.ltb_spec (c - 1 - j) b);
             destruct (Z.ltb_spec b (j + 1)); destruct (Z.ltb_spec (c - 1 - (j + 1)) b);
             try lia; reflexivity.
    + rewrite (N3' a b) by (lia || congruence).
      rewrite (N2' a b) by (lia || congruence).
      rewrite (H1 a b) by lia.
      destruct (Z.eqb_spec a i); [contradiction|]. reflexivity.
  - exists M'. split; [exact E|]. split; [exact Hsh'|].
    intros a b Ha Hb. rewrite (HM' a b Ha Hb).
    destruct (Z.eqb_spec a i) as [->|]; [|reflexivity]. cbn [andb].
    destruct (Z.ltb_spec b (c / 2)); destruct (Z.ltb_spec (c - 1 - c / 2) b);
      cbn [orb]; try reflexivity.
    f_equal. f_equal. lia.
Qed.

Lemma m_flipCols_cells (r c : Z) M (f : Z -> Z -> T) :
  0 <= r -> 0 <= c -> shaped r c M -> entries_are r c M f ->
  exists M', MatrixCpu.m_flipCols M = Ok M' /\ shaped r c M' /\
             entries_are r c M' (fun i j => f i (c - 1 - j)).
Proof.
  intros Hr Hc Hsh Hf. unfold MatrixCpu.m_flipCols.
  pose proof Hsh as (Er & _ & _). rewrite Er.
  destruct (for_loop_inv
              (fun i M1 => shaped r c M1 /\
                 entries_are r c M1 (fun a b => if a <? i then f a (c - 1 - b) else f a b))
              0 r
              (fun i M =>
                 for_loop 0 (Z.quot (cols M) 2) (fun j M =>
                   let* temp := elem M i j in
                   let* x := elem M i (cols M - j - 1) in
                   let* M := set_elem M i j x in
                   set_elem M i (cols M - j - 1) temp) M) M)
    as (M' & E & Hsh' & HM'); [lia | | |].
  - split; [exact Hsh|]. intros a b Ha Hb.
    destruct (Z.ltb_spec a 0); [lia|]. apply Hf; assumption.
  - intros i M1 Hi (Hsh1 & H1).
    destruct (flip_row r c i M1 _ Hi Hc Hsh1 H1) as (M2 & E2 & Hsh2 & H2).
    exists M2. split; [exact E2|]. split; [exact Hsh2|].
    intros a b Ha Hb. rewrite (H2 a b Ha Hb).
    destruct (Z.eqb_spec a i) as [->|Hne].
    + destruct (Z.ltb_spec i i); [lia|]. destruct (Z.ltb_spec i (i + 1)); [|lia].
      reflexivity.
    + destruct (Z.ltb_spec a i); destruct (Z.ltb_spec a (i + 1)); try lia; reflexivity.
  - exists M'. split; [exact E|]. split; [exact Hsh'|].
    intros a b Ha Hb. rewrite (HM' a b Ha Hb). destruct (Z.ltb_spec a r); [reflexivity | lia].
Qed.

End FlipColumns.

(** [m_flipCols] reverses the order of the columns, [F(i,j) = M(i, cols-1-j)],
    whatever the scalars are, and flipping the result gives [M] itself. *)
Theorem m_flipCols_involutive (T : Type) (M : matrix_t T) :
  wf_matrix M ->
  exists F, MatrixCpu.m_flipCols M = Ok F /\
    rows F = rows M /\ cols F = cols M /\
    (forall i j, 0 <= i < rows M -> 0 <= j < cols M ->
                 elem F i j = elem M i (cols M - 1 - j)) /\
    MatrixCpu.m_flipCols F = Ok M.
Proof.
  intros Hwf. destruct (wf_elem_fun M Hwf) as [f Hf].
  pose proof (wf_shaped M Hwf) as Hsh. destruct Hwf as (Hr & Hc & _).
  destruct (m_flipCols_cells (rows M) (cols M) M f) as (F & E & HshF & HF);
    [lia | lia | exact Hsh | exact Hf |].
  destruct (m_flipCols_cells (rows M) (cols M) F (fun i j => f i (cols M - 1 - j)))
    as (M' & E' & Hsh' & HM'); [lia | lia | exact HshF | exact HF |].
  exists F. split; [exact E|]. pose proof HshF as (ErF & EcF & _).
  split; [exact ErF|]. split; [exact EcF|]. split.
  - intros i j Hi Hj. rewrite (HF i j Hi Hj), (Hf i (cols M - 1 - j)) by lia. reflexivity.
  - rewrite E'. f_equal. apply (matrix_ext (rows M) (cols M)); [lia | exact Hsh' | exact Hsh |].
    intros i j Hi Hj. exists (f i j). split; [|apply (Hf i j Hi Hj)].
    rewrite (HM' i j Hi Hj). f_equal. f_equal. lia.
Qed.

Lemma m_flipCols_involutive_witness :
  exists F, MatrixCpu.m_flipCols small_doubles = Ok F /\
    rows F = rows small_doubles /\ cols F = cols small_doubles /\
    (forall i j, 0 <= i < rows small_doubles -> 0 <= j < cols small_doubles ->
                 elem F i j = elem small_doubles i (cols small_doubles - 1 - j)) /\
    MatrixCpu.m_flipCols F = Ok small_doubles.
Proof.
  apply (m_flipCols_involutive float small_doubles).
  split; [reflexivity|]. split; [reflexivity|]. split; [reflexivity|].
  repeat constructor; eexists; reflexivity.
Defined.

(** ** Copies between buffers, rows and columns assigned *)

Section BlockCopies.
Context {T : Type}.
Implicit Types (buf dst src : list (option T)) (M A B : matrix_t T).

(** What [load] returns only depends on the cell. *)
Lemma load_lookup buf buf' (k k' : Z) :
  0 <= k -> 0 <= k' -> buf !! Z.to_nat k = buf' !! Z.to_nat k' -> load buf k = load buf' k'.
Proof.
  intros Hk Hk' E. unfold load.
  destruct (Z.ltb_spec k 0); [lia|]. destruct (Z.ltb_spec k' 0); [lia|].
  rewrite E. reflexivity.
Qed.

(** [memcpy] between regions that lie inside their buffers: the cells of the
    destination region become those of the source region, the others stay. *)
Lemma memcpy_to_cells dst (doff : Z) src (soff n : Z) :
  0 <= doff -> 0 <= soff -> 0 <= n ->
  soff + n <= Z.of_nat (length src) -> doff + n <= Z.of_nat (length dst) ->
  exists d, memcpy_to dst doff src soff n = Ok d /\
    length d = length dst /\
    (forall k, doff <= k < doff + n -> load d k = load src (soff + (k - doff))) /\
    (forall k, 0 <= k -> ~ (doff <= k < doff + n) -> load d k = load dst k).
Proof.
  intros Hd Hs Hn Hsrc Hdst. unfold memcpy_to.
  destruct (Z.leb_spec 0 doff); [|lia]. destruct (Z.leb_spec 0 soff); [|lia].
  destruct (Z.leb_spec 0 n); [|lia].
  destruct (Z.leb_spec (soff + n) (Z.of_nat (length src))); [|lia].
  destruct (Z.leb_spec (doff + n) (Z.of_nat (length dst))); [|lia].
  cbn [andb]. eexists. split; [reflexivity|].
  assert (L1 : length (take (Z.to_nat doff) dst) = Z.to_nat doff)
    by (rewrite length_take; lia).
  assert (L2 : length (take (Z.to_nat n) (drop (Z.to_nat soff) src)) = Z.to_nat n)
    by (rewrite length_take, length_drop; lia).
  split; [|split].
  - rewrite !length_app, L1, L2, length_drop. lia.
  - intros k Hk. apply load_lookup; [lia | lia |].
    rewrite lookup_app_r by lia. rewrite L1.
    rewrite lookup_app_l by lia.
    rewrite lookup_take_lt by lia. rewrite lookup_drop. f_equal. lia.
  - intros k Hk0 Hk. apply load_lookup; [lia | lia |].
    destruct (Z_lt_ge_dec k doff) as [Hlt|Hge].
    + rewrite lookup_app_l by lia. apply lookup_take_lt. lia.
    + rewrite lookup_app_r by lia. rewrite L1.
      rewrite lookup_app_r by lia. rewrite L2.
      rewrite lookup_drop. f_equal. lia.
Qed.

End BlockCopies.

Section Assignments.
Context {T : Type} `{Precision T}.
Implicit Types (M A B : matrix_t T).



Lemma m_assign_row_cells (r c : Z) A (i : Z) B (j : Z) (fa fb : Z -> Z -> T) :
  0 <= i < r -> 0 <= j < rows B -> 0 <= c -> cols B = c ->
  shaped r c A -> entries_are r c A fa ->
  (forall k, 0 <= k < c -> elem B j k = Ok (fb j k)) ->
  exists A', MatrixDual.m_assign_row A i B j = Ok A' /\ shaped r c A' /\
             entries_are r c A' (fun a k => if a =? i then fb j k else fa a k).
Proof.
  intros Hi Hj Hc EcB Hsh Ha Hb. unfold MatrixDual.m_assign_row.
  pose proof Hsh as (Er & Ec & _). rewrite Er, Ec, EcB, Z.eqb_refl. cbn [assert bind].
  replace ((0 <=? i) && (i <? r)) with true
    by (destruct (Z.leb_spec 0 i); destruct (Z.ltb_spec i r); try lia; reflexivity).
  replace ((0 <=? j) && (j <? rows B)) with true
    by (destruct (Z.leb_spec 0 j); destruct (Z.ltb_spec j (rows B)); try lia; reflexivity).
  cbn [assert bind].
  destruct (matrix_for_cells r c c (fun k => i) (fun k => k)
              (fun k A => let* x := elem B j k in set_elem A i k x) (fun k => fb j k) A)
    as (A' & E & Hsh' & G & N); [lia | exact Hsh | lia | lia | |].
  - intros k M Hk _ _. rewrite (Hb k Hk). reflexivity.
  - exists A'. split; [exact E|]. split; [exact Hsh'|].
    intros a k Hak Hk. destruct (Z.eqb_spec a i) as [->|Hne]; [apply G; lia|].
    rewrite N; [apply Ha; lia | lia | lia | lia].
Qed.

Lemma m_assign_column_cells (r c : Z) A (i : Z) B (j : Z) (fa fb : Z -> Z -> T) :
  0 <= i < c -> 0 <= j < cols B -> 0 <= r ->
  shaped r c A -> shaped r (cols B) B -> entries_are r c A fa ->
  (forall k, 0 <= k < r -> elem B k 0 = Ok (fb k 0)) ->
  exists A', MatrixDual.m_assign_column A i B j = Ok A' /\ shaped r c A' /\
             entries_are r c A' (fun k a => if a =? i then fb k 0 else fa k a).
Proof.
  intros Hi Hj Hr HshA HshB Ha Hb. unfold MatrixDual.m_assign_column.
  pose proof HshA as (ErA & EcA & HlA). pose proof HshB as (ErB & _ & HlB).
  rewrite ErA, EcA, ErB, Z.eqb_refl. cbn [assert bind].
  replace ((0 <=? i) && (i <? c)) with true
    by (destruct (Z.leb_spec 0 i); destruct (Z.ltb_spec i c); try lia; reflexivity).
  replace ((0 <=? j) && (j <? cols B)) with true
    by (destruct (Z.leb_spec 0 j); destruct (Z.ltb_spec j (cols B)); try lia; reflexivity).
  cbn [assert bind]. unfold elem_index. rewrite ErA.
  destruct (memcpy_to_cells (data A) (0 + i * r) (data B) 0 r) as (d & E & Hlen & Hin & Hout);
    [nia | lia | lia | nia | nia |].
  rewrite E. cbn [bind]. eexists. split; [reflexivity|]. split.
  - split; [exact ErA|]. split; [exact EcA|]. cbn [with_data data]. rewrite Hlen. exact HlA.
  - intros k a Hk Hac. unfold elem, elem_index. cbn [with_data rows data]. rewrite ErA.
    destruct (Z.eqb_spec a i) as [->|Hne].
    + rewrite Hin by lia. rewrite <- (Hb k Hk). unfold elem, elem_index. rewrite ErB.
      f_equal. lia.
    + rewrite Hout; [| nia | nia]. rewrite <- (Ha k a Hk Hac).
      unfold elem, elem_index. rewrite ErA. reflexivity.
Qed.

End Assignments.

(** [m_assign_row(A, i, B, j)] returns exactly when [A] and [B] have the same
    number of columns and [i], [j] are row indices of [A] and [B], and is
    stopped by an assertion otherwise; row [i] of [A] becomes row [j] of [B]
    and the other rows of [A] are left as they were. *)
Theorem m_assign_row_spec (T : Type) (A B : matrix_t T) (i j : Z) :
  wf_matrix A -> wf_matrix B ->
  (cols A = cols B /\ 0 <= i < rows A /\ 0 <= j < rows B ->
     exists A', MatrixDual.m_assign_row A i B j = Ok A' /\
       rows A' = rows A /\ cols A' = cols A /\
       forall a k, 0 <= a < rows A -> 0 <= k < cols A ->
         elem A' a k = if a =? i then elem B j k else elem A a k) /\
  (~ (cols A = cols B /\ 0 <= i < rows A /\ 0 <= j < rows B) ->
     MatrixDual.m_assign_row A i B j = Abort).
Proof.
  intros HA HB. split.
  - intros (Ec & Hi & Hj).
    destruct (wf_elem_fun A HA) as [fa Ha]. destruct (wf_elem_fun B HB) as [fb Hb].
    pose proof (wf_shaped A HA) as HshA. destruct HA as (Hr & Hc & _).
    destruct (m_assign_row_cells (rows A) (cols A) A i B j fa fb)
      as (A' & E & (Er' & Ec' & _) & H');
      [lia | lia | lia | lia | exact HshA | exact Ha | intros k Hk; apply Hb; lia |].
    exists A'. split; [exact E|]. split; [exact Er'|]. split; [exact Ec'|].
    intros a k Hak Hk. rewrite (H' a k Hak Hk).
    destruct (Z.eqb_spec a i); [rewrite Hb by lia | rewrite Ha by lia]; reflexivity.
  - intros Hne. unfold MatrixDual.m_assign_row.
    destruct (Z.eqb_spec (cols A) (cols B)); cbn [assert bind]; [|reflexivity].
    destruct (Z.leb_spec 0 i); destruct (Z.ltb_spec i (rows A));
      cbn [andb assert bind]; try reflexivity.
    destruct (Z.leb_spec 0 j); destruct (Z.ltb_spec j (rows B));
      cbn [andb assert bind]; try reflexivity.
    exfalso. apply Hne. lia.
Qed.

Lemma m_assign_row_spec_witness :
  (cols small_doubles = cols small_doubles /\ 0 <= 0 < rows small_doubles /\
   0 <= 1 < rows small_doubles ->
     exists A', MatrixDual.m_assign_row small_doubles 0 small_doubles 1 = Ok A' /\
       rows A' = rows small_doubles /\ cols A' = cols small_doubles /\
       forall a k, 0 <= a < rows small_doubles -> 0 <= k < cols small_doubles ->
         elem A' a k = if a =? 0 then elem small_doubles 1 k else elem small_doubles a k) /\
  (~ (cols small_doubles = cols small_doubles /\ 0 <= 0 < rows small_doubles /\
      0 <= 1 < rows small_doubles) ->
     MatrixDual.m_assign_row small_doubles 0 small_doubles 1 = Abort).
Proof.
  apply (m_assign_row_spec float small_doubles small_doubles 0 1).
  - split; [reflexivity|]. split; [reflexivity|]. split; [reflexivity|].
    repeat constructor; eexists; reflexivity.
  - split; [reflexivity|]. split; [reflexivity|]. split; [reflexivity|].
    repeat constructor; eexists; reflexivity.
Defined.

(** [m_assign_column(A, i, B, j)] returns exactly when [A] and [B] have the
    same number of rows and [i], [j] are column indices of [A] and [B], and is
    stopped by an assertion otherwise. Column [i] of [A] becomes column 0 of
    [B], whatever [j] is: the copy reads from the top of the buffer of [B].
    The other columns of [A] are left as they were. *)
Theorem m_assign_column_spec (T : Type) (A B : matrix_t T) (i j : Z) :
  wf_matrix A -> wf_matrix B ->
  (rows A = rows B /\ 0 <= i < cols A /\ 0 <= j < cols B ->
     exists A', MatrixDual.m_assign_column A i B j = Ok A' /\
       rows A' = rows A /\ cols A' = cols A /\
       forall k a, 0 <= k < rows A -> 0 <= a < cols A ->
         elem A' k a = if a =? i then elem B k 0 else elem A k a) /\
  (~ (rows A = rows B /\ 0 <= i < cols A /\ 0 <= j < cols B) ->
     MatrixDual.m_assign_column A i B j = Abort).
Proof.
  intros HA HB. split.
  - intros (Er & Hi & Hj).
    destruct (wf_elem_fun A HA) as [fa Ha]. destruct (wf_elem_fun B HB) as [fb Hb].
    pose proof (wf_shaped A HA) as HshA. pose proof (wf_shaped B HB) as HshB.
    rewrite <- Er in HshB. destruct HA as (Hr & Hc & _).
    destruct (m_assign_column_cells (rows A) (cols A) A i B j fa fb)
      as (A' & E & (Er' & Ec' & _) & H');
      [lia | lia | lia | exact HshA | exact HshB | exact Ha | intros k Hk; apply Hb; lia |].
    exists A'. split; [exact E|]. split; [exact Er'|]. split; [exact Ec'|].
    intros k a Hk Hac. rewrite (H' k a Hk Hac).
    destruct (Z.eqb_spec a i); [rewrite Hb by lia | rewrite Ha by lia]; reflexivity.
  - intros Hne. unfold MatrixDual.m_assign_column.
    destruct (Z.eqb_spec (rows A) (rows B)); cbn [assert bind]; [|reflexivity].
    destruct (Z.leb_spec 0 i); destruct (Z.ltb_spec i (cols A));
      cbn [andb assert bind]; try reflexivity.
    destruct (Z.leb_spec 0 j); destruct (Z.ltb_spec j (cols B));
      cbn [andb assert bind]; try reflexivity.
    exfalso. apply Hne. lia.
Qed.

(** Column 1 of the source is asked for; column 0 is what arrives. *)
Lemma m_assign_column_spec_witness :
  (rows small_doubles = rows small_doubles /\ 0 <= 0 < cols small_doubles /\
   0 <= 1 < cols small_doubles ->
     exists A', MatrixDual.m_assign_column small_doubles 0 small_doubles 1 = Ok A' /\
       rows A' = rows small_doubles /\ cols A' = cols small_doubles /\
       forall k a, 0 <= k < rows small_doubles -> 0 <= a < cols small_doubles ->
         elem A' k a = if a =? 0 then elem small_doubles k 0 else elem small_doubles k a) /\
  (~ (rows small_doubles = rows small_doubles /\ 0 <= 0 < cols small_doubles /\
      0 <= 1 < cols small_doubles) ->
     MatrixDual.m_assign_column small_doubles 0 small_doubles 1 = Abort).
Proof.
  apply (m_assign_column_spec float small_doubles small_doubles 0 1).
  - split; [reflexivity|]. split; [reflexivity|]. split; [reflexivity|].
    repeat constructor; eexists; reflexivity.
  - split; [reflexivity|]. split; [reflexivity|]. split; [reflexivity|].
    repeat constructor; eexists; reflexivity.
Defined.





(** ** Normalisation to the unit interval *)

Section Normalize.
Implicit Types (M : matrix_t R).

(** The scan for the least and the greatest element. *)
Lemma minmax_scan (r c : Z) M (f : Z -> Z -> R) :
  0 < r -> 0 < c -> shaped r c M -> entries_are r c M f ->
  exists lo hi,
    for_loop 0 (rows M) (fun i '(min, max) =>
      for_loop 0 (cols M) (fun j '(min, max) =>
        let* val := elem M i j in
        let min := if p_ltb val min then val else min in
        let max := if p_ltb max val then val else max in
        Ok (min, max)) (min, max)) (f 0 0, f 0 0) = Ok (lo, hi) /\
    (forall a b, 0 <= a < r -> 0 <= b < c -> (lo <= f a b <= hi)%R) /\
    (exists a b, 0 <= a < r /\ 0 <= b < c /\ f a b = lo) /\
    (exists a b, 0 <= a < r /\ 0 <= b < c /\ f a b = hi).
Proof.
  intros Hr Hc (Er & Ec & _) Hf. rewrite Er, Ec.
  pose (Inv := fun (i j : Z) (st : R * R) =>
     (forall a b, 0 <= a < r -> 0 <= b < c -> a < i \/ (a = i /\ b < j) ->
                  (fst st <= f a b <= snd st)%R) /\
     (exists a b, 0 <= a < r /\ 0 <= b < c /\ f a b = fst st) /\
     (exists a b, 0 <= a < r /\ 0 <= b < c /\ f a b = snd st)).
  destruct (for_loop_inv (fun i st => Inv i 0 st) 0 r
              (fun i '(min, max) =>
                 for_loop 0 c (fun j '(min, max) =>
                   let* val := elem M i j in
                   let min := if p_ltb val min then val else min in
                   let max := if p_ltb max val then val else max in
                   Ok (min, max)) (min, max)) (f 0 0, f 0 0))
    as ([lo hi] & E & Hall & Hlo & Hhi); [lia | | |].
  - split; [intros a b Ha Hb [?|[? ?]]; lia|].
    split; exists 0, 0; cbn [fst snd]; (split; [lia | split; [lia | reflexivity]]).
  - intros i [mn mx] Hi HI.
    destruct (for_loop_inv (fun j st => Inv i j st) 0 c
                (fun j '(min, max) =>
                   let* val := elem M i j in
                   let min := if p_ltb val min then val else min in
                   let max := if p_ltb max val then val else max in
                   Ok (min, max)) (mn, mx))
      as ([mn' mx'] & E' & HI'); [lia | exact HI | |].
    + intros j [lo hi] Hj (Hall & Hlo & Hhi). cbn [fst snd] in *.
      rewrite (Hf i j Hi Hj). cbn [bind p_ltb real_precision].
      eexists. split; [reflexivity|]. unfold Inv. cbn [fst snd].
      split; [|split].
      * intros a b Ha Hb Hab.
        assert (Hcase : (a < i \/ (a = i /\ b < j)) \/ (a = i /\ b = j)) by lia.
        destruct Hcase as [Hold|[-> ->]].
        -- specialize (Hall a b Ha Hb Hold).
           destruct (Rlt_dec (f i j) lo); destruct (Rlt_dec hi (f i j)); lra.
        -- destruct (Rlt_dec (f i j) lo); destruct (Rlt_dec hi (f i j)); lra.
      * destruct (Rlt_dec (f i j) lo); [exists i, j; auto | exact Hlo].
      * destruct (Rlt_dec hi (f i j)); [exists i, j; auto | exact Hhi].
    + exists (mn', mx'). split; [exact E'|].
      destruct HI' as (Hall' & Hlo' & Hhi'). split; [|split; assumption].
      intros a b Ha Hb Hab. apply Hall'; [assumption..|]. lia.
  - exists lo, hi. split; [exact E|]. split; [|split; assumption].
    intros a b Ha Hb. apply Hall; [assumption..|]. lia.
Qed.

End Normalize.

(** In exact arithmetic, for a matrix whose elements are not all equal,
    [m_normalize] maps every element [x] to [(x - lo) / (hi - lo)], [lo] and
    [hi] being the least and the greatest element: the result has the shape of
    [M], its elements lie between 0 and 1, and both 0 and 1 occur. *)
Theorem m_normalize_unit_interval (M : matrix_t R) :
  wf_matrix M ->
  (exists i j i' j', 0 <= i < rows M /\ 0 <= j < cols M /\
                     0 <= i' < rows M /\ 0 <= j' < cols M /\
                     entry M i j <> entry M i' j') ->
  exists N lo hi, MatrixCpu.m_normalize M = Ok N /\
    rows N = rows M /\ cols N = cols M /\ (lo < hi)%R /\
    (forall i j, 0 <= i < rows M -> 0 <= j < cols M ->
       (lo <= entry M i j <= hi)%R /\
       elem N i j = Ok ((entry M i j - lo) / (hi - lo))%R /\
       (0 <= entry N i j <= 1)%R) /\
    (exists i j, 0 <= i < rows M /\ 0 <= j < cols M /\ elem N i j = Ok 0%R) /\
    (exists i j, 0 <= i < rows M /\ 0 <= j < cols M /\ elem N i j = Ok 1%R).
Proof.
  intros Hwf (i0 & j0 & i1 & j1 & Hi0 & Hj0 & Hi1 & Hj1 & Hdiff).
  pose proof (wf_shaped M Hwf) as Hsh. pose proof (wf_entry M Hwf) as Hf.
  destruct Hwf as (Hr & Hc & _).
  destruct (minmax_scan (rows M) (cols M) M (entry M) Hr Hc Hsh Hf)
    as (lo & hi & Escan & Hbounds & (al & bl & Hal & Hbl & Hlo) & (ah & bh & Hah & Hbh & Hhi)).
  assert (Hlt : (lo < hi)%R).
  { pose proof (Hbounds i0 j0 Hi0 Hj0). pose proof (Hbounds i1 j1 Hi1 Hj1).
    destruct (Rlt_dec lo hi); [assumption|]. exfalso. apply Hdiff. lra. }
  destruct (rowwise_update (rows M) (cols M) M
              (fun i j => ((entry M i j - lo) / (hi - lo))%R)
              (fun i j M1 => let* x := elem M1 i j in
                             set_elem M1 i j (p_div (p_sub x lo) (p_sub hi lo))))
    as (N & EN & HshN & HN); [lia | lia | exact Hsh | |].
  { intros i j M1 Hi Hj _ E. rewrite E, (Hf i j Hi Hj). reflexivity. }
  exists N, lo, hi. unfold MatrixCpu.m_normalize.
  rewrite (Hf 0 0) by lia. cbn [bind]. cbn [bind] in Escan. rewrite Escan. cbn [bind].
  split; [exact EN|]. destruct HshN as (ErN & EcN & _).
  split; [exact ErN|]. split; [exact EcN|]. split; [exact Hlt|].
  split; [|split].
  - intros i j Hi Hj. pose proof (Hbounds i j Hi Hj) as Hb.
    split; [exact Hb|]. split; [apply HN; assumption|].
    unfold entry. rewrite (HN i j Hi Hj).
    assert (Hpos : (0 < hi - lo)%R) by lra.
    split.
    + apply Rmult_le_pos; [lra|]. left. apply Rinv_0_lt_compat. exact Hpos.
    + apply (Rmult_le_reg_r (hi - lo)); [exact Hpos|].
      unfold Rdiv. rewrite Rmult_assoc, Rinv_l by lra. lra.
  - exists al, bl. split; [exact Hal|]. split; [exact Hbl|].
    rewrite (HN al bl Hal Hbl), Hlo. f_equal. unfold Rdiv. ring.
  - exists ah, bh. split; [exact Hah|]. split; [exact Hbh|].
    rewrite (HN ah bh Hah Hbh), Hhi. f_equal. unfold Rdiv. apply Rinv_r. lra.
Qed.

Lemma m_normalize_unit_interval_witness :
  exists N lo hi, MatrixCpu.m_normalize two_observations = Ok N /\
    rows N = rows two_observations /\ cols N = cols two_observations /\ (lo < hi)%R /\
    (forall i j, 0 <= i < rows two_observations -> 0 <= j < cols two_observations ->
       (lo <= entry two_observations i j <= hi)%R /\
       elem N i j = Ok ((entry two_observations i j - lo) / (hi - lo))%R /\
       (0 <= entry N i j <= 1)%R) /\
    (exists i j, 0 <= i < rows two_observations /\ 0 <= j < cols two_observations /\
                 elem N i j = Ok 0%R) /\
    (exists i j, 0 <= i < rows two_observations /\ 0 <= j < cols two_observations /\
                 elem N i j = Ok 1%R).
Proof.
  apply (m_normalize_unit_interval two_observations).
  - split; [reflexivity|]. split; [reflexivity|]. split; [reflexivity|].
    repeat constructor; eexists; reflexivity.
  - exists 0, 0, 0, 1. cbn [rows cols two_observations].
    split; [lia|]. split; [lia|]. split; [lia|]. split; [lia|].
    change (1%R <> 3%R). lra.
Defined.

(** ** Runs that cannot return *)

Section NoReturn.
Context {St : Type}.
Implicit Types (body : Z -> St -> outcome St) (s : St).

(** A loop whose body has no assertion is not stopped by one. *)
Lemma for_loop_no_abort lo hi body s :
  (forall i t, body i t <> Abort) -> for_loop lo hi body s <> Abort.
Proof.
  intros Hbody. unfold for_loop. generalize (Z.to_nat (hi - lo)) as n. intros n.
  revert lo s. induction n as [|n IH]; intros lo s; [discriminate|].
  rewrite for_from_S. destruct (body lo s) as [t| |] eqn:E; cbn [bind].
  - apply IH.
  - exfalso. exact (Hbody lo s E).
  - discriminate.
Qed.

(** If moreover the last iteration has no defined behaviour whatever the
    state it starts from, the loop has none. *)
Lemma for_loop_last_undefined lo hi body s :
  lo < hi ->
  (forall i t, body i t <> Abort) ->
  (forall t, body (hi - 1) t = Undefined) ->
  for_loop lo hi body s = Undefined.
Proof.
  intros Hlt Hbody Hlast. replace hi with (hi - 1 + 1) at 1 by lia.
  rewrite for_loop_snoc by lia.
  destruct (for_loop lo (hi - 1) body s) as [t| |] eqn:E; cbn [bind].
  - apply Hlast.
  - exfalso. exact (for_loop_no_abort lo (hi - 1) body s Hbody E).
  - reflexivity.
Qed.

End NoReturn.

Section NoAbort.
Context {T : Type}.

Lemma load_no_abort (buf : list (option T)) (k : Z) : load buf k <> Abort.
Proof.
  unfold load. destruct (k <? 0); [discriminate|].
  destruct (buf !! Z.to_nat k) as [[v|]|]; discriminate.
Qed.

Lemma set_elem_no_abort (M : matrix_t T) (i j : Z) (v : T) : set_elem M i j v <> Abort.
Proof.
  unfold set_elem, store.
  destruct ((0 <=? elem_index M i j) && (elem_index M i j <? Z.of_nat (length (data M))));
    discriminate.
Qed.

Lemma cast_int_no_abort `{Truncation T} (x : T) : cast_int x <> Abort.
Proof.
  unfold cast_int. destruct (p_trunc x) as [z|]; [|discriminate].
  destruct ((- 2 ^ 31 <=? z) && (z <? 2 ^ 31)); discriminate.
Qed.

End NoAbort.

(** [m_reorder_columns(M, V)] never returns a matrix that has a column. Its
    assertion asks for a [V] of one row and as many columns as [M]; it then
    reads [elem(V, 1, j)], the row after the only one, which for the last
    column is the cell after the end of the buffer of [V]: whatever the
    elements of [M] and [V] are, the run has no defined behaviour. *)
Theorem m_reorder_columns_undefined (T : Type) (prec : Precision T) (trunc : Truncation T)
    (M V : matrix_t T) :
  rows V = 1 -> cols V = cols M -> 1 <= cols M ->
  Z.of_nat (length (data V)) = rows V * cols V ->
  MatrixCpu.m_reorder_columns M V = Undefined.
Proof.
  intros Er Ec Hc Hlen. unfold MatrixCpu.m_reorder_columns.
  rewrite Er, Ec, !Z.eqb_refl. cbn [andb assert bind m_initialize cols].
  apply for_loop_last_undefined; [lia | |].
  - intros j R E.
    destruct (elem V 1 j) as [x| |] eqn:Ex; cbn [bind] in E;
      [| exact (load_no_abort _ _ Ex) | discriminate].
    destruct (cast_int x) as [row| |] eqn:Erow; cbn [bind] in E;
      [| exact (cast_int_no_abort _ Erow) | discriminate].
    revert E. apply for_loop_no_abort. intros i R1 E1.
    destruct (elem M row j) as [y| |] eqn:Ey; cbn [bind] in E1;
      [| exact (load_no_abort _ _ Ey) | discriminate].
    exact (set_elem_no_abort _ _ _ _ E1).
  - intros R.
    assert (E : elem V 1 (cols M - 1) = Undefined).
    { unfold elem, elem_index, load. rewrite Er.
      destruct (Z.ltb_spec (1 + (cols M - 1) * 1) 0); [reflexivity|].
      rewrite lookup_ge_None_2 by lia. reflexivity. }
    rewrite E. reflexivity.
Qed.

(** A matrix of two columns and the order [0, 1]. *)
Lemma m_reorder_columns_undefined_witness :
  MatrixCpu.m_reorder_columns small_doubles
    {| rows := 1; cols := 2; data := [Some 0%float; Some 1%float] |} = Undefined.
Proof.
  apply (m_reorder_columns_undefined float double_precision double_truncation small_doubles
           {| rows := 1; cols := 2; data := [Some 0%float; Some 1%float] |}).
  - reflexivity.
  - reflexivity.
  - simpl. lia.
  - reflexivity.
Defined.

(** ** Images to columns and back *)

Section ImageColumns.
Context {T : Type} `{Precision T} `{Truncation T}.
Implicit Types (M : matrix_t T) (image : image_t).

Lemma pixel_load_Ok image (i : Z) (px : Z) :
  0 <= i -> pixels image !! Z.to_nat i = Some px -> pixel_load image i = Ok px.
Proof.
  intros Hi E. unfold pixel_load. destruct (Z.ltb_spec i 0); [lia|]. rewrite E. reflexivity.
Qed.

Lemma m_image_read_cells (r c : Z) M (col : Z) image :
  0 <= r -> shaped r c M -> 0 <= col < c ->
  r = channels image * height image * width image ->
  Z.of_nat (length (pixels image)) = r ->
  exists M', m_image_read M col image = Ok M' /\ shaped r c M' /\
    (forall i, 0 <= i < r ->
       exists px, pixels image !! Z.to_nat i = Some px /\ elem M' i col = Ok (p_of_int px)) /\
    (forall i j, 0 <= i < r -> 0 <= j < c -> j <> col -> elem M' i j = elem M i j).
Proof.
  intros Hr Hsh Hcol Hsize Hlen. unfold m_image_read.
  pose proof Hsh as (Er & Ec & _). rewrite Er, <- Hsize, Z.eqb_refl. cbn [assert bind].
  destruct (matrix_for_cells r c r (fun i => i) (fun _ => col)
              (fun i M => let* px := pixel_load image i in set_elem M i col (p_of_int px))
              (fun i => p_of_int (default 0 (pixels image !! Z.to_nat i))) M)
    as (M' & E & Hsh' & G & N); [lia | exact Hsh | lia | lia | |].
  - intros i M1 Hi _ _.
    destruct (lookup_lt_is_Some_2 (pixels image) (Z.to_nat i)) as [px Hpx]; [lia|].
    rewrite (pixel_load_Ok image i px) by (lia || exact Hpx). rewrite Hpx. reflexivity.
  - exists M'. split; [exact E|]. split; [exact Hsh'|]. split.
    + intros i Hi.
      destruct (lookup_lt_is_Some_2 (pixels image) (Z.to_nat i)) as [px Hpx]; [lia|].
      exists px. split; [exact Hpx|]. rewrite (G i Hi), Hpx. reflexivity.
    + intros i j Hi Hj Hne. apply N; [lia | lia |]. intros a Ha [_ Hc']. congruence.
Qed.

Lemma m_image_write_cells (r : Z) M (col : Z) image (pix : list Z) :
  0 <= r -> rows M = r ->
  r = channels image * height image * width image ->
  Z.of_nat (length (pixels image)) = r -> Z.of_nat (length pix) = r ->
  (forall i, 0 <= i < r -> exists px x, pix !! Z.to_nat i = Some px /\
                                     elem M i col = Ok x /\ cast_uchar x = Ok px) ->
  MatrixDual.m_image_write M col image
  = Ok {| channels := channels image; height := height image; width := width image;
          pixels := pix |}.
Proof.
  intros Hr Er Hsize Hlen Hlen' Hcells. unfold MatrixDual.m_image_write.
  rewrite Er, <- Hsize, Z.eqb_refl. cbn [assert bind].
  destruct (for_loop_inv
              (fun i st => st = {| channels := channels image; height := height image;
                                   width := width image;
                                   pixels := take (Z.to_nat i) pix
                                             ++ drop (Z.to_nat i) (pixels image) |})
              0 r
              (fun i image => let* x := elem M i col in
                              let* px := cast_uchar x in
                              pixel_store image i px) image)
    as (st & E & ->); [lia | | |].
  - cbn [Z.to_nat take drop app]. destruct image; reflexivity.
  - intros i st Hi ->. destruct (Hcells i Hi) as (px & x & Hpx & Ex & Ec).
    rewrite Ex. cbn [bind]. rewrite Ec. cbn [bind]. unfold pixel_store.
    cbn [pixels channels height width].
    assert (Hl : length (take (Z.to_nat i) pix ++ drop (Z.to_nat i) (pixels image))
                 = Z.to_nat r).
    { rewrite length_app, length_take, length_drop. lia. }
    rewrite Hl.
    destruct (Z.leb_spec 0 i); [|lia]. destruct (Z.ltb_spec i (Z.of_nat (Z.to_nat r))); [|lia].
    cbn [andb]. eexists. split; [reflexivity|]. f_equal.
    replace (Z.to_nat (i + 1)) with (S (Z.to_nat i)) by lia.
    rewrite (take_S_r pix (Z.to_nat i) px Hpx).
    assert (Hlt : length (take (Z.to_nat i) pix) = Z.to_nat i) by (rewrite length_take; lia).
    rewrite insert_app_r_alt by lia. rewrite Hlt, Nat.sub_diag.
    destruct (drop (Z.to_nat i) (pixels image)) as [|p rest] eqn:Ed.
    { apply (f_equal length) in Ed. rewrite length_drop in Ed. cbn in Ed. lia. }
    cbn [insert list_insert]. rewrite <- app_assoc. cbn [app]. f_equal. f_equal.
    change rest with (drop 1 (p :: rest)). rewrite <- Ed, drop_drop. f_equal. lia.
  - rewrite E. f_equal. f_equal.
    rewrite take_ge by lia. rewrite drop_ge by lia. apply app_nil_r.
Qed.

End ImageColumns.

(** Every pixel value converts to a double and back without change. *)
Lemma double_uchar_exact (px : Z) :
  0 <= px < 256 -> cast_uchar (float_of_int px) = Ok px.
Proof.
  intros Hpx.
  assert (Hall : forallb (fun n => match cast_uchar (float_of_int (Z.of_nat n)) with
                                   | Ok z => z =? Z.of_nat n
                                   | _ => false
                                   end) (seq 0 256) = true) by (vm_compute; reflexivity).
  rewrite forallb_forall in Hall. specialize (Hall (Z.to_nat px)).
  rewrite Z2Nat.id in Hall by lia.
  assert (Hin : In (Z.to_nat px) (seq 0 256)) by (apply in_seq; lia).
  specialize (Hall Hin).
  destruct (cast_uchar (float_of_int px)) as [z| |]; [|discriminate|discriminate].
  f_equal. apply Z.eqb_eq. exact Hall.
Qed.

(** On doubles, reading an image into a column with [m_image_read] and
    writing that column to an image of the same size with [m_image_write]
    gives back every pixel: the column holds the pixels converted to
    [precision_t], the other columns are left as they were, and the image
    written holds the pixels of the image read. *)
Theorem m_image_write_m_image_read (M : matrix_t float) (col : Z) (image image' : image_t) :
  0 <= rows M -> Z.of_nat (length (data M)) = rows M * cols M -> 0 <= col < cols M ->
  rows M = channels image * height image * width image ->
  Z.of_nat (length (pixels image)) = rows M ->
  Forall (fun px => 0 <= px < 256) (pixels image) ->
  rows M = channels image' * height image' * width image' ->
  length (pixels image') = length (pixels image) ->
  exists M', m_image_read M col image = Ok M' /\
    rows M' = rows M /\ cols M' = cols M /\
    (forall i, 0 <= i < rows M ->
       exists px, pixels image !! Z.to_nat i = Some px /\
                  elem M' i col = Ok (float_of_int px)) /\
    (forall i j, 0 <= i < rows M -> 0 <= j < cols M -> j <> col ->
                 elem M' i j = elem M i j) /\
    MatrixDual.m_image_write M' col image'
    = Ok {| channels := channels image'; height := height image'; width := width image';
            pixels := pixels image |}.
Proof.
  intros Hr Hlen Hcol Hsize Hpix Hrange Hsize' Hpix'.
  destruct (m_image_read_cells (rows M) (cols M) M col image)
    as (M' & E & (Er' & Ec' & _) & Hcolumn & Hothers);
    [lia | split; [reflexivity | split; [reflexivity | exact Hlen]] | lia | exact Hsize
     | exact Hpix |].
  exists M'. split; [exact E|]. split; [exact Er'|]. split; [exact Ec'|].
  split; [exact Hcolumn|]. split; [exact Hothers|].
  apply (m_image_write_cells (rows M)); [lia | exact Er' | exact Hsize' | lia | lia |].
  intros i Hi. destruct (Hcolumn i Hi) as (px & Hpx & Ex).
  exists px, (float_of_int px). split; [exact Hpx|]. split; [exact Ex|].
  apply double_uchar_exact. rewrite Forall_lookup in Hrange. exact (Hrange _ _ Hpx).
Qed.

Lemma m_image_write_m_image_read_witness :
  exists M', m_image_read (m_initialize 2 1)  0
               {| channels := 1; height := 2; width := 1; pixels := [0; 255] |} = Ok M' /\
    rows M' = 2 /\ cols M' = 1 /\
    (forall i, 0 <= i < 2 ->
       exists px, [0; 255] !! Z.to_nat i = Some px /\ elem M' i 0 = Ok (float_of_int px)) /\
    (forall i j, 0 <= i < 2 -> 0 <= j < 1 -> j <> 0 ->
                 elem M' i j = elem (m_initialize 2 1 : matrix_t float) i j) /\
    MatrixDual.m_image_write M' 0
      {| channels := 1; height := 2; width := 1; pixels := [7; 7] |}
    = Ok {| channels := 1; height := 2; width := 1; pixels := [0; 255] |}.
Proof.
  apply (m_image_write_m_image_read (m_initialize 2 1) 0
           {| channels := 1; height := 2; width := 1; pixels := [0; 255] |}
           {| channels := 1; height := 2; width := 1; pixels := [7; 7] |}).
  - simpl. lia.
  - reflexivity.
  - simpl. lia.
  - reflexivity.
  - reflexivity.
  - repeat constructor; simpl; lia.
  - reflexivity.
  - reflexivity.
Defined.

(** ** Sums, means and centring *)

Section Sums.
Context {T : Type} `{Precision T}.
Implicit Types (M : matrix_t T).

Lemma m_sumRows_cells (r c : Z) M (f : Z -> Z -> T) :
  0 <= r -> 0 <= c -> shaped r c M -> entries_are r c M f ->
  exists S, MatrixCpu.m_sumRows M = Ok S /\ shaped r 1 S /\
    forall i, 0 <= i < r -> elem S i 0 = Ok (p_sum (fun j => f i j) c).
Proof.
  intros Hr Hc (Er & Ec & _) Hf. unfold MatrixCpu.m_sumRows. rewrite Er, Ec.
  destruct (matrix_for_cells r 1 r (fun i => i) (fun _ => 0)
              (fun i R => let* val := for_loop 0 c (fun j val =>
                                        let* x := elem M i j in Ok (p_add val x))
                                        (p_of_int 0) in
                          set_elem R i 0 val)
              (fun i => p_sum (fun j => f i j) c) (m_initialize r 1))
    as (S & E & Hsh & G & _); [lia | apply shaped_initialize; lia | lia | lia | |].
  - intros i R Hi _ _.
    rewrite (for_loop_sum (p_of_int 0) p_add (fun j => elem M i j) (fun j => f i j) c Hc)
      by (intros j Hj; apply Hf; assumption).
    reflexivity.
  - exists S. split; [exact E|]. split; [exact Hsh|]. exact G.
Qed.

Lemma m_sumCols_cells (r c : Z) M (f : Z -> Z -> T) :
  0 <= r -> 0 <= c -> shaped r c M -> entries_are r c M f ->
  exists S, MatrixCpu.m_sumCols M = Ok S /\ shaped 1 c S /\
    forall j, 0 <= j < c -> elem S 0 j = Ok (p_sum (fun i => f i j) r).
Proof.
  intros Hr Hc (Er & Ec & _) Hf. unfold MatrixCpu.m_sumCols. rewrite Er, Ec.
  destruct (matrix_for_cells 1 c c (fun _ => 0) (fun j => j)
              (fun j R => let* val := for_loop 0 r (fun i val =>
                                        let* x := elem M i j in Ok (p_add val x))
                                        (p_of_int 0) in
                          set_elem R 0 j val)
              (fun j => p_sum (fun i => f i j) r) (m_initialize 1 c))
    as (S & E & Hsh & G & _); [lia | apply shaped_initialize; lia | lia | lia | |].
  - intros j R Hj _ _.
    rewrite (for_loop_sum (p_of_int 0) p_add (fun i => elem M i j) (fun i => f i j) r Hr)
      by (intros i Hi; apply Hf; assumption).
    reflexivity.
  - exists S. split; [exact E|]. split; [exact Hsh|]. exact G.
Qed.

End Sums.

Section RealMeans.
Local Open Scope R_scope.

Lemma Rsum_const (a : R) (n : Z) : (0 <= n)%Z -> Rsum (fun _ => a) n = IZR n * a.
Proof.
  intros Hn. pattern n. apply Rsum_ind; [| | exact Hn].
  - rewrite Rsum_0. simpl. ring.
  - intros m Hm IH. rewrite Rsum_S by lia. rewrite IH, plus_IZR. simpl. ring.
Qed.

Lemma Rsum_minus (f g : Z -> R) (n : Z) :
  (0 <= n)%Z -> Rsum (fun k => f k - g k) n = Rsum f n - Rsum g n.
Proof.
  intros Hn. pattern n. apply Rsum_ind; [| | exact Hn].
  - rewrite !Rsum_0. ring.
  - intros m Hm IH. rewrite !Rsum_S by lia. rewrite IH. ring.
Qed.

(** The deviations from the mean sum to zero. *)
Lemma Rsum_centred (f : Z -> R) (n : Z) :
  (0 < n)%Z -> Rsum (fun k => f k - Rsum f n / IZR n) n = 0.
Proof.
  intros Hn. rewrite Rsum_minus, Rsum_const by lia.
  assert (IZR n <> 0) by (apply not_0_IZR; lia). field. assumption.
Qed.

End RealMeans.

(** In exact arithmetic [m_sumRows] returns the column of the sums of the
    rows and [m_sumCols] the row of the sums of the columns, and the two
    vectors have the same total. *)
Theorem m_sumRows_m_sumCols (M : matrix_t R) :
  wf_matrix M ->
  exists Sr Sc, MatrixCpu.m_sumRows M = Ok Sr /\ MatrixCpu.m_sumCols M = Ok Sc /\
    rows Sr = rows M /\ cols Sr = 1 /\ rows Sc = 1 /\ cols Sc = cols M /\
    (forall i, 0 <= i < rows M ->
       elem Sr i 0 = Ok (Rsum (fun j => entry M i j) (cols M))) /\
    (forall j, 0 <= j < cols M ->
       elem Sc 0 j = Ok (Rsum (fun i => entry M i j) (rows M))) /\
    Rsum (fun i => entry Sr i 0) (rows M) = Rsum (fun j => entry Sc 0 j) (cols M).
Proof.
  intros Hwf. pose proof (wf_pos M Hwf) as [Hr Hc].
  pose proof (wf_shaped M Hwf) as Hsh. pose proof (wf_entry M Hwf) as Hf.
  destruct (m_sumRows_cells (rows M) (cols M) M (entry M)) as (Sr & Er & (Err & Ecr & _) & Hr');
    [lia | lia | assumption..|].
  destruct (m_sumCols_cells (rows M) (cols M) M (entry M)) as (Sc & Ec & (Erc & Ecc & _) & Hc');
    [lia | lia | assumption..|].
  exists Sr, Sc. repeat (split; [assumption|]).
  rewrite (Rsum_ext (fun i => entry Sr i 0) (fun i => Rsum (fun j => entry M i j) (cols M)))
    by (intros i Hi; unfold entry at 1; rewrite (Hr' i Hi); reflexivity).
  rewrite (Rsum_ext (fun j => entry Sc 0 j) (fun j => Rsum (fun i => entry M i j) (rows M)))
    by (intros j Hj; unfold entry at 1; rewrite (Hc' j Hj); reflexivity).
  apply Rsum_swap; lia.
Qed.

Lemma m_sumRows_m_sumCols_witness :
  exists Sr Sc, MatrixCpu.m_sumRows two_observations = Ok Sr /\
    MatrixCpu.m_sumCols two_observations = Ok Sc /\
    rows Sr = rows two_observations /\ cols Sr = 1 /\
    rows Sc = 1 /\ cols Sc = cols two_observations /\
    (forall i, 0 <= i < rows two_observations ->
       elem Sr i 0 = Ok (Rsum (fun j => entry two_observations i j) (cols two_observations))) /\
    (forall j, 0 <= j < cols two_observations ->
       elem Sc 0 j = Ok (Rsum (fun i => entry two_observations i j) (rows two_observations))) /\
    Rsum (fun i => entry Sr i 0) (rows two_observations)
    = Rsum (fun j => entry Sc 0 j) (cols two_observations).
Proof.
  apply (m_sumRows_m_sumCols two_observations).
  split; [reflexivity|]. split; [reflexivity|]. split; [reflexivity|].
  repeat constructor; eexists; reflexivity.
Defined.

(** In exact arithmetic, subtracting from every column of [M] the mean column
    of [M], as the training does, leaves a matrix whose rows sum to zero and
    whose mean column is zero. *)
Theorem m_subtract_columns_m_mean_column (M : matrix_t R) :
  wf_matrix M ->
  exists mean A zero,
    m_mean_column M = Ok mean /\ MatrixDual.m_subtract_columns M mean = Ok A /\
    rows A = rows M /\ cols A = cols M /\
    (forall i j, 0 <= i < rows M -> 0 <= j < cols M ->
       elem A i j = Ok (entry M i j - row_mean M i)%R) /\
    (forall i, 0 <= i < rows M -> Rsum (fun k => entry A i k) (cols M) = 0%R) /\
    m_mean_column A = Ok zero /\
    (forall i, 0 <= i < rows M -> elem zero i 0 = Ok 0%R).
Proof.
  intros Hwf. pose proof (wf_pos M Hwf) as [Hr Hc].
  pose proof (wf_shaped M Hwf) as Hsh. pose proof (wf_entry M Hwf) as Hf.
  destruct (m_mean_column_spec (rows M) (cols M) M (entry M))
    as (mean & Em & Hshm & Hm); [lia | lia | assumption..|].
  destruct (subtract_columns_loop (rows M) (cols M) M mean (entry M) (row_mean M))
    as (A & EA & HshA & HA); [lia | lia | assumption.. | |].
  { intros j Hj. rewrite (Hm j Hj). reflexivity. }
  assert (Hsum : forall i, 0 <= i < rows M -> Rsum (fun k => entry A i k) (cols M) = 0%R).
  { intros i Hi.
    rewrite (Rsum_ext _ (fun k => (entry M i k - Rsum (fun k => entry M i k) (cols M)
                                                 / IZR (cols M))%R)).
    - apply Rsum_centred. lia.
    - intros k Hk. unfold entry at 1. rewrite (HA i k Hi Hk). reflexivity. }
  destruct (m_mean_column_spec (rows M) (cols M) A
              (fun i j => (entry M i j - row_mean M i)%R))
    as (zero & Ez & Hshz & Hz); [lia | lia | assumption..|].
  exists mean, A, zero. split; [exact Em|]. split.
  - unfold MatrixDual.m_subtract_columns. destruct Hshm as (Erm & Ecm & _).
    rewrite Erm, Ecm, !Z.eqb_refl. cbn [andb assert bind]. exact EA.
  - pose proof HshA as (ErA & EcA & _). split; [exact ErA|]. split; [exact EcA|].
    split; [exact HA|]. split; [exact Hsum|]. split; [exact Ez|].
    intros i Hi. rewrite (Hz i Hi). f_equal.
    change (Rsum (fun k => (entry M i k - row_mean M i)%R) (cols M) / IZR (cols M) = 0)%R.
    rewrite (Rsum_ext _ (fun k => entry A i k)).
    + rewrite (Hsum i Hi). unfold Rdiv. apply Rmult_0_l.
    + intros k Hk. unfold entry at 2. rewrite (HA i k Hi Hk). reflexivity.
Qed.

Lemma m_subtract_columns_m_mean_column_witness :
  exists mean A zero,
    m_mean_column two_observations = Ok mean /\
    MatrixDual.m_subtract_columns two_observations mean = Ok A /\
    rows A = rows two_observations /\ cols A = cols two_observations /\
    (forall i j, 0 <= i < rows two_observations -> 0 <= j < cols two_observations ->
       elem A i j = Ok (entry two_observations i j - row_mean two_observations i)%R) /\
    (forall i, 0 <= i < rows two_observations ->
       Rsum (fun k => entry A i k) (cols two_observations) = 0%R) /\
    m_mean_column A = Ok zero /\
    (forall i, 0 <= i < rows two_observations -> elem zero i 0 = Ok 0%R).
Proof.
  apply (m_subtract_columns_m_mean_column two_observations).
  split; [reflexivity|]. split; [reflexivity|]. split; [reflexivity|].
  repeat constructor; eexists; reflexivity.
Defined.

(** ** The two revisions of the covariance, related *)






(** ** The distance functions in exact arithmetic *)

Section CosineCells.
Context {T : Type} `{Precision T}.
Implicit Types (A B : matrix_t T).

(** The loop that accumulates the two squared norms. *)
Lemma norms_loop A (i : Z) B (j : Z) (r : Z) (fa fb : Z -> T) :
  0 <= r ->
  (forall k, 0 <= k < r -> elem A k i = Ok (fa k)) ->
  (forall k, 0 <= k < r -> elem B k j = Ok (fb k)) ->
  for_loop 0 r (fun k '(abs_x, abs_y) =>
    let* u := elem A k i in
    let* w := elem B k j in
    Ok (p_add abs_x (p_mul u u), p_add abs_y (p_mul w w))) (p_of_int 0, p_of_int 0)
  = Ok (p_sum (fun k => p_mul (fa k) (fa k)) r, p_sum (fun k => p_mul (fb k) (fb k)) r).
Proof.
  intros Hr Ha Hb.
  destruct (for_loop_inv
              (fun n st => st = (p_sum (fun k => p_mul (fa k) (fa k)) n,
                                 p_sum (fun k => p_mul (fb k) (fb k)) n))
              0 r
              (fun k '(abs_x, abs_y) =>
                 let* u := elem A k i in
                 let* w := elem B k j in
                 Ok (p_add abs_x (p_mul u u), p_add abs_y (p_mul w w)))
              (p_of_int 0, p_of_int 0))
    as (st & E & ->); [lia | reflexivity | | exact E].
  intros k st Hk ->. rewrite (Ha k Hk), (Hb k Hk). cbn [bind].
  eexists. split; [reflexivity|]. unfold p_sum.
  replace (Z.to_nat (k + 1)) with (S (Z.to_nat k)) by lia. cbn [big_sum].
  rewrite Z2Nat.id by lia. reflexivity.
Qed.

Lemma dot_loop A (i : Z) B (j : Z) (r : Z) (fa fb : Z -> T) :
  0 <= r ->
  (forall k, 0 <= k < r -> elem A k i = Ok (fa k)) ->
  (forall k, 0 <= k < r -> elem B k j = Ok (fb k)) ->
  for_loop 0 r (fun k x_dot_y =>
    let* x := (let* u := elem A k i in
               let* w := elem B k j in
               Ok (p_mul u w)) in
    Ok (p_add x_dot_y x)) (p_of_int 0)
  = Ok (p_sum (fun k => p_mul (fa k) (fb k)) r).
Proof.
  intros Hr Ha Hb.
  apply (for_loop_sum (p_of_int 0) p_add _ (fun k => p_mul (fa k) (fb k)) r Hr).
  intros k Hk. rewrite (Ha k Hk), (Hb k Hk). reflexivity.
Qed.

Lemma m_dist_COS_cells A (i : Z) B (j : Z) (r : Z) (fa fb : Z -> T) :
  rows A = r -> rows B = r -> 0 <= r ->
  (forall k, 0 <= k < r -> elem A k i = Ok (fa k)) ->
  (forall k, 0 <= k < r -> elem B k j = Ok (fb k)) ->
  MatrixCpu.m_dist_COS A i B j
  = Ok (p_div (p_opp (p_sum (fun k => p_mul (fa k) (fb k)) r))
              (p_mul (p_sqrt (p_sum (fun k => p_mul (fa k) (fa k)) r))
                     (p_sqrt (p_sum (fun k => p_mul (fb k) (fb k)) r)))) /\
  MatrixDual.m_dist_COS A i B j
  = Ok (p_div (p_opp (p_sum (fun k => p_mul (fa k) (fb k)) r))
              (p_sqrt (p_mul (p_sum (fun k => p_mul (fa k) (fa k)) r)
                             (p_sum (fun k => p_mul (fb k) (fb k)) r)))).
Proof.
  intros ErA ErB Hr Ha Hb.
  unfold MatrixCpu.m_dist_COS, MatrixDual.m_dist_COS.
  rewrite ErA, ErB, Z.eqb_refl. cbn [assert bind].
  rewrite (dot_loop A i B j r fa fb Hr Ha Hb). cbn [bind].
  rewrite (norms_loop A i B j r fa fb Hr Ha Hb). cbn [bind].
  split; reflexivity.
Qed.

End CosineCells.

Section RealDistances.
Local Open Scope R_scope.

Lemma Rsum_nonneg_zero (f : Z -> R) (n : Z) :
  (0 <= n)%Z -> (forall k, (0 <= k < n)%Z -> 0 <= f k) -> Rsum f n = 0 ->
  forall k, (0 <= k < n)%Z -> f k = 0.
Proof.
  intros Hn. pattern n. apply Rsum_ind; [| | exact Hn].
  - intros _ _ k Hk. lia.
  - intros m Hm IH Hpos Hsum k Hk. rewrite Rsum_S in Hsum by lia.
    assert (0 <= Rsum f m) by (apply Rsum_nonneg; [lia | intros; apply Hpos; lia]).
    assert (0 <= f m) by (apply Hpos; lia).
    destruct (Z.eq_dec k m) as [->|Hne]; [lra|].
    apply IH; [intros; apply Hpos; lia | lra | lia].
Qed.

(** The inequality of Cauchy and Schwarz for finite sums. *)
Lemma Rsum_cauchy_schwarz (x y : Z -> R) (n : Z) :
  (0 <= n)%Z ->
  Rsum (fun k => x k * y k) n * Rsum (fun k => x k * y k) n
  <= Rsum (fun k => x k * x k) n * Rsum (fun k => y k * y k) n.
Proof.
  intros Hn.
  set (D := Rsum (fun k => x k * y k) n).
  set (X := Rsum (fun k => x k * x k) n).
  set (Y := Rsum (fun k => y k * y k) n).
  assert (HY : 0 <= Y) by (apply Rsum_nonneg; [lia | intros; apply Rle_0_sqr]).
  assert (HX : 0 <= X) by (apply Rsum_nonneg; [lia | intros; apply Rle_0_sqr]).
  assert (Hexp : Rsum (fun k => (Y * x k - D * y k) * (Y * x k - D * y k)) n
                 = Y * (X * Y - D * D)).
  { rewrite (Rsum_ext _ (fun k => (Y * Y) * (x k * x k)
                                  + ((- (2 * Y * D)) * (x k * y k)
                                     + (D * D) * (y k * y k))))
      by (intros; ring).
    rewrite Rsum_plus, Rsum_plus by lia. rewrite !Rsum_scal by lia.
    fold D X Y. ring. }
  assert (Hpos : 0 <= Y * (X * Y - D * D)).
  { rewrite <- Hexp. apply Rsum_nonneg; [lia | intros; apply Rle_0_sqr]. }
  destruct (Req_dec Y 0) as [HY0|HY0].
  - assert (Hy : forall k, (0 <= k < n)%Z -> y k = 0).
    { intros k Hk.
      assert (Hsq : y k * y k = 0).
      { apply (Rsum_nonneg_zero (fun k => y k * y k) n Hn); [intros; apply Rle_0_sqr | | exact Hk].
        exact HY0. }
      apply Rmult_integral in Hsq. tauto. }
    assert (HD : D = 0).
    { unfold D. rewrite (Rsum_ext _ (fun _ => 0)).
      - apply Rsum_zero. lia.
      - intros k Hk. rewrite (Hy k Hk). ring. }
    rewrite HD, HY0. lra.
  - assert (0 < Y) by lra. 
    assert (0 <= X * Y - D * D).
    { apply (Rmult_le_reg_l Y); [assumption|]. rewrite Rmult_0_r. exact Hpos. }
    lra.
Qed.

End RealDistances.

(** In exact arithmetic [m_dist_L2] between columns of matrices with the same
    number of rows returns a distance that does not depend on the order of
    its arguments, is not negative, and is zero exactly when the two columns
    are equal; [m_dist_L1] returns its square root. When the numbers of rows
    differ both are stopped by the assertion. *)
Theorem m_dist_L2_metric (A B : matrix_t R) (i j : Z) :
  wf_matrix A -> wf_matrix B -> 0 <= i < cols A -> 0 <= j < cols B ->
  (rows A = rows B ->
     exists d, m_dist_L2 A i B j = Ok d /\ m_dist_L2 B j A i = Ok d /\
       (0 <= d)%R /\
       (d = 0%R <-> forall k, 0 <= k < rows A -> entry A k i = entry B k j) /\
       m_dist_L1 A i B j = Ok (R_sqrt.sqrt d)) /\
  (rows A <> rows B -> m_dist_L2 A i B j = Abort /\ m_dist_L1 A i B j = Abort).
Proof.
  intros HA HB Hi Hj. split.
  - intros Er. pose proof (wf_pos A HA) as [Hr _].
    pose proof (wf_entry A HA) as Ha. pose proof (wf_entry B HB) as Hb.
    rewrite <- Er in Hb.
    set (d := Rsum (fun k => ((entry A k i - entry B k j)
                              * (entry A k i - entry B k j))%R) (rows A)).
    assert (E1 : m_dist_L2 A i B j = Ok d).
    { rewrite (m_dist_L2_spec A i B j (rows A) (fun k => entry A k i) (fun k => entry B k j));
        [reflexivity | reflexivity | congruence | lia
         | intros; apply Ha; lia | intros; apply Hb; lia]. }
    assert (E2 : m_dist_L2 B j A i = Ok d).
    { rewrite (m_dist_L2_spec B j A i (rows A) (fun k => entry B k j) (fun k => entry A k i));
        [| congruence | reflexivity | lia | intros; apply Hb; lia | intros; apply Ha; lia].
      f_equal. apply Rsum_ext. intros k _. cbn [p_mul p_sub real_precision]. ring. }
    exists d. split; [exact E1|]. split; [exact E2|]. split; [|split].
    + apply Rsum_nonneg; [lia | intros; apply Rle_0_sqr].
    + split.
      * intros Hd k Hk.
        assert (Hsq : ((entry A k i - entry B k j) * (entry A k i - entry B k j))%R = 0%R).
        { apply (Rsum_nonneg_zero
                   (fun k => ((entry A k i - entry B k j) * (entry A k i - entry B k j))%R)
                   (rows A)); [lia | intros; apply Rle_0_sqr | exact Hd | exact Hk]. }
        apply Rmult_integral in Hsq. lra.
      * intros Heq. unfold d. rewrite (Rsum_ext _ (fun _ => 0%R)).
        -- apply Rsum_zero. lia.
        -- intros k Hk. rewrite (Heq k Hk). ring.
    + unfold m_dist_L1. rewrite E1. reflexivity.
  - intros Hne. unfold m_dist_L1, m_dist_L2.
    destruct (Z.eqb_spec (rows A) (rows B)); [contradiction|]. split; reflexivity.
Qed.

Lemma m_dist_L2_metric_witness :
  (rows two_observations = rows two_observations ->
     exists d, m_dist_L2 two_observations 0 two_observations 1 = Ok d /\
       m_dist_L2 two_observations 1 two_observations 0 = Ok d /\
       (0 <= d)%R /\
       (d = 0%R <-> forall k, 0 <= k < rows two_observations ->
                              entry two_observations k 0 = entry two_observations k 1) /\
       m_dist_L1 two_observations 0 two_observations 1 = Ok (R_sqrt.sqrt d)) /\
  (rows two_observations <> rows two_observations ->
     m_dist_L2 two_observations 0 two_observations 1 = Abort /\
     m_dist_L1 two_observations 0 two_observations 1 = Abort).
Proof.
  apply (m_dist_L2_metric two_observations two_observations 0 1).
  - split; [reflexivity|]. split; [reflexivity|]. split; [reflexivity|].
    repeat constructor; eexists; reflexivity.
  - split; [reflexivity|]. split; [reflexivity|]. split; [reflexivity|].
    repeat constructor; eexists; reflexivity.
  - simpl. lia.
  - simpl. lia.
Defined.

(** In exact arithmetic, between two columns that are not zero, the two
    revisions of [m_dist_COS] return the same distance; it lies between -1
    and 1, and it is -1, the least value there is, when the columns are
    equal. *)
Theorem m_dist_COS_range (A B : matrix_t R) (i j : Z) :
  wf_matrix A -> wf_matrix B -> rows A = rows B ->
  0 <= i < cols A -> 0 <= j < cols B ->
  (exists k, 0 <= k < rows A /\ entry A k i <> 0%R) ->
  (exists k, 0 <= k < rows A /\ entry B k j <> 0%R) ->
  exists d, MatrixCpu.m_dist_COS A i B j = Ok d /\ MatrixDual.m_dist_COS A i B j = Ok d /\
    (-1 <= d <= 1)%R /\
    ((forall k, 0 <= k < rows A -> entry A k i = entry B k j) -> d = (-1)%R).
Proof.
  intros HA HB Er Hi Hj (ka & Hka & Hxa) (kb & Hkb & Hxb).
  pose proof (wf_pos A HA) as [Hr _].
  pose proof (wf_entry A HA) as Ha. pose proof (wf_entry B HB) as Hb. rewrite <- Er in Hb.
  destruct (m_dist_COS_cells A i B j (rows A) (fun k => entry A k i) (fun k => entry B k j))
    as (Ecpu & Edual);
    [reflexivity | congruence | lia | intros; apply Ha; lia | intros; apply Hb; lia |].
  cbn [p_div p_opp p_mul p_sqrt real_precision] in Ecpu, Edual.
  fold (Rsum (fun k => (entry A k i * entry B k j)%R) (rows A)) in Ecpu, Edual.
  fold (Rsum (fun k => (entry A k i * entry A k i)%R) (rows A)) in Ecpu, Edual.
  fold (Rsum (fun k => (entry B k j * entry B k j)%R) (rows A)) in Ecpu, Edual.
  set (D := Rsum (fun k => (entry A k i * entry B k j)%R) (rows A)) in *.
  set (X := Rsum (fun k => (entry A k i * entry A k i)%R) (rows A)) in *.
  set (Y := Rsum (fun k => (entry B k j * entry B k j)%R) (rows A)) in *.
  assert (Hpos : forall (f : Z -> R) (k : Z), 0 <= k < rows A -> f k <> 0%R ->
            (0 < Rsum (fun t => (f t * f t)%R) (rows A))%R).
  { intros f k Hk Hfk.
    assert (0 <= Rsum (fun t => (f t * f t)%R) (rows A))%R
      by (apply Rsum_nonneg; [lia | intros; apply Rle_0_sqr]).
    destruct (Req_dec (Rsum (fun t => (f t * f t)%R) (rows A)) 0) as [Hz|Hnz]; [|lra].
    exfalso. apply Hfk.
    assert (Hsq : (f k * f k)%R = 0%R).
    { apply (Rsum_nonneg_zero (fun t => (f t * f t)%R) (rows A));
        [lia | intros; apply Rle_0_sqr | exact Hz | exact Hk]. }
    apply Rmult_integral in Hsq. tauto. }
  assert (HX : (0 < X)%R) by (apply (Hpos (fun k => entry A k i) ka Hka Hxa)).
  assert (HY : (0 < Y)%R) by (apply (Hpos (fun k => entry B k j) kb Hkb Hxb)).
  assert (Hs : (R_sqrt.sqrt X * R_sqrt.sqrt Y = R_sqrt.sqrt (X * Y))%R)
    by (symmetry; apply sqrt_mult; lra).
  assert (Hspos : (0 < R_sqrt.sqrt (X * Y))%R)
    by (apply sqrt_lt_R0; apply Rmult_lt_0_compat; assumption).
  assert (Habs : (Rabs D <= R_sqrt.sqrt (X * Y))%R).
  { rewrite <- sqrt_Rsqr_abs. apply sqrt_le_1.
    - apply Rle_0_sqr.
    - apply Rmult_le_pos; lra.
    - unfold Rsqr. apply Rsum_cauchy_schwarz. lia. }
  exists (- D / R_sqrt.sqrt (X * Y))%R. split; [rewrite Ecpu, Hs; reflexivity|].
  split; [exact Edual|]. split.
  - set (s := R_sqrt.sqrt (X * Y)) in *.
    assert (Hq : (0 < / s)%R) by (apply Rinv_0_lt_compat; exact Hspos).
    assert (Hone : (s * / s = 1)%R) by (apply Rinv_r; lra).
    assert (Hbetween : (- s <= D <= s)%R)
      by (unfold Rabs in Habs; destruct (Rcase_abs D); lra).
    unfold Rdiv. split.
    + assert ((- s) * / s <= (- D) * / s)%R by (apply Rmult_le_compat_r; lra). lra.
    + assert ((- D) * / s <= s * / s)%R by (apply Rmult_le_compat_r; lra). lra.
  - intros Heq.
    assert (HDX : D = X).
    { unfold D, X. apply Rsum_ext. intros k Hk. rewrite <- (Heq k Hk). reflexivity. }
    assert (HYX : Y = X).
    { unfold Y, X. apply Rsum_ext. intros k Hk. rewrite (Heq k Hk). reflexivity. }
    rewrite HDX, HYX. rewrite sqrt_square by lra. field. lra.
Qed.

Lemma m_dist_COS_range_witness :
  exists d, MatrixCpu.m_dist_COS two_observations 0 two_observations 1 = Ok d /\
    MatrixDual.m_dist_COS two_observations 0 two_observations 1 = Ok d /\
    (-1 <= d <= 1)%R /\
    ((forall k, 0 <= k < rows two_observations ->
                entry two_observations k 0 = entry two_observations k 1) -> d = (-1)%R).
Proof.
  apply (m_dist_COS_range two_observations two_observations 0 1).
  - split; [reflexivity|]. split; [reflexivity|]. split; [reflexivity|].
    repeat constructor; eexists; reflexivity.
  - split; [reflexivity|]. split; [reflexivity|]. split; [reflexivity|].
    repeat constructor; eexists; reflexivity.
  - reflexivity.
  - simpl. lia.
  - simpl. lia.
  - exists 0. split; [simpl; lia|]. change (1%R <> 0%R). lra.
  - exists 0. split; [simpl; lia|]. change (3%R <> 0%R). lra.
Defined.

(** ** Shuffling the columns *)

Section Shuffle.
Context {T : Type}.
Implicit Types (M : matrix_t T).

(** The three copies that exchange columns [i] and [j] through [temp]. *)
Lemma swap_columns (r c i j : Z) M (temp : list (option T)) (g : Z -> Z -> T) :
  0 <= r -> 0 <= i < c -> 0 <= j < c -> i <> j ->
  shaped r c M -> Z.of_nat (length temp) = r -> entries_are r c M g ->
  exists temp' d1 d2,
    memcpy_to temp 0 (data M) (elem_index M 0 i) (rows M) = Ok temp' /\
    memcpy_to (data M) (elem_index M 0 i) (data M) (elem_index M 0 j) (rows M) = Ok d1 /\
    memcpy_to (data (with_data M d1)) (elem_index (with_data M d1) 0 j) temp' 0
              (rows (with_data M d1)) = Ok d2 /\
    Z.of_nat (length temp') = r /\
    shaped r c (with_data (with_data M d1) d2) /\
    entries_are r c (with_data (with_data M d1) d2)
      (fun k a => if a =? i then g k j else if a =? j then g k i else g k a).
Proof.
  intros Hr Hi Hj Hne (Er & Ec & Hlen) Htemp Hg.
  unfold elem_index. cbn [with_data rows data]. rewrite Er.
  destruct (memcpy_to_cells temp 0 (data M) (0 + i * r) r) as (temp' & E1 & L1 & In1 & _);
    [lia | nia | lia | nia | lia |].
  destruct (memcpy_to_cells (data M) (0 + i * r) (data M) (0 + j * r) r)
    as (d1 & E2 & L2 & In2 & Out2); [nia | nia | lia | nia | nia |].
  destruct (memcpy_to_cells d1 (0 + j * r) temp' 0 r) as (d2 & E3 & L3 & In3 & Out3);
    [nia | lia | lia | lia | nia |].
  exists temp', d1, d2. split; [exact E1|]. split; [exact E2|]. split; [exact E3|].
  split; [lia|]. split.
  - split; [exact Er|]. split; [exact Ec|]. cbn [with_data data]. lia.
  - intros k a Hk Ha. unfold elem, elem_index. cbn [with_data rows data]. rewrite Er.
    assert (Hcell : forall b, 0 <= b < c -> load (data M) (k + b * r) = Ok (g k b)).
    { intros b Hb. rewrite <- (Hg k b Hk Hb). unfold elem, elem_index. rewrite Er.
      reflexivity. }
    destruct (Z.eqb_spec a i) as [->|Hai].
    + rewrite Out3 by nia. rewrite In2 by nia.
      replace (0 + j * r + (k + i * r - (0 + i * r))) with (k + j * r) by lia.
      apply Hcell. exact Hj.
    + destruct (Z.eqb_spec a j) as [->|Haj].
      * rewrite In3 by nia. rewrite In1 by nia.
        replace (0 + i * r + (0 + (k + j * r - (0 + j * r)) - 0)) with (k + i * r) by lia.
        apply Hcell. exact Hi.
      * rewrite Out3 by nia. rewrite Out2 by nia. apply Hcell. exact Ha.
Qed.

End Shuffle.

(** Whatever [rand] returns, [m_shuffle_columns] permutes the columns: the
    result has the shape of [M] and its column [a] is the column [sigma a] of
    [M] for a one-to-one correspondence [sigma] of the column indices, so that
    no column is lost and none is repeated; [rand] is called once for every
    column but the last. *)
Theorem m_shuffle_columns_permutes (T : Type) (rand : nat -> Z) (calls : nat)
    (M : matrix_t T) :
  (forall n, 0 <= rand n) -> wf_matrix M ->
  exists M' (sigma tau : Z -> Z),
    MatrixDual.m_shuffle_columns rand calls M
    = Ok (M', (calls + Z.to_nat (cols M - 1))%nat) /\
    rows M' = rows M /\ cols M' = cols M /\
    (forall a, 0 <= a < cols M -> 0 <= sigma a < cols M /\ tau (sigma a) = a) /\
    (forall b, 0 <= b < cols M -> 0 <= tau b < cols M /\ sigma (tau b) = b) /\
    (forall k a, 0 <= k < rows M -> 0 <= a < cols M -> elem M' k a = elem M k (sigma a)).
Proof.
  intros Hrand Hwf. destruct (wf_elem_fun M Hwf) as [f Hf].
  pose proof (wf_shaped M Hwf) as Hsh. destruct Hwf as (Hr & Hc & _).
  set (r := rows M) in *. set (c := cols M) in *.
  unfold MatrixDual.m_shuffle_columns. fold r c.
  destruct (for_loop_inv
              (fun i (st : matrix_t T * list (option T) * nat) =>
                 shaped r c (fst (fst st)) /\
                 Z.of_nat (length (snd (fst st))) = r /\
                 snd st = (calls + Z.to_nat i)%nat /\
                 exists sigma tau : Z -> Z,
                   (forall a, 0 <= a < c -> 0 <= sigma a < c /\ tau (sigma a) = a) /\
                   (forall b, 0 <= b < c -> 0 <= tau b < c /\ sigma (tau b) = b) /\
                   entries_are r c (fst (fst st)) (fun k a => f k (sigma a)))
              0 (c - 1)
              (fun i '(M, temp, calls) =>
                 let j := Z.rem (rand calls) (cols M - i) + i in
                 let calls := S calls in
                 if negb (i =? j)
                 then let* temp := memcpy_to temp 0 (data M) (elem_index M 0 i) (rows M) in
                      let* d := memcpy_to (data M) (elem_index M 0 i)
                                          (data M) (elem_index M 0 j) (rows M) in
                      let M := with_data M d in
                      let* d := memcpy_to (data M) (elem_index M 0 j) temp 0 (rows M) in
                      Ok (with_data M d, temp, calls)
                 else Ok (M, temp, calls))
              (M, replicate (Z.to_nat r) None, calls))
    as ([[M' temp'] n'] & E & HshM' & _ & Hn' & sigma & tau & Hs & Ht & HM'); [lia | | |].
  - cbn [fst snd]. split; [exact Hsh|]. split; [rewrite length_replicate; lia|].
    split; [lia|]. exists (fun a => a), (fun a => a).
    split; [intros; split; [assumption | reflexivity]|].
    split; [intros; split; [assumption | reflexivity]|]. exact Hf.
  - intros i [[M1 temp1] n1] Hi (Hsh1 & Htemp1 & Hn1 & sigma & tau & Hs & Ht & H1).
    cbn [fst snd] in *. pose proof Hsh1 as (Er1 & Ec1 & _). rewrite Ec1.
    set (j := Z.rem (rand n1) (c - i) + i).
    assert (Hj : i <= j < c).
    { pose proof (Z.rem_bound_pos (rand n1) (c - i) (Hrand n1) ltac:(lia)). unfold j. lia. }
    cbv zeta. destruct (Z.eqb_spec i j) as [Heq|Hne]; cbn [negb].
    + eexists. split; [reflexivity|]. cbn [fst snd].
      split; [exact Hsh1|]. split; [exact Htemp1|]. split; [lia|].
      exists sigma, tau. auto.
    + destruct (swap_columns r c i j M1 temp1 (fun k a => f k (sigma a)))
        as (t' & d1 & d2 & E1 & E2 & E3 & Ht' & Hsh2 & H2);
        [lia | lia | lia | exact Hne | exact Hsh1 | exact Htemp1 | exact H1 |].
      rewrite E1. cbn [bind]. rewrite E2. cbn [bind]. rewrite E3. cbn [bind].
      eexists. split; [reflexivity|]. cbn [fst snd].
      split; [exact Hsh2|]. split; [exact Ht'|]. split; [lia|].
      exists (fun a => if a =? i then sigma j else if a =? j then sigma i else sigma a),
             (fun b => if tau b =? i then j else if tau b =? j then i else tau b).
      split; [|split].
      * intros a Ha.
        destruct (Z.eqb_spec a i) as [->|Hai].
        -- destruct (Hs j) as [? Hts]; [lia|]. rewrite Hts. split; [assumption|].
           destruct (Z.eqb_spec j i); [lia|]. rewrite Z.eqb_refl. reflexivity.
        -- destruct (Z.eqb_spec a j) as [->|Haj].
           ++ destruct (Hs i) as [? Hts]; [lia|]. rewrite Hts. split; [assumption|].
              rewrite Z.eqb_refl. reflexivity.
           ++ destruct (Hs a Ha) as [? Hts]. rewrite Hts. split; [assumption|].
              destruct (Z.eqb_spec a i); [contradiction|].
              destruct (Z.eqb_spec a j); [contradiction|]. reflexivity.
      * intros b Hb. destruct (Ht b Hb) as [Hrange Hst].
        destruct (Z.eqb_spec (tau b) i) as [Hbi|Hbi].
        -- split; [lia|]. destruct (Z.eqb_spec j i); [lia|]. rewrite Z.eqb_refl.
           rewrite <- Hbi. exact Hst.
        -- destruct (Z.eqb_spec (tau b) j) as [Hbj|Hbj].
           ++ split; [lia|]. rewrite Z.eqb_refl. rewrite <- Hbj. exact Hst.
           ++ split; [exact Hrange|].
              destruct (Z.eqb_spec (tau b) i); [contradiction|].
              destruct (Z.eqb_spec (tau b) j); [contradiction|]. exact Hst.
      * intros k a Hk Ha. rewrite (H2 k a Hk Ha).
        destruct (Z.eqb_spec a i); [reflexivity|]. destruct (Z.eqb_spec a j); reflexivity.
  - cbn [fst snd] in *. exists M', sigma, tau. rewrite E. cbn [bind]. subst n'.
    split; [reflexivity|]. destruct HshM' as (Er' & Ec' & _).
    split; [exact Er'|]. split; [exact Ec'|]. split; [exact Hs|]. split; [exact Ht|].
    intros k a Hk Ha. rewrite (HM' k a Hk Ha). symmetry. apply Hf; [exact Hk|].
    apply Hs. exact Ha.
Qed.

(** A generator that always returns 1, on a matrix of two columns. *)
Lemma m_shuffle_columns_permutes_witness :
  exists M' (sigma tau : Z -> Z),
    MatrixDual.m_shuffle_columns (fun _ => 1) 0 small_doubles
    = Ok (M', (0 + Z.to_nat (cols small_doubles - 1))%nat) /\
    rows M' = rows small_doubles /\ cols M' = cols small_doubles /\
    (forall a, 0 <= a < cols small_doubles ->
               0 <= sigma a < cols small_doubles /\ tau (sigma a) = a) /\
    (forall b, 0 <= b < cols small_doubles ->
               0 <= tau b < cols small_doubles /\ sigma (tau b) = b) /\
    (forall k a, 0 <= k < rows small_doubles -> 0 <= a < cols small_doubles ->
                 elem M' k a = elem small_doubles k (sigma a)).
Proof.
  apply (m_shuffle_columns_permutes float (fun _ => 1) 0%nat small_doubles).
  - intros n. lia.
  - split; [reflexivity|]. split; [reflexivity|]. split; [reflexivity|].
    repeat constructor; eexists; reflexivity.
Defined.

(** ** The database without an algorithm *)

Lemma m_fread_no_abort {T : Type} `{ObjRep T} (s : stream) : m_fread (T := T) s <> Abort.
Proof.
  unfold m_fread, fread_int.
  destruct (4 <=? length s)%nat; cbn [bind]; [|discriminate].
  destruct (4 <=? length (drop 4 s))%nat; cbn [bind]; [|discriminate].
  unfold fread_data.
  match goal with |- context [if ?b then _ else _] => destruct b end; [|discriminate].
  match goal with |- context [fread_items ?n ?t] => destruct (fread_items n t) end.
  discriminate.
Qed.

(** With no algorithm enabled [db_save] still returns, writing the manifest
    and the mean face alone, but [db_load] into a database constructed with
    the same flags never returns: the projection of PCA that it reads the
    number of images from is the NULL that [db_construct] left. *)
Theorem db_load_no_algorithm (T : Type) (rep : ObjRep T) (laws : ObjRepLaws T)
    (fprintf_entry : Database.image_entry_t -> list byte)
    (fscanf_entry : stream -> Database.image_entry_t * stream)
    (db : Database.database_t T) :
  Database.trained db -> Database.enabled_any db = false ->
  (exists tset m, Database.mean_face db = Some m /\
     Database.db_save fprintf_entry db = Ok (tset, matrix_bytes m)) /\
  (forall tset tdata : stream,
     Database.db_load fscanf_entry
       (Database.db_construct (Database.pca db) (Database.lda db) (Database.ica db))
       tset tdata = Undefined).
Proof.
  intros (Hn & (m & Em & (Hwf & _)) & _) Hany.
  unfold Database.enabled_any in Hany.
  destruct (Database.truth (Database.pca db)) eqn:Ep; [discriminate|].
  destruct (Database.truth (Database.lda db)) eqn:El; [discriminate|].
  destruct (Database.truth (Database.ica db)) eqn:Ei; [discriminate|].
  split.
  - destruct (manifest_written fprintf_entry db Hn) as [tset Etset].
    exists tset, m. split; [exact Em|].
    unfold Database.db_save. rewrite Etset. cbn [bind]. rewrite Em. cbn [bind Database.deref].
    rewrite (m_fwrite_Ok [] m Hwf). cbn [bind]. rewrite Ep, El, Ei. reflexivity.
  - intros tset tdata. unfold Database.db_load.
    destruct (m_fread tdata) as [[m' rest]| |] eqn:E; cbn [bind];
      [| exfalso; exact (m_fread_no_abort tdata E) | reflexivity].
    do 4 (db_cbn; rewrite ?Ep, ?El, ?Ei; cbn [orb]). reflexivity.
Qed.

Lemma db_load_no_algorithm_witness :
  (exists tset m, Database.mean_face bare_database = Some m /\
     Database.db_save print_entry bare_database = Ok (tset, matrix_bytes m)) /\
  (forall tset tdata : stream,
     Database.db_load scan_entry
       (Database.db_construct (Database.pca bare_database) (Database.lda bare_database)
          (Database.ica bare_database))
       tset tdata = Undefined).
Proof.
  apply (db_load_no_algorithm binary64 binary64_rep binary64_laws print_entry scan_entry
           bare_database).
  - split; [simpl; lia|]. split.
    + eexists. split; [reflexivity|]. split.
      * split; [reflexivity|]. split; [reflexivity|]. split; [reflexivity|].
        repeat constructor; eexists; reflexivity.
      * split; split; vm_compute; congruence.
    + split; [|split]; intros Hflag; discriminate Hflag.
  - reflexivity.
Defined.

(** ** Images into a matrix, and recognition *)

Section ImageMatrix.
Context {T : Type} `{Precision T}.
Variable image_read : list byte -> image_t.
Implicit Types (entries : list Database.image_entry_t).

Lemma entry_at_Ok entries (i : Z) (e : Database.image_entry_t) :
  0 <= i -> entries !! Z.to_nat i = Some e -> Database.entry_at entries i = Ok e.
Proof.
  intros Hi E. unfold Database.entry_at. destruct (Z.ltb_spec i 0); [lia|].
  rewrite E. reflexivity.
Qed.


End ImageMatrix.



(** ** Recognition runs to its end *)

Lemma for_each_inv {A : Type} (f : A -> outcome A) (P Q : A -> Prop) (key : A -> Z)
    (l : list A) :
  Forall P l ->
  (forall a, P a -> exists a', f a = Ok a' /\ Q a' /\ key a' = key a) ->
  exists l', Database.for_each f l = Ok l' /\ Forall Q l' /\ map key l' = map key l.
Proof.
  intros Hall Hf. induction Hall as [|a l Ha Hl IH].
  - exists []. split; [reflexivity|]. split; [constructor | reflexivity].
  - destruct (Hf a Ha) as (a' & Ea & Qa & Ka). destruct IH as (l' & El & Ql & Kl).
    exists (a' :: l'). cbn [Database.for_each]. rewrite Ea. cbn [bind]. rewrite El. cbn [bind].
    split; [reflexivity|]. split; [constructor; assumption|].
    cbn [map]. rewrite Ka, Kl. reflexivity.
Qed.

Lemma filter_length_map {A : Type} (key : A -> Z) (t : Z -> bool) (l : list A) :
  length (List.filter (fun a => t (key a)) l) = length (List.filter t (map key l)).
Proof.
  induction l as [|a l IH]; [reflexivity|]. cbn [List.filter map].
  destruct (t (key a)); cbn [length]; rewrite IH; reflexivity.
Qed.

Section RecognitionFacts.
Context {T : Type} `{Precision T}.
Variable image_read : list byte -> image_t.
Variable is_same_class : list byte -> list byte -> bool.
Implicit Types (db : Database.database_t T) (params : Database.rec_params_t T).

Lemma m_dist_L2_total : Database.dist_total (m_dist_L2 (T := T)).
Proof.
  intros P_test Pm j Ht Hp Er Hj.
  destruct (wf_elem_fun P_test Ht) as [ft Hft]. destruct (wf_elem_fun Pm Hp) as [fp Hfp].
  destruct Ht as (Hr & Hc & _). eexists.
  apply (m_dist_L2_spec P_test 0 Pm j (rows P_test) (fun k => ft k 0) (fun k => fp k j));
    [reflexivity | congruence | lia | intros; apply Hft; lia
     | intros; apply Hfp; [rewrite <- Er|]; lia].
Qed.

Lemma m_dist_COS_total : Database.dist_total (MatrixDual.m_dist_COS (T := T)).
Proof.
  intros P_test Pm j Ht Hp Er Hj.
  destruct (wf_elem_fun P_test Ht) as [ft Hft]. destruct (wf_elem_fun Pm Hp) as [fp Hfp].
  destruct Ht as (Hr & Hc & _). eexists.
  apply (m_dist_COS_cells P_test 0 Pm j (rows P_test) (fun k => ft k 0) (fun k => fp k j));
    [reflexivity | congruence | lia | intros; apply Hft; lia
     | intros; apply Hfp; [rewrite <- Er|]; lia].
Qed.

Lemma rec_table_ok db :
  Database.recognizable db ->
  Forall (Database.params_ok db 0) (Database.rec_table db) /\
  map Database.enabled (Database.rec_table db)
  = [Database.pca db; Database.lda db; Database.ica db].
Proof.
  intros (HN & _ & Hpca & Hlda & Hica). split; [|reflexivity].
  unfold Database.rec_table, Database.algorithms. cbn [map].
  constructor; [|constructor; [|constructor; [|constructor]]];
    (split; [intros Hflag; split; [auto | auto using m_dist_L2_total, m_dist_COS_total]
            | split; cbn [Database.rec_index Database.num_correct]; lia]).
Qed.

Lemma recognize_one_ok db (i : Z) (T_i : matrix_t T) params :
  p_eqb (p_of_int (-1)) (p_of_int (-1)) = true ->
  1 <= Database.num_images db ->
  wf_matrix T_i -> rows T_i = Database.num_dimensions db -> cols T_i = 1 ->
  Database.params_ok db i params ->
  exists params', Database.recognize_one T_i params = Ok params' /\
    Database.params_ok db i params' /\
    Database.enabled params' = Database.enabled params.
Proof.
  intros Hsent HN Hwf Er Ec (Hen & Hidx & Hcount). unfold Database.recognize_one.
  destruct (Database.truth (Database.enabled params)) eqn:Eflag.
  - destruct (Hen eq_refl) as ((W & Pm & EW & EP & HW & HP & HcW & HrP & HcP) & Hd).
    rewrite EW, EP. cbn [bind Database.deref].
    destruct (wf_elem_fun W HW) as [fw Hfw]. destruct (wf_elem_fun T_i Hwf) as [ft Hft].
    pose proof (wf_shaped W HW) as HshW. pose proof (wf_shaped T_i Hwf) as HshT.
    rewrite Er, Ec in HshT, Hft. rewrite <- HcW in HshT, Hft.
    pose proof HW as (HrW & HcW' & _).
    destruct (m_product_spec (rows W) (cols W) 1 W T_i fw ft) as (Pt & EPt & HshPt & HPt);
      [lia | lia | lia | exact HshW | exact HshT | exact Hfw | exact Hft |].
    rewrite EPt. cbn [bind].
    assert (HwfPt : wf_matrix Pt)
      by (apply (wf_of_entries (rows W) 1 Pt _ HrW ltac:(lia) HshPt HPt)).
    destruct (nearest_neighbor_range Pm Pt (Database.dist_func params) Hsent) as (r & Er' & _ & Hr');
      [lia | |].
    { intros j Hj. apply Hd; [exact HwfPt | exact HP | | exact Hj].
      destruct HshPt as (ErPt & _). congruence. }
    rewrite Er'. cbn [bind]. eexists. split; [reflexivity|]. split; [|reflexivity].
    split; [|split]; cbn [Database.enabled Database.W_tr Database.P Database.dist_func
                          Database.rec_index Database.num_correct].
    + intros _. rewrite <- EW, <- EP. exact (Hen eq_refl).
    + rewrite <- HcP. apply Hr'. lia.
    + exact Hcount.
  - exists params. split; [reflexivity|]. split; [|reflexivity].
    split; [intros Hflag; rewrite Eflag in Hflag; discriminate | split; assumption].
Qed.

Lemma count_one_ok db (i : Z) (image_name : list byte) params :
  Database.num_images db <= Z.of_nat (length (Database.entries db)) ->
  Database.params_ok db i params ->
  exists params', Database.count_one is_same_class db image_name params = Ok params' /\
    Database.params_ok db (i + 1) params' /\
    Database.enabled params' = Database.enabled params.
Proof.
  intros HN (Hen & Hidx & Hcount). unfold Database.count_one.
  destruct (Database.truth (Database.enabled params)) eqn:Eflag.
  - destruct (lookup_lt_is_Some_2 (Database.entries db)
                (Z.to_nat (Database.rec_index params))) as [e He]; [lia|].
    rewrite (entry_at_Ok _ _ e) by (lia || exact He). cbn [bind].
    destruct (is_same_class (Database.name e) image_name).
    + eexists. split; [reflexivity|]. split; [|reflexivity].
      split; [|split]; cbn [Database.enabled Database.W_tr Database.P Database.dist_func
                            Database.rec_index Database.num_correct];
        [intros _; exact (Hen eq_refl) | exact Hidx | lia].
    + exists params. split; [reflexivity|]. split; [|reflexivity].
      split; [intros _; exact (Hen eq_refl) | split; [exact Hidx | lia]].
  - exists params. split; [reflexivity|]. split; [|reflexivity].
    split; [intros Hflag; rewrite Eflag in Hflag; discriminate | split; [exact Hidx | lia]].
Qed.

End RecognitionFacts.

(** On a database that fits its test images ([recognizable]: at least one
    image, the mean face and, for each enabled algorithm, a basis and a
    projection of matching sizes) and test images of [num_dimensions] pixels,
    [db_recognize] runs to its end: every index that [nearest_neighbor]
    returns is that of an entry of the database, and the result holds, for
    each enabled algorithm, a number of matches between 0 and the number of
    test images. *)
Theorem db_recognize_defined (T : Type) (prec : Precision T)
    (image_read : list byte -> image_t)
    (is_same_class : list byte -> list byte -> bool)
    (db : Database.database_t T) (image_names : list (list byte)) :
  p_eqb (p_of_int (-1)) (p_of_int (-1)) = true ->
  Database.recognizable db ->
  Forall (fun nm => Database.image_of_size (Database.num_dimensions db) (image_read nm))
         image_names ->
  exists counts,
    Database.db_recognize image_read is_same_class db image_names = Ok counts /\
    length counts
    = length (List.filter Database.truth
                [Database.pca db; Database.lda db; Database.ica db]) /\
    Forall (fun n => 0 <= n <= Z.of_nat (length image_names)) counts.
Proof.
  intros Hsent Hrec Himages. destruct (rec_table_ok db Hrec) as [Htab Hflags].
  destruct Hrec as (HN & (m & Em & Hm & Erm & Ecm) & _).
  set (d := Database.num_dimensions db) in *.
  assert (Hd : 0 < d) by (destruct Hm as (? & _); lia).
  destruct (wf_elem_fun m Hm) as [fm Hfm]. pose proof (wf_shaped m Hm) as Hshm.
  rewrite Erm, Ecm in Hshm, Hfm.
  unfold Database.db_recognize. fold d.
  destruct (for_loop_inv
              (fun i (st : list (Database.rec_params_t T) * matrix_t T) =>
                 Forall (Database.params_ok db i) (fst st) /\
                 map Database.enabled (fst st)
                 = [Database.pca db; Database.lda db; Database.ica db] /\
                 shaped d 1 (snd st))
              0 (Z.of_nat (length image_names))
              (fun i '(algorithms, T_i) =>
                 let* image_name := match image_names !! Z.to_nat i with
                                    | Some n => Ok n
                                    | None => Undefined
                                    end in
                 let image := image_read image_name in
                 let* T_i := m_image_read T_i 0 image in
                 let* mean := Database.deref (Database.mean_face db) in
                 let* T_i := m_subtract T_i mean in
                 let* algorithms := Database.for_each (Database.recognize_one T_i) algorithms in
                 let* algorithms :=
                   Database.for_each (Database.count_one is_same_class db image_name)
                                     algorithms in
                 Ok (algorithms, T_i))
              (Database.rec_table db, m_initialize d 1))
    as ([algs T_end] & E & Hall & Hen & _); [lia | | |].
  - cbn [fst snd]. split; [exact Htab|]. split; [exact Hflags|].
    apply shaped_initialize. lia.
  - intros i [algs T_i] Hi (Hall & Hen & HshT). cbn [fst snd] in *.
    destruct (lookup_lt_is_Some_2 image_names (Z.to_nat i)) as [nm Hnm]; [lia|].
    rewrite Hnm. cbn [bind]. cbv zeta.
    rewrite Forall_lookup in Himages. destruct (Himages _ _ Hnm) as [Hdim Hlen].
    destruct (m_image_read_cells d 1 T_i 0 (image_read nm))
      as (T1 & E1 & Hsh1 & Hcol1 & _); [lia | exact HshT | lia | congruence | exact Hlen |].
    rewrite E1. cbn [bind]. rewrite Em. cbn [bind Database.deref].
    assert (H1 : entries_are d 1 T1
                   (fun k _ => p_of_int (default 0 (pixels (image_read nm) !! Z.to_nat k)))).
    { intros k j Hk Hj. replace j with 0 by lia.
      destruct (Hcol1 k Hk) as (px & Hpx & Ex). rewrite Ex, Hpx. reflexivity. }
    destruct (m_subtract_cells d 1 T1 m _ fm ltac:(lia) ltac:(lia) Hsh1 Hshm H1 Hfm)
      as (T2 & E2 & Hsh2 & H2).
    rewrite E2. cbn [bind].
    assert (Hwf2 : wf_matrix T2) by (apply (wf_of_entries d 1 T2 _ Hd ltac:(lia) Hsh2 H2)).
    pose proof Hsh2 as (Er2 & Ec2 & _).
    destruct (for_each_inv (Database.recognize_one T2) (Database.params_ok db i)
                (Database.params_ok db i) Database.enabled algs Hall)
      as (algs1 & Ea1 & Hall1 & Hen1).
    { intros p Hp. apply (recognize_one_ok db i T2 p Hsent); [lia | assumption..]. }
    rewrite Ea1. cbn [bind].
    destruct (for_each_inv (Database.count_one is_same_class db nm) (Database.params_ok db i)
                (Database.params_ok db (i + 1)) Database.enabled algs1 Hall1)
      as (algs2 & Ea2 & Hall2 & Hen2).
    { intros p Hp. apply (count_one_ok is_same_class db i nm p); [lia | assumption]. }
    rewrite Ea2. cbn [bind]. eexists. split; [reflexivity|]. cbn [fst snd].
    split; [exact Hall2|]. split; [congruence | exact Hsh2].
  - cbn [fst snd] in *. rewrite E. cbn [bind]. eexists. split; [reflexivity|]. split.
    + rewrite length_map.
      rewrite (filter_length_map Database.enabled Database.truth algs), Hen. reflexivity.
    + apply List.Forall_forall. intros n Hin. apply in_map_iff in Hin.
      destruct Hin as (p & <- & Hp). apply filter_In in Hp. destruct Hp as [Hp _].
      rewrite List.Forall_forall in Hall. destruct (Hall p Hp) as (_ & _ & Hc). exact Hc.
Qed.

(** One test image against a database of one image. *)
Lemma db_recognize_defined_witness :
  exists counts,
    Database.db_recognize (fun _ => two_pixels) (fun _ _ => true) face_database [[x62]]
    = Ok counts /\
    length counts
    = length (List.filter Database.truth
                [Database.pca face_database; Database.lda face_database;
                 Database.ica face_database]) /\
    Forall (fun n => 0 <= n <= Z.of_nat (length [[x62]])) counts.
Proof.
  apply (db_recognize_defined float double_precision (fun _ => two_pixels) (fun _ _ => true)
           face_database [[x62]]).
  - reflexivity.
  - split; [simpl; lia|]. split.
    + eexists. split; [reflexivity|]. split; [|split; reflexivity].
      split; [reflexivity|]. split; [reflexivity|]. split; [reflexivity|].
      repeat constructor; eexists; reflexivity.
    + split; [|split; intros Hflag; discriminate Hflag].
      intros _. eexists. eexists. split; [reflexivity|]. split; [reflexivity|].
      split; [|split; [|split; [|split]]]; try reflexivity.
      * split; [reflexivity|]. split; [reflexivity|]. split; [reflexivity|].
        repeat constructor; eexists; reflexivity.
      * split; [reflexivity|]. split; [reflexivity|]. split; [reflexivity|].
        repeat constructor; eexists; reflexivity.
  - repeat constructor.
Defined.

(** ** Copies of copies, and integer parts *)

(** Copying columns [c .. d) of a copy of columns [a .. b) of [M] is copying
    columns [a + c .. a + d) of [M]. *)
Theorem m_copy_columns_compose (T : Type) (M : matrix_t T) (a b c d : Z) :
  wf_matrix M ->
  0 <= a -> a < b -> b <= cols M -> 0 <= c -> c < d -> d <= b - a ->
  exists C D, m_copy_columns M a b = Ok C /\ m_copy_columns C c d = Ok D /\
              m_copy_columns M (a + c) (a + d) = Ok D.
Proof.
  intros Hwf Ha Hab Hb Hc Hcd Hd.
  pose proof (wf_initialised M Hwf) as Hinit. destruct Hwf as (Hr & Hcm & Hlen & _).
  assert (Hshape : forall (N : matrix_t T) (x y : Z),
            0 <= rows N -> Z.of_nat (length (data N)) = rows N * cols N ->
            0 <= x -> x < y -> y <= cols N ->
            exists C, m_copy_columns N x y = Ok C /\ shaped (rows N) (y - x) C).
  { intros N x y HrN HlN Hx Hxy Hy. eexists. split; [apply m_copy_columns_Ok; assumption|].
    split; [reflexivity|]. split; [reflexivity|]. cbn [data].
    rewrite length_take, length_drop. nia. }
  destruct (Hshape M a b) as (C & EC & HshC); [lia | exact Hlen | lia..|].
  pose proof HshC as (ErC & EcC & HlC).
  destruct (Hshape C c d) as (D & ED & HshD); [lia | rewrite ErC, EcC; exact HlC | lia..|].
  destruct (Hshape M (a + c) (a + d)) as (D' & ED' & HshD'); [lia | exact Hlen | lia..|].
  exists C, D. split; [exact EC|]. split; [exact ED|]. rewrite ED'. f_equal.
  rewrite ErC in HshD. replace (a + d - (a + c)) with (d - c) in HshD' by lia.
  apply (matrix_ext (rows M) (d - c)); [lia | exact HshD' | exact HshD |].
  intros i j Hi Hj. destruct (Hinit i (a + c + j)) as [v Hv]; [lia | lia |].
  exists v. split.
  - rewrite (m_copy_columns_elem M D' (a + c) (a + d) i j) by (assumption || lia).
    exact Hv.
  - rewrite (m_copy_columns_elem C D c d i j)
      by (try assumption; rewrite ?ErC, ?EcC; (lia || exact HlC)).
    rewrite (m_copy_columns_elem M C a b i (c + j)) by (assumption || lia).
    rewrite <- Hv. f_equal. lia.
Qed.

Lemma m_copy_columns_compose_witness :
  exists C D, m_copy_columns small_doubles 0 2 = Ok C /\ m_copy_columns C 1 2 = Ok D /\
              m_copy_columns small_doubles (0 + 1) (0 + 2) = Ok D.
Proof.
  apply (m_copy_columns_compose float small_doubles 0 2 1 2); try (simpl; lia).
  split; [reflexivity|]. split; [reflexivity|]. split; [reflexivity|].
  repeat constructor; eexists; reflexivity.
Defined.

Section IntegerParts.
Context {T : Type} `{Precision T} `{Truncation T}.
Implicit Types (M : matrix_t T).

Lemma m_elem_truncate_cells (r c : Z) M (f : Z -> Z -> T) (z : Z -> Z -> Z) :
  0 <= r -> 0 <= c -> shaped r c M -> entries_are r c M f ->
  (forall i j, 0 <= i < r -> 0 <= j < c -> cast_int (f i j) = Ok (z i j)) ->
  exists M', MatrixCpu.m_elem_truncate M = Ok M' /\ shaped r c M' /\
             entries_are r c M' (fun i j => p_of_int (z i j)).
Proof.
  intros Hr Hc Hsh Hf Hz. unfold MatrixCpu.m_elem_truncate.
  pose proof Hsh as (Er & _ & _). rewrite Er.
  apply (rowwise_update r c M (fun i j => p_of_int (z i j))
           (fun i j M => let* x := elem M i j in
                         let* z := cast_int x in
                         set_elem M i j (p_of_int z)));
    [lia | lia | exact Hsh |].
  intros i j M1 Hi Hj _ E. rewrite E, (Hf i j Hi Hj). cbn [bind].
  rewrite (Hz i j Hi Hj). reflexivity.
Qed.

End IntegerParts.

Section RealIntegerParts.
Local Open Scope R_scope.

(** The integer part toward zero of a real number. *)
Lemma real_trunc_spec (x : R) :
  exists z : Z, p_trunc x = Some z /\
    (0 <= x -> IZR z <= x < IZR z + 1) /\ (x < 0 -> x <= IZR z < x + 1).
Proof.
  cbn [p_trunc real_truncation]. destruct (Rle_dec 0 x) as [Hpos|Hneg].
  - exists (Int_part x). split; [reflexivity|].
    pose proof (base_Int_part x) as [? ?]. split; intros; lra.
  - exists (- Int_part (- x))%Z. split; [reflexivity|].
    pose proof (base_Int_part (- x)) as [? ?]. rewrite opp_IZR. split; intros; lra.
Qed.

Lemma real_trunc_IZR (z : Z) : p_trunc (IZR z) = Some z.
Proof.
  cbn [p_trunc real_truncation]. f_equal. destruct (Rle_dec 0 (IZR z)).
  - symmetry. apply Int_part_spec. lra.
  - rewrite <- opp_IZR. rewrite <- (Int_part_spec (IZR (- z)) (- z)%Z) by lra. lia.
Qed.

End RealIntegerParts.

(** In exact arithmetic, on a matrix whose elements lie in the range of an
    [int], [m_elem_truncate] replaces every element by its integer part
    toward zero; truncating the result changes nothing. *)
Theorem m_elem_truncate_real (M : matrix_t R) :
  wf_matrix M ->
  (forall i j, 0 <= i < rows M -> 0 <= j < cols M ->
     (IZR (- 2 ^ 31) <= entry M i j < IZR (2 ^ 31))%R) ->
  exists N, MatrixCpu.m_elem_truncate M = Ok N /\
    rows N = rows M /\ cols N = cols M /\
    (forall i j, 0 <= i < rows M -> 0 <= j < cols M ->
       exists z : Z, elem N i j = Ok (IZR z) /\
         (0 <= entry M i j -> IZR z <= entry M i j < IZR z + 1)%R /\
         (entry M i j < 0 -> entry M i j <= IZR z < entry M i j + 1)%R) /\
    MatrixCpu.m_elem_truncate N = Ok N.
Proof.
  intros Hwf Hrange. pose proof (wf_shaped M Hwf) as Hsh.
  pose proof (wf_entry M Hwf) as Hf. destruct Hwf as (Hr & Hc & _).
  set (tz := fun i j => match p_trunc (entry M i j) with Some z => z | None => 0 end).
  assert (Htz : forall i j, 0 <= i < rows M -> 0 <= j < cols M ->
            p_trunc (entry M i j) = Some (tz i j) /\
            (0 <= entry M i j -> IZR (tz i j) <= entry M i j < IZR (tz i j) + 1)%R /\
            (entry M i j < 0 -> entry M i j <= IZR (tz i j) < entry M i j + 1)%R).
  { intros i j Hi Hj. unfold tz. destruct (real_trunc_spec (entry M i j)) as (z & -> & Hz).
    split; [reflexivity | exact Hz]. }
  assert (Hint : forall i j, 0 <= i < rows M -> 0 <= j < cols M ->
            - 2 ^ 31 <= tz i j < 2 ^ 31).
  { intros i j Hi Hj. destruct (Htz i j Hi Hj) as (_ & Hpos & Hneg).
    pose proof (Hrange i j Hi Hj) as [Hlo Hhi].
    destruct (Rle_dec 0 (entry M i j)) as [Hp|Hn].
    - destruct (Hpos Hp) as [H1 H2]. split.
      + apply le_IZR. apply Rle_trans with 0%R; [apply IZR_le; lia|].
        assert (-1 < IZR (tz i j))%R by lra.
        apply IZR_le. assert (-1 < tz i j) by (apply lt_IZR; lra). lia.
      + apply lt_IZR. lra.
    - destruct (Hneg ltac:(lra)) as [H1 H2]. split.
      + apply le_IZR. lra.
      + assert (tz i j < 1) by (apply lt_IZR; lra). lia. }
  assert (Hcast : forall z, - 2 ^ 31 <= z < 2 ^ 31 -> forall x : R,
            p_trunc x = Some z -> cast_int x = Ok z).
  { intros z Hz x Hx. unfold cast_int. rewrite Hx.
    destruct (Z.leb_spec (- 2 ^ 31) z); [|lia]. destruct (Z.ltb_spec z (2 ^ 31)); [|lia].
    reflexivity. }
  destruct (m_elem_truncate_cells (rows M) (cols M) M (entry M) tz)
    as (N & EN & HshN & HN); [lia | lia | exact Hsh | exact Hf | |].
  { intros i j Hi Hj. apply Hcast; [apply Hint; assumption | apply Htz; assumption]. }
  destruct (m_elem_truncate_cells (rows M) (cols M) N (fun i j => IZR (tz i j)) tz)
    as (N' & EN' & HshN' & HN'); [lia | lia | exact HshN | exact HN | |].
  { intros i j Hi Hj. apply Hcast; [apply Hint; assumption | apply real_trunc_IZR]. }
  exists N. split; [exact EN|]. pose proof HshN as (ErN & EcN & _).
  split; [exact ErN|]. split; [exact EcN|]. split.
  - intros i j Hi Hj. exists (tz i j). split; [apply HN; assumption|].
    apply Htz; assumption.
  - rewrite EN'. f_equal. apply (matrix_ext (rows M) (cols M)); [lia | exact HshN' | exact HshN |].
    intros i j Hi Hj. eexists. split; [apply (HN' i j Hi Hj) | apply (HN i j Hi Hj)].
Qed.

Lemma m_elem_truncate_real_witness :
  exists N, MatrixCpu.m_elem_truncate two_observations = Ok N /\
    rows N = rows two_observations /\ cols N = cols two_observations /\
    (forall i j, 0 <= i < rows two_observations -> 0 <= j < cols two_observations ->
       exists z : Z, elem N i j = Ok (IZR z) /\
         (0 <= entry two_observations i j
          -> IZR z <= entry two_observations i j < IZR z + 1)%R /\
         (entry two_observations i j < 0
          -> entry two_observations i j <= IZR z < entry two_observations i j + 1)%R) /\
    MatrixCpu.m_elem_truncate N = Ok N.
Proof.
  apply (m_elem_truncate_real two_observations).
  - split; [reflexivity|]. split; [reflexivity|]. split; [reflexivity|].
    repeat constructor; eexists; reflexivity.
  - intros i j Hi Hj. cbn [rows cols two_observations] in Hi, Hj.
    assert (Hij : i = 0 /\ (j = 0 \/ j = 1)) by lia.
    destruct Hij as [-> [-> | ->]].
    + change (IZR (- 2 ^ 31) <= 1 < IZR (2 ^ 31))%R.
      split; [apply IZR_le; lia | apply IZR_lt; lia].
    + change (IZR (- 2 ^ 31) <= 3 < IZR (2 ^ 31))%R.
      split; [apply IZR_le; lia | apply IZR_lt; lia].
Defined.

(** ** The rows of the elements that are not zero *)

Lemma indices_snoc (n : Z) : 0 <= n -> indices (n + 1) = indices n ++ [n].
Proof.
  intros Hn. unfold indices. replace (Z.to_nat (n + 1)) with (S (Z.to_nat n)) by lia.
  rewrite seq_S, map_app. cbn [map Nat.add]. rewrite Z2Nat.id by lia. reflexivity.
Qed.

Section NonZeros.
Context {T : Type} `{Precision T}.
Implicit Types (M : matrix_t T).

Lemma nonzero_rows_upto_cell M (i j : Z) :
  0 <= j ->
  nonzero_rows_upto M i (j + 1) = nonzero_rows_upto M i j ++ nonzero_row_of M i j.
Proof.
  intros Hj. unfold nonzero_rows_upto. rewrite indices_snoc by lia.
  rewrite flat_map_app. cbn [flat_map]. rewrite app_nil_r, app_assoc. reflexivity.
Qed.

Lemma nonzero_rows_upto_row M (i : Z) :
  0 <= i -> nonzero_rows_upto M (i + 1) 0 = nonzero_rows_upto M i (cols M).
Proof.
  intros Hi. unfold nonzero_rows_upto. rewrite indices_snoc by lia.
  rewrite flat_map_app. cbn [flat_map indices Z.to_nat seq map]. rewrite !app_nil_r.
  reflexivity.
Qed.

Lemma m_findNonZeros_cells (r c : Z) M (f : Z -> Z -> T) :
  0 <= r -> 0 <= c -> shaped r c M -> entries_are r c M f ->
  exists R, MatrixCpu.m_findNonZeros M = Ok R /\ shaped (r * c) 1 R /\
    Z.of_nat (length (nonzero_rows M)) <= r * c /\
    forall k, 0 <= k < r * c ->
      elem R k 0 = Ok (p_of_int (nth (Z.to_nat k) (nonzero_rows M) 0)).
Proof.
  intros Hr Hc Hsh Hf. pose proof Hsh as (Er & Ec & _).
  unfold MatrixCpu.m_findNonZeros, nonzero_rows. rewrite Er, Ec.
  pose (Inv := fun (i j : Z) (st : matrix_t T * Z) =>
     shaped (r * c) 1 (fst st) /\
     snd st = Z.of_nat (length (nonzero_rows_upto M i j)) /\
     snd st <= i * c + j /\
     forall k, 0 <= k < r * c ->
       elem (fst st) k 0 = Ok (p_of_int (nth (Z.to_nat k) (nonzero_rows_upto M i j) 0))).
  destruct (for_loop_inv (fun i st => Inv i 0 st) 0 r
              (fun i '(R, count) =>
                 for_loop 0 c (fun j '(R, count) =>
                   let* val := elem M i j in
                   if negb (p_eqb val (p_of_int 0))
                   then let* R := set_elem R count 0 (p_of_int (i + 1)) in
                        Ok (R, count + 1)
                   else Ok (R, count)) (R, count)) (m_zeros (r * c) 1, 0))
    as ([R count] & E & HshR & Hcount & Hle & HR); [lia | | |].
  - unfold Inv. cbn [fst snd]. split; [apply shaped_zeros; nia|].
    split; [reflexivity|]. split; [lia|]. intros k Hk.
    rewrite (entries_zeros (r * c) 1 k 0) by lia. cbn [nonzero_rows_upto].
    destruct (Z.to_nat k); reflexivity.
  - intros i [R0 count0] Hi HI.
    destruct (for_loop_inv (fun j st => Inv i j st) 0 c
                (fun j '(R, count) =>
                   let* val := elem M i j in
                   if negb (p_eqb val (p_of_int 0))
                   then let* R := set_elem R count 0 (p_of_int (i + 1)) in
                        Ok (R, count + 1)
                   else Ok (R, count)) (R0, count0))
      as ([R1 count1] & E1 & HI1); [lia | exact HI | |].
    + intros j [R2 count2] Hj (Hsh2 & Hc2 & Hle2 & H2). cbn [fst snd] in *.
      rewrite (Hf i j Hi Hj). cbn [bind].
      assert (Hcell : nonzero_row_of M i j
                      = if negb (p_eqb (f i j) (p_of_int 0)) then [i + 1] else [])
        by (unfold nonzero_row_of; rewrite (Hf i j Hi Hj); reflexivity).
      unfold Inv. cbn [fst snd]. rewrite nonzero_rows_upto_cell by lia. rewrite Hcell.
      destruct (negb (p_eqb (f i j) (p_of_int 0))).
      * destruct (matrix_set_spec (r * c) 1 R2 (count2, 0) (p_of_int (i + 1)) Hsh2)
          as (R3 & E3 & Hsh3 & G3 & N3); [split; cbn [fst snd]; nia|].
        cbn [fst snd] in E3, G3. rewrite E3. cbn [bind].
        eexists. split; [reflexivity|]. cbn [fst snd].
        split; [exact Hsh3|]. split; [rewrite length_app; cbn [length]; lia|].
        split; [lia|]. intros k Hk.
        destruct (Z.eq_dec k count2) as [->|Hne].
        -- rewrite G3. f_equal. f_equal. rewrite Hc2, Nat2Z.id.
           rewrite app_nth2 by lia. rewrite Nat.sub_diag. reflexivity.
        -- pose proof (N3 (k, 0)) as N3k. cbn [fst snd] in N3k.
           rewrite N3k; [| split; cbn [fst snd]; lia | congruence].
           rewrite (H2 k Hk). f_equal. f_equal.
           destruct (Z_lt_ge_dec k count2) as [Hlt|Hge].
           ++ rewrite app_nth1 by lia. reflexivity.
           ++ rewrite !nth_overflow; [reflexivity | | lia].
              rewrite length_app. cbn [length]. lia.
      * eexists. split; [reflexivity|]. cbn [fst snd]. rewrite app_nil_r.
        split; [exact Hsh2|]. split; [exact Hc2|]. split; [lia | exact H2].
    + exists (R1, count1). split; [exact E1|]. unfold Inv in *.
      rewrite nonzero_rows_upto_row by lia. rewrite Ec. destruct HI1 as (HA & HB & HC & HD).
      split; [exact HA|]. split; [exact HB|]. split; [cbn [fst snd] in *; lia | exact HD].
  - cbn [bind]. rewrite E. cbn [bind fst snd] in *. exists R. split; [reflexivity|].
    split; [exact HshR|]. split; [lia | exact HR].
Qed.

End NonZeros.

(** [m_findNonZeros] returns a column of [rows * cols] elements: first, for
    each element of [M] that is not zero, taken row by row, the number of its
    row counted from 1, then zeros. The columns of the elements found are not
    recorded, and no write goes past the end of the column. *)
Theorem m_findNonZeros_spec (T : Type) (prec : Precision T) (M : matrix_t T) :
  wf_matrix M ->
  exists R, MatrixCpu.m_findNonZeros M = Ok R /\
    rows R = rows M * cols M /\ cols R = 1 /\
    Z.of_nat (length (nonzero_rows M)) <= rows M * cols M /\
    forall k, 0 <= k < rows M * cols M ->
      elem R k 0 = Ok (p_of_int (nth (Z.to_nat k) (nonzero_rows M) 0)).
Proof.
  intros Hwf. destruct (wf_elem_fun M Hwf) as [f Hf].
  pose proof (wf_shaped M Hwf) as Hsh. destruct Hwf as (Hr & Hc & _).
  destruct (m_findNonZeros_cells (rows M) (cols M) M f) as (R & E & (Er & Ec & _) & Hlen & HR);
    [lia | lia | exact Hsh | exact Hf |].
  exists R. auto.
Qed.

(** The matrix [[0, 3], [2, 0]] of doubles: the rows found are 1 and 2. *)
Lemma m_findNonZeros_spec_witness :
  exists R, MatrixCpu.m_findNonZeros
              {| rows := 2; cols := 2;
                 data := [Some 0%float; Some 2%float; Some 3%float; Some 0%float] |} = Ok R /\
    rows R = 2 * 2 /\ cols R = 1 /\
    Z.of_nat (length (nonzero_rows
                        {| rows := 2; cols := 2;
                           data := [Some 0%float; Some 2%float; Some 3%float; Some 0%float] |}))
    <= 2 * 2 /\
    forall k, 0 <= k < 2 * 2 ->
      elem R k 0
      = Ok (p_of_int (nth (Z.to_nat k)
                        (nonzero_rows
                           {| rows := 2; cols := 2;
                              data := [Some 0%float; Some 2%float; Some 3%float;
                                       Some 0%float] |}) 0)).
Proof.
  apply (m_findNonZeros_spec float double_precision
           {| rows := 2; cols := 2;
              data := [Some 0%float; Some 2%float; Some 3%float; Some 0%float] |}).
  split; [reflexivity|]. split; [reflexivity|]. split; [reflexivity|].
  repeat constructor; eexists; reflexivity.
Defined.
